(** * Logistics MST pipeline (services/logistics.py): a shallow embedding

    The pipeline of [generate_logistics_mst] is embedded stage by stage:
    [get_default_tags], [extract_coordinates], [haversine],
    [build_geodesic_graph], [build_mst_graph], [visualize_mst_map] and the
    assembling code of [generate_logistics_mst] itself.

    Conventions.
    - Python exceptions are values of [exn]; a computation that may raise
      lives in the [result] monad.
    - Distances are Python floats.  Their values are embedded over the real
      numbers (exact arithmetic, no NaN); that binary64 rounding can take a
      radicand of [haversine] out of the domain of [math.sqrt] is kept as
      an error path of every call of [haversine].  The extractor, which
      only copies coordinates, is parametric in the coordinate type and is
      also used at binary64 floats.
    - Everything outside the source is a field of a [provider] record:
      the calls into osmnx (feature download, road network download,
      snapping, routing), the file system ([os.makedirs], [gdf.to_file],
      [m.save]) and what binary64 knows and the reals do not (a square
      root out of its domain, a NaN coordinate).  Each call either returns
      or raises.
    - Printing has no influence on the returned values and is left out. *)

From Stdlib Require Import List String Ascii Bool Arith Lia.
From Stdlib Require Import Permutation Sorted.
From Stdlib Require Import Floats.
From Stdlib Require Import Reals Lra.
Import ListNotations.

Open Scope string_scope.
Open Scope list_scope.
Open Scope nat_scope.

(* ================================================================== *)
(** ** Exceptions and the result monad *)

Inductive exn : Type :=
| ValueError (msg : string)
| AttributeError (msg : string)
| KeyError (key : string)
| IndexError (msg : string)
| FileNotFoundError (msg : string)
| ProviderError (msg : string).

Inductive result (A : Type) : Type :=
| Ok (a : A)
| Raise (e : exn).

Arguments Ok {A} a.
Arguments Raise {A} e.

Definition bind {A B : Type} (m : result A) (k : A -> result B) : result B :=
  match m with
  | Ok a => k a
  | Raise e => Raise e
  end.

Notation "x <- m ;; k" := (bind m (fun x => k))
  (at level 61, m at next level, right associativity).

Definition raises {A : Type} (m : result A) : Prop :=
  exists e, m = Raise e.

Definition returns {A : Type} (m : result A) : Prop :=
  exists a, m = Ok a.

(* ================================================================== *)
(** ** Mode names and OSM tag sets: [get_default_tags] *)

(** [str.lower], exact on ASCII strings: 'A'..'Z' are mapped to 'a'..'z',
    every other byte is kept.  Python also lowercases the capitals outside
    ASCII, whose bytes are kept here.  No such capital has an ASCII letter
    of a mode name as its lowercase (the only characters outside ASCII with
    an ASCII letter in their lowercase are U+212A, which gives k, and
    U+0130, which gives i followed by U+0307), so whether the lowercased
    mode is one of the four names is the same here and there; on a string
    with capitals outside ASCII only the text of the error message
    differs. *)
Definition lower_ascii (c : ascii) : ascii :=
  let n := nat_of_ascii c in
  if (65 <=? n) && (n <=? 90) then ascii_of_nat (n + 32) else c.

Fixpoint lower (s : string) : string :=
  match s with
  | EmptyString => EmptyString
  | String c rest => String (lower_ascii c) (lower rest)
  end.

(** A tag filter value: a list of accepted values, or [True]. *)
Inductive tag_value : Type :=
| TagList (vs : list string)
| TagTrue.

(** A Python dict literal, in the order it is written. *)
Definition tags_dict : Type := list (string * tag_value).

Definition get_default_tags (mode : string) : result tags_dict :=
  let mode := lower mode in
  if (mode =? "auto")%string then
    Ok [("building", TagList ["warehouse"; "depot"; "industrial"])]
  else if (mode =? "aero")%string then
    Ok [("aeroway", TagList ["terminal"; "hangar"; "cargo"])]
  else if (mode =? "sea")%string then
    Ok [("harbour", TagTrue); ("man_made", TagList ["pier"; "dock"])]
  else if (mode =? "rail")%string then
    Ok [("railway", TagList ["station"; "yard"; "cargo_terminal"])]
  else
    Raise (ValueError ("Неизвестный мод: " ++ mode)%string).

(* ================================================================== *)
(** ** Facility records and the Geometry Extractor: [extract_coordinates] *)

(** One cell of a GeoDataFrame row as [row.to_dict()] shows it: a missing
    value (NaN or None, the values [pd.isna] accepts), any other scalar with
    its [str] rendering, or the geometry object of the row. *)
Inductive cell : Type :=
| Null
| Scalar (repr : string)
| GeomCell.

Section Extractor.

(** The type of coordinate values.  The extractor never computes with
    them: it reads them off the geometry object. *)
Variable C : Type.

(** A shapely geometry as the extractor reads it: its [geom_type], its
    [centroid] as [(x, y)], and its own [(x, y)], which only a Point has:
    on any other geometry [geom.y] raises AttributeError. *)
Record geometry : Type := mkGeometry {
  geom_type : string;
  centroid : C * C;
  xy : option (C * C)
}.

Definition Point (x y : C) : geometry :=
  mkGeometry "Point" (x, y) (Some (x, y)).

Definition Polygon (centroid_x centroid_y : C) : geometry :=
  mkGeometry "Polygon" (centroid_x, centroid_y) None.

Definition MultiPolygon (centroid_x centroid_y : C) : geometry :=
  mkGeometry "MultiPolygon" (centroid_x, centroid_y) None.

Definition LineString (centroid_x centroid_y : C) : geometry :=
  mkGeometry "LineString" (centroid_x, centroid_y) None.

Record facility : Type := mkFacility {
  fac_geometry : geometry;
  fac_attributes : list (string * cell)
}.

(** A row of [coords_df]. *)
Record located_point : Type := mkPoint {
  lat : C;
  lon : C;
  tags : list (string * cell)
}.

(** [row.to_dict()]: the attribute columns and the geometry column. *)
Definition to_dict (row : facility) : list (string * cell) :=
  fac_attributes row ++ [("geometry", GeomCell)].

(** [geom.geom_type in ["Polygon", "MultiPolygon"]]. *)
Definition is_polygonal (t : string) : bool :=
  ((t =? "Polygon") || (t =? "MultiPolygon"))%string.

(** The [(y, x)] pair the loop body assigns. *)
Definition resolve_yx (geom : geometry) : result (C * C) :=
  if is_polygonal (geom_type geom) then
    Ok (snd (centroid geom), fst (centroid geom))
  else
    match xy geom with
    | Some (x, y) => Ok (y, x)
    | None =>
        Raise (AttributeError
                 ("'" ++ geom_type geom ++ "' object has no attribute 'y'")%string)
    end.

Fixpoint extract_coordinates (gdf : list facility)
  : result (list located_point) :=
  match gdf with
  | [] => Ok []
  | row :: rest =>
      yx <- resolve_yx (fac_geometry row) ;;
      coords <- extract_coordinates rest ;;
      Ok (mkPoint (fst yx) (snd yx) (to_dict row) :: coords)
  end.

End Extractor.

Arguments mkGeometry {C} _ _ _.
Arguments geom_type {C} _.
Arguments centroid {C} _.
Arguments xy {C} _.
Arguments Point {C} x y.
Arguments Polygon {C} centroid_x centroid_y.
Arguments MultiPolygon {C} centroid_x centroid_y.
Arguments LineString {C} centroid_x centroid_y.
Arguments mkFacility {C} _ _.
Arguments fac_geometry {C} _.
Arguments fac_attributes {C} _.
Arguments mkPoint {C} _ _ _.
Arguments lat {C} _.
Arguments lon {C} _.
Arguments tags {C} _.
Arguments to_dict {C} row.
Arguments resolve_yx {C} geom.
Arguments extract_coordinates {C} gdf.

(** The LocatedPoint invariant of the data model, on binary64 floats:
    finite, latitude in [-90, 90], longitude in [-180, 180].  A NaN fails
    every comparison, an infinity fails one of the two bounds. *)
Definition float_in_range (lo hi x : float) : bool :=
  (PrimFloat.leb lo x && PrimFloat.leb x hi)%bool.

Definition valid_point (p : located_point float) : bool :=
  (float_in_range (-90)%float 90%float (lat p)
   && float_in_range (-180)%float 180%float (lon p))%bool.

(* ================================================================== *)
(** ** Geodesic distance: [haversine] *)

Open Scope R_scope.

(** [math.radians]. *)
Definition radians (deg : R) : R := deg * (PI / 180).

(** [math.atan2 y x], by quadrant. *)
Definition atan2 (y x : R) : R :=
  if Rlt_dec 0 x then atan (y / x)
  else if Rlt_dec x 0 then
         (if Rle_dec 0 y then atan (y / x) + PI else atan (y / x) - PI)
  else if Rlt_dec 0 y then PI / 2
  else if Rlt_dec y 0 then - (PI / 2)
  else 0.

(** The quantity [a] of the haversine formula. *)
Definition haversine_a (lat1 lon1 lat2 lon2 : R) : R :=
  let phi1 := radians lat1 in
  let phi2 := radians lat2 in
  let dphi := radians (lat2 - lat1) in
  let dlambda := radians (lon2 - lon1) in
  sin (dphi / 2) ^ 2 + cos phi1 * cos phi2 * sin (dlambda / 2) ^ 2.

(** The value of the formula in exact arithmetic.  There [haversine_a]
    lies in [0, 1], so both square roots exist.  In binary64 the computed
    [a] can exceed 1 by one unit in the last place for nearly antipodal
    points, and [math.sqrt (1 - a)] then raises: a call made by the program
    is [haversine_call] below, which keeps this value and adds that error
    path. *)
Definition haversine (lat1 lon1 lat2 lon2 : R) : R :=
  let R := 6371000 in
  let a := haversine_a lat1 lon1 lat2 lon2 in
  2 * R * atan2 (sqrt a) (sqrt (1 - a)).

Close Scope R_scope.

(* ================================================================== *)
(** ** Graphs ([nx.Graph]) *)

(** An edge [(u, v, {"weight": w})]. *)
Definition edge : Type := (nat * nat * R)%type.

Definition edge_u (e : edge) : nat := fst (fst e).
Definition edge_v (e : edge) : nat := snd (fst e).
Definition weight (e : edge) : R := snd e.

(** An undirected simple graph: its nodes in insertion order and its edges,
    at most one per unordered pair of nodes.  [edges] stands for the
    iteration [G.edges(data=True)]; networkx groups that iteration by node,
    here the edges are kept in the order they were first added. *)
Record Graph : Type := mkGraph {
  nodes : list nat;
  edges : list edge
}.

Definition empty_graph : Graph := mkGraph [] [].

Definition has_node (ns : list nat) (n : nat) : bool := existsb (Nat.eqb n) ns.

Definition add_node (G : Graph) (n : nat) : Graph :=
  if has_node (nodes G) n then G else mkGraph (nodes G ++ [n]) (edges G).

Definition add_nodes_from (G : Graph) (ns : list nat) : Graph :=
  fold_left add_node ns G.

(** Do [(u, v)] and [(u', v')] name the same undirected edge? *)
Definition same_pair (u v u' v' : nat) : bool :=
  ((u =? u') && (v =? v') || (u =? v') && (v =? u'))%bool.

Definition has_edge (es : list edge) (u v : nat) : bool :=
  existsb (fun e => same_pair u v (edge_u e) (edge_v e)) es.

(** Adding an edge that is already there updates its data. *)
Definition set_weight (u v : nat) (w : R) (es : list edge) : list edge :=
  map (fun e => if same_pair u v (edge_u e) (edge_v e)
                then (edge_u e, edge_v e, w) else e) es.

Definition add_edge (G : Graph) (e : edge) : Graph :=
  let '(u, v, w) := e in
  let G := add_node (add_node G u) v in
  if has_edge (edges G) u v
  then mkGraph (nodes G) (set_weight u v w (edges G))
  else mkGraph (nodes G) (edges G ++ [(u, v, w)]).

Definition add_edges_from (G : Graph) (es : list edge) : Graph :=
  fold_left add_edge es G.

(** [coords_df.iterrows()]: the frame has a RangeIndex, so row [k] comes
    with index [k]. *)
Definition iterrows {A : Type} (df : list A) : list (nat * A) :=
  combine (seq 0 (List.length df)) df.

Definition index {A : Type} (df : list A) : list nat := seq 0 (List.length df).

(* ================================================================== *)
(** ** The Spanning Tree Engine: [build_mst_graph] *)

(** [UnionFind] of networkx, seen through its interface: [subtrees x] is
    the representative of the set of [x]; [union] merges two sets. *)
Definition subtrees_init : nat -> nat := fun x => x.

Definition union (subtrees : nat -> nat) (u v : nat) : nat -> nat :=
  fun x => if subtrees x =? subtrees v then subtrees u else subtrees x.

(** [sorted(edges, key=weight)]: a stable sort by weight. *)
Fixpoint insert_by_weight (e : edge) (l : list edge) : list edge :=
  match l with
  | [] => [e]
  | x :: rest =>
      if Rle_dec (weight e) (weight x) then e :: l
      else x :: insert_by_weight e rest
  end.

Definition sorted_by_weight (es : list edge) : list edge :=
  fold_right insert_by_weight [] es.

(** The loop of Kruskal's algorithm: an edge is yielded when its endpoints
    lie in different subtrees, which are then merged. *)
Fixpoint kruskal_loop (subtrees : nat -> nat) (es : list edge) : list edge :=
  match es with
  | [] => []
  | (u, v, w) :: rest =>
      if subtrees u =? subtrees v then kruskal_loop subtrees rest
      else (u, v, w) :: kruskal_loop (union subtrees u v) rest
  end.

Definition kruskal_mst_edges (G : Graph) : list edge :=
  kruskal_loop subtrees_init (sorted_by_weight (edges G)).

(** Modelled from the spec: [nx.minimum_spanning_tree] is library code that
    is not part of the repository sources.  Section 4.3 of the
    specification allows Kruskal's algorithm with a deterministic order on
    the edges; it is taken here as networkx runs it by default: the edges
    sorted stably by weight, a union-find over the nodes, and the result a
    new graph on the nodes of [G] holding the yielded edges. *)
Definition minimum_spanning_tree (G : Graph) : Graph :=
  let T := empty_graph in
  let T := add_nodes_from T (nodes G) in
  let T := add_edges_from T (kruskal_mst_edges G) in
  T.

Definition build_mst_graph (G : Graph) : Graph := minimum_spanning_tree G.

(* ================================================================== *)
(** ** What lies outside the source *)

(** [(west, south, east, north)], in degrees. *)
Definition bbox : Type := (R * R * R * R)%type.

Definition bbox0 (b : bbox) : R := fst (fst (fst b)).
Definition bbox1 (b : bbox) : R := snd (fst (fst b)).
Definition bbox2 (b : bbox) : R := snd (fst b).
Definition bbox3 (b : bbox) : R := snd b.

(** What is drawn on the folium map.  Popups and label markup are text
    built from the same values and are not kept. *)
Inductive map_element : Type :=
| CircleMarker (location : R * R)
| PolyLine (p q : R * R) (color : string)
| Marker (midpoint : R * R) (color : string) (dist_km : R).

Record folium_map : Type := mkMap {
  map_location : R * R;
  map_elements : list map_element
}.

(** What the pipeline asks of its surroundings.  Every call may raise.
    - [features_from_bbox]: [ox.features.features_from_bbox];
    - [graph_from_bbox]: [ox.graph_from_bbox], the road network download;
    - [nearest_nodes]: [ox.distance.nearest_nodes] on arrays [X], [Y];
    - [shortest_path]: [ox.routing.shortest_path], [None] when there is no
      path;
    - [route_to_gdf]: the [length] column of [ox.routing.route_to_gdf];
    - [makedirs]: [os.makedirs(cache_dir, exist_ok=True)];
    - [to_file]: [gdf.to_file(cache_path, driver="GeoJSON")];
    - [save]: [m.save(output_file)];
    - [sqrt_domain_error lat1 lon1 lat2 lon2]: whether, computed in
      binary64 at these arguments, one of the two radicands of [haversine]
      falls below zero, so that [math.sqrt] raises (at 8, 0, -8, 180 the
      computed [a] is 1.0000000000000002);
    - [isna x]: [pd.isna] of a coordinate.  The extractor copies the NaN of
      a geometry as it is, and no real number is one, so whether a
      coordinate of the frame is NaN is asked here. *)
Record provider : Type := mkProvider {
  network : Type;
  features_from_bbox : bbox -> tags_dict -> result (list (facility R));
  graph_from_bbox : bbox -> string -> result network;
  nearest_nodes : network -> list R -> list R -> result (list nat);
  shortest_path : network -> nat -> nat -> result (option (list nat));
  route_to_gdf : network -> list nat -> result (list R);
  makedirs : string -> result unit;
  to_file : list (facility R) -> string -> result unit;
  save : folium_map -> string -> result unit;
  sqrt_domain_error : R -> R -> R -> R -> bool;
  isna : R -> bool
}.

(** A call of [haversine] by the program: [ValueError] where [math.sqrt]
    leaves its domain, the distance otherwise. *)
Definition haversine_call (P : provider) (lat1 lon1 lat2 lon2 : R) : result R :=
  if sqrt_domain_error P lat1 lon1 lat2 lon2
  then Raise (ValueError "math domain error")
  else Ok (haversine lat1 lon1 lat2 lon2).

(* ================================================================== *)
(** ** The Distance Graph Builder: [build_geodesic_graph] *)

(** A loop that appends what its body yields and stops when the body
    raises. *)
Fixpoint collect {A B : Type} (body : A -> result (list B)) (l : list A)
  : result (list B) :=
  match l with
  | [] => Ok []
  | x :: rest =>
      ys <- body x ;;
      zs <- collect body rest ;;
      Ok (ys ++ zs)
  end.

(** The double loop that fills the list [edges]. *)
Definition edges_loop (P : provider) (coords_df : list (located_point R))
  : result (list edge) :=
  collect
    (fun ir : nat * located_point R =>
       let (i, row_i) := ir in
       collect
         (fun jr : nat * located_point R =>
            let (j, row_j) := jr in
            if i <? j then
              dist <- haversine_call P (lat row_i) (lon row_i)
                                       (lat row_j) (lon row_j) ;;
              Ok [(i, j, dist)]
            else Ok [])
         (iterrows coords_df))
    (iterrows coords_df).

Definition build_geodesic_graph (P : provider)
  (coords_df : list (located_point R)) : result Graph :=
  edges <- edges_loop P coords_df ;;
  let G := empty_graph in
  let G := add_nodes_from G (index coords_df) in
  let G := add_edges_from G edges in
  Ok G.

(* ================================================================== *)
(** ** Loading the features: [load_logistics_features] *)

(** [cache_path or f"logistics_{mode}_features.geojson"]. *)
Definition cache_path_or_default (cache_path : option string) (mode : string)
  : string :=
  match cache_path with
  | Some (String c rest) => String c rest
  | _ => ("logistics_" ++ mode ++ "_features.geojson")%string
  end.

Definition load_logistics_features (P : provider) (b : bbox) (mode : string)
  (cache_path : option string) : result (list (facility R)) :=
  tags <- get_default_tags mode ;;
  let cache_path := cache_path_or_default cache_path mode in
  gdf <- features_from_bbox P b tags ;;
  written <- to_file P gdf cache_path ;;
  Ok gdf.

(* ================================================================== *)
(** ** The Route Refiner: [visualize_mst_map] *)

(** [coords_df] after the [osm_node] column is assigned. *)
Definition snapped_row : Type := (located_point R * nat)%type.

(** Assigning a column of the wrong length raises in pandas. *)
Definition assign_osm_node (coords_df : list (located_point R))
  (osm : list nat) : result (list snapped_row) :=
  if List.length osm =? List.length coords_df
  then Ok (combine coords_df osm)
  else Raise (ValueError "Length of values does not match length of index").

(** [coords_df.iloc[u]] and [coords_df.loc[u]] on a RangeIndex. *)
Definition iloc (df : list snapped_row) (u : nat) : result snapped_row :=
  match nth_error df u with
  | Some row => Ok row
  | None => Raise (IndexError "single positional indexer is out-of-bounds")
  end.

Definition loc (df : list snapped_row) (u : nat) : result snapped_row :=
  match nth_error df u with
  | Some row => Ok row
  | None => Raise (KeyError "index")
  end.

Definition sum_lengths (ls : list R) : R := fold_left Rplus ls 0%R.

Definition midpoint_of (row_u row_v : located_point R) : R * R :=
  ((lat row_u + lat row_v) / 2, (lon row_u + lon row_v) / 2)%R.

(** The [try] around the routing query: any exception gives [None]. *)
Definition try_shortest_path (P : provider) (G_drive : network P)
  (node_u node_v : nat) : option (list nat) :=
  match shortest_path P G_drive node_u node_v with
  | Ok route => route
  | Raise _ => None
  end.

(** [route and len(route) > 1]. *)
Definition route_ok (route : option (list nat)) : option (list nat) :=
  match route with
  | Some r => if 1 <? List.length r then Some r else None
  | None => None
  end.

(** The [else] branch: a gray straight line labelled with the haversine
    distance in kilometres. *)
Definition draw_straight (P : provider) (df : list snapped_row) (u v : nat)
  : result (list map_element) :=
  ru <- loc df u ;;
  rv <- loc df v ;;
  let row_u := fst ru in
  let row_v := fst rv in
  d <- haversine_call P (lat row_u) (lon row_u) (lat row_v) (lon row_v) ;;
  let dist_hav := (d / 1000)%R in
  Ok [PolyLine (lat row_u, lon row_u) (lat row_v, lon row_v) "gray";
      Marker (midpoint_of row_u row_v) "gray" dist_hav].

(** The [if] branch: the road distance of the route, drawn as a blue
    straight line with its label (placed twice by the source). *)
Definition draw_routed (P : provider) (G_drive : network P)
  (df : list snapped_row) (u v : nat) (route : list nat)
  : result (list map_element) :=
  lengths <- route_to_gdf P G_drive route ;;
  let dist_m := sum_lengths lengths in
  let dist_km := (dist_m / 1000)%R in
  ru <- loc df u ;;
  rv <- loc df v ;;
  let row_u := fst ru in
  let row_v := fst rv in
  Ok [PolyLine (lat row_u, lon row_u) (lat row_v, lon row_v) "blue";
      Marker (midpoint_of row_u row_v) "white" dist_km;
      Marker (midpoint_of row_u row_v) "white" dist_km].

(** One iteration of the loop over [mst.edges(data=True)]. *)
Definition draw_edge (P : provider) (G_drive : network P)
  (df : list snapped_row) (e : edge) : result (list map_element) :=
  let '(u, v, data) := e in
  ru <- iloc df u ;;
  rv <- iloc df v ;;
  let node_u := snd ru in
  let node_v := snd rv in
  let route := try_shortest_path P G_drive node_u node_v in
  match route_ok route with
  | Some route => draw_routed P G_drive df u v route
  | None => draw_straight P df u v
  end.

Fixpoint draw_edges (P : provider) (G_drive : network P)
  (df : list snapped_row) (es : list edge) : result (list map_element) :=
  match es with
  | [] => Ok []
  | e :: rest =>
      drawn <- draw_edge P G_drive df e ;;
      more <- draw_edges P G_drive df rest ;;
      Ok (drawn ++ more)
  end.

(** The first loop: a red circle for every row, a row with a NaN
    coordinate skipped. *)
Definition circle_markers (P : provider) (coords_df : list (located_point R))
  : list map_element :=
  flat_map
    (fun row =>
       if isna P (lat row) || isna P (lon row) then []
       else [CircleMarker (lat row, lon row)])
    coords_df.

(** [visualize_mst_map] returns [output_file]; the map it saves there is
    returned with it.  An empty [coords_df] is a frame without columns, so
    reading its ["lon"] column raises. *)
Definition visualize_mst_map (P : provider)
  (coords_df : list (located_point R)) (mst : Graph) (b : bbox)
  (mode : string) (output_file : string) : result (string * folium_map) :=
  let location := ((bbox1 b + bbox3 b) / 2, (bbox0 b + bbox2 b) / 2)%R in
  let markers := circle_markers P coords_df in
  G_drive <- graph_from_bbox P b "drive" ;;
  match coords_df with
  | [] => Raise (KeyError "lon")
  | _ :: _ =>
      osm <- nearest_nodes P G_drive (map lon coords_df) (map lat coords_df) ;;
      df <- assign_osm_node coords_df osm ;;
      drawn <- draw_edges P G_drive df (edges mst) ;;
      let m := mkMap location (markers ++ drawn) in
      saved <- save P m output_file ;;
      Ok (output_file, m)
  end.

(* ================================================================== *)
(** ** The Network Assembler: [generate_logistics_mst] *)

(** An entry of the [points] list of the result. *)
Record point_out : Type := mkPointOut {
  out_lat : R;
  out_lon : R;
  out_tags : list (string * option string)
}.

(** An entry of the [edges] list of the result: exactly these three keys. *)
Record edge_out : Type := mkEdgeOut {
  from_index : nat;
  to_index : nat;
  distance : R
}.

(** The values stored in the returned dict. *)
Inductive value : Type :=
| VInt (n : nat)
| VFloat (r : R)
| VStr (s : string)
| VPoints (ps : list point_out)
| VEdges (es : list edge_out)
| VBbox (b : bbox).

Definition dict : Type := list (string * value).

(** [d[key]]; [None] stands for the [KeyError] of a missing key. *)
Fixpoint get (d : dict) (key : string) : option value :=
  match d with
  | [] => None
  | (k, v) :: rest => if (k =? key)%string then Some v else get rest key
  end.

Fixpoint ends_with_slash (s : string) : bool :=
  match s with
  | EmptyString => false
  | String c EmptyString => Ascii.eqb c "/"%char
  | String _ rest => ends_with_slash rest
  end.

(** [os.path.join] of a directory and a relative file name. *)
Definition path_join (dir name : string) : string :=
  match dir with
  | EmptyString => name
  | _ => if ends_with_slash dir then (dir ++ name)%string
         else (dir ++ "/" ++ name)%string
  end.

(** The inner loop over [row["tags"].items()]. *)
Fixpoint clean_tags (items : list (string * cell))
  : list (string * option string) :=
  match items with
  | [] => []
  | (k, v) :: rest =>
      if (k =? "geometry")%string then clean_tags rest
      else match v with
           | Null => (k, None) :: clean_tags rest
           | Scalar s => (k, Some s) :: clean_tags rest
           | GeomCell => (k, Some "geometry") :: clean_tags rest
           end
  end.

Definition assemble_points (coords_df : list (located_point R))
  : list point_out :=
  map (fun row => mkPointOut (lat row) (lon row) (clean_tags (tags row)))
      coords_df.

(** The loop over [mst.edges(data=True)]: the state is the pair
    [(edges, total_distance)]. *)
Definition assemble_edge (st : list edge_out * R) (e : edge)
  : list edge_out * R :=
  let '(u, v, data) := e in
  let d := data in
  (fst st ++ [mkEdgeOut u v d], (snd st + d)%R).

Definition assemble_edges (mst : Graph) : list edge_out * R :=
  fold_left assemble_edge (edges mst) ([], 0%R).

Definition default_output (cache_dir mode : string) : string :=
  path_join cache_dir ("logistics_" ++ mode ++ "_mst.html")%string.

(** [output_file or ...]: [None] and the empty string select the default. *)
Definition output_or_default (output_file : option string)
  (cache_dir mode : string) : string :=
  match output_file with
  | Some (String c rest) => String c rest
  | _ => default_output cache_dir mode
  end.

(** [os.path.join(cache_dir, f"logistics_{mode}_features.geojson")]. *)
Definition cache_file (cache_dir mode : string) : string :=
  path_join cache_dir ("logistics_" ++ mode ++ "_features.geojson")%string.

Definition generate_logistics_mst (P : provider) (b : bbox) (mode : string)
  (cache_dir : string) (output_file : option string) : result dict :=
  made <- makedirs P cache_dir ;;
  let cache_path := cache_file cache_dir mode in
  let output_file := output_or_default output_file cache_dir mode in
  gdf <- load_logistics_features P b mode (Some cache_path) ;;
  match gdf with
  | [] =>
      Ok [("status", VStr "no_data");
          ("message", VStr "Нет логистических объектов в области.")]
  | _ :: _ =>
      coords_df <- extract_coordinates gdf ;;
      G <- build_geodesic_graph P coords_df ;;
      let mst := build_mst_graph G in
      html <- visualize_mst_map P coords_df mst b mode output_file ;;
      let html_path := fst html in
      let points := assemble_points coords_df in
      let '(edges, total_distance) := assemble_edges mst in
      Ok [("nodes_count", VInt (List.length points));
          ("edges_count", VInt (List.length edges));
          ("total_distance", VFloat total_distance);
          ("points", VPoints points);
          ("edges", VEdges edges);
          ("map_path", VStr html_path);
          ("mode", VStr mode);
          ("bbox", VBbox b);
          ("status", VStr "ok")]
  end.

(* ================================================================== *)
(** * Specification vocabulary and sample inputs *)

(** ** Mode names *)

Definition known_mode (m : string) : Prop :=
  m = "auto" \/ m = "aero" \/ m = "sea" \/ m = "rail".

(** ** Graphs *)

(** The list [edges] the double loop of [build_geodesic_graph] collects
    when no call of [haversine] raises. *)
Definition geodesic_edges (coords_df : list (located_point R)) : list edge :=
  flat_map
    (fun ir : nat * located_point R =>
       let (i, row_i) := ir in
       flat_map
         (fun jr : nat * located_point R =>
            let (j, row_j) := jr in
            if i <? j then
              let dist := haversine (lat row_i) (lon row_i)
                                    (lat row_j) (lon row_j) in
              [(i, j, dist)]
            else [])
         (iterrows coords_df))
    (iterrows coords_df).

(** The graph [build_geodesic_graph] returns when it returns. *)
Definition geodesic_graph (coords_df : list (located_point R)) : Graph :=
  let edges := geodesic_edges coords_df in
  let G := empty_graph in
  let G := add_nodes_from G (index coords_df) in
  let G := add_edges_from G edges in
  G.

(** Every call of [haversine] the double loop makes stays in the domain of
    [math.sqrt]. *)
Definition distances_defined (P : provider)
  (coords_df : list (located_point R)) : Prop :=
  forall i j row_i row_j,
    nth_error coords_df i = Some row_i ->
    nth_error coords_df j = Some row_j -> i < j ->
    sqrt_domain_error P (lat row_i) (lon row_i) (lat row_j) (lon row_j) = false.

(** [connected E x y]: [x] and [y] are joined by a walk along edges of
    [E]. *)
Inductive connected (E : list edge) : nat -> nat -> Prop :=
| conn_refl : forall x, connected E x x
| conn_edge : forall u v w, In (u, v, w) E -> connected E u v
| conn_sym : forall x y, connected E x y -> connected E y x
| conn_trans : forall x y z,
    connected E x y -> connected E y z -> connected E x z.

(** [E] spans the nodes [0 .. n-1]. *)
Definition spanning (n : nat) (E : list edge) : Prop :=
  forall x y, x < n -> y < n -> connected E x y.

(** No cycle: taking any one edge (occurrence) out disconnects its
    endpoints. *)
Definition acyclic (E : list edge) : Prop :=
  forall E1 e E2, E = E1 ++ e :: E2 ->
                  ~ connected (E1 ++ E2) (edge_u e) (edge_v e).

Definition total_weight (E : list edge) : R :=
  fold_right Rplus 0%R (map weight E).

Definition edge_pair (e : edge) : nat * nat := (edge_u e, edge_v e).

(** The distance between two rows of [coords_df]. *)
Definition row_distance (row_i row_j : located_point R) : R :=
  haversine (lat row_i) (lon row_i) (lat row_j) (lon row_j).

(** The inner loop for a fixed outer row. *)
Definition inner_edges (coords_df : list (located_point R)) (i : nat)
  (row_i : located_point R) : list edge :=
  flat_map
    (fun jr : nat * located_point R =>
       let (j, row_j) := jr in
       if i <? j then [(i, j, row_distance row_i row_j)] else [])
    (iterrows coords_df).

Definition in_range (n : nat) (es : list edge) : Prop :=
  forall e, In e es -> edge_u e < n /\ edge_v e < n.

(** ** Union-find labellings *)

(** The labelling the union-find holds after the loop has seen [es]. *)
Fixpoint run (subtrees : nat -> nat) (es : list edge) : nat -> nat :=
  match es with
  | [] => subtrees
  | (u, v, w) :: rest =>
      if subtrees u =? subtrees v then run subtrees rest
      else run (union subtrees u v) rest
  end.

(** Labels stay among the nodes and every label is its own label. *)
Definition wf_labels (n : nat) (f : nat -> nat) : Prop :=
  (forall x, x < n -> f x < n) /\ (forall x, x < n -> f (f x) = f x).

(** The number of sets: the nodes that are their own representative. *)
Definition fixcount (n : nat) (f : nat -> nat) : nat :=
  List.length (filter (fun x => f x =? x) (seq 0 n)).

(** [g] gives both endpoints of every edge of [es] the same label. *)
Definition collapses (g : nat -> nat) (es : list edge) : Prop :=
  forall u v w, In (u, v, w) es -> g u = g v.

(** The partition of [f] is finer than the partition of [g]. *)
Definition refines (f g : nat -> nat) : Prop :=
  forall x y, f x = f y -> g x = g y.

(** ** Edge weights *)

Definition by_weight (e e' : edge) : Prop := (weight e <= weight e')%R.

Definition le_weight (t : R) (e : edge) : bool :=
  if Rle_dec (weight e) t then true else false.

(** How many edges of [E] weigh at most [t]. *)
Definition count_le (t : R) (E : list edge) : nat :=
  List.length (filter (le_weight t) E).

Definition one_if_le (t : R) (e : edge) : nat :=
  if Rle_dec (weight e) t then 1 else 0.

(** ** The refiner and the result *)

(** What the two branches of the loop body draw. *)
Definition straight_elements (row_u row_v : located_point R)
  : list map_element :=
  [PolyLine (lat row_u, lon row_u) (lat row_v, lon row_v) "gray";
   Marker (midpoint_of row_u row_v) "gray"
          (haversine (lat row_u) (lon row_u) (lat row_v) (lon row_v) / 1000)%R].

Definition routed_elements (row_u row_v : located_point R) (dist_m : R)
  : list map_element :=
  [PolyLine (lat row_u, lon row_u) (lat row_v, lon row_v) "blue";
   Marker (midpoint_of row_u row_v) "white" (dist_m / 1000)%R;
   Marker (midpoint_of row_u row_v) "white" (dist_m / 1000)%R].

(** The routing query of an edge failed: it raised, found no path, or
    found a path of fewer than two nodes. *)
Definition routing_failed (P : provider) (G_drive : network P)
  (node_u node_v : nat) : Prop :=
  raises (shortest_path P G_drive node_u node_v) \/
  shortest_path P G_drive node_u node_v = Ok None \/
  exists r, shortest_path P G_drive node_u node_v = Ok (Some r) /\
            List.length r <= 1.

(** The routing query of an edge found [route], of at least two nodes. *)
Definition routing_found (P : provider) (G_drive : network P)
  (node_u node_v : nat) (route : list nat) : Prop :=
  shortest_path P G_drive node_u node_v = Ok (Some route) /\
  2 <= List.length route.

Definition edge_out_of (e : edge) : edge_out :=
  mkEdgeOut (edge_u e) (edge_v e) (weight e).

(** The dict of a complete run. *)
Definition full_result (coords_df : list (located_point R)) (mst : Graph)
  (html_path mode : string) (b : bbox) : dict :=
  [("nodes_count", VInt (List.length (assemble_points coords_df)));
   ("edges_count", VInt (List.length (map edge_out_of (edges mst))));
   ("total_distance", VFloat (sum_lengths (map weight (edges mst))));
   ("points", VPoints (assemble_points coords_df));
   ("edges", VEdges (map edge_out_of (edges mst)));
   ("map_path", VStr html_path);
   ("mode", VStr mode);
   ("bbox", VBbox b);
   ("status", VStr "ok")].

Definition no_data_result : dict :=
  [("status", VStr "no_data");
   ("message", VStr "Нет логистических объектов в области.")].

(** What the Assembler makes of one cell that is kept. *)
Definition clean_cell (v : cell) : option string :=
  match v with
  | Null => None
  | Scalar s => Some s
  | GeomCell => Some "geometry"
  end.

Definition not_geometry_key (kv : string * cell) : bool :=
  negb (fst kv =? "geometry")%string.

(** A graph as the Builder writes them: distinct nodes, every edge written
    with its smaller node first and between nodes of the graph, at most one
    edge per pair. *)
Definition simple_graph (G : Graph) : Prop :=
  NoDup (nodes G) /\
  (forall e, In e (edges G) ->
     edge_u e < edge_v e /\ In (edge_u e) (nodes G) /\ In (edge_v e) (nodes G)) /\
  NoDup (map edge_pair (edges G)).

(** An edge has an endpoint that is no row of a frame of [n] rows. *)
Definition out_of_frame (n : nat) (e : edge) : Prop :=
  n <= edge_u e \/ n <= edge_v e.

(** ** Sample inputs *)

(** Two point facilities one degree of latitude apart on the meridian 0. *)
Definition facility_a : facility R :=
  mkFacility (Point 0%R 0%R) [("name", Scalar "A")].

Definition facility_b : facility R :=
  mkFacility (Point 0%R 1%R) [("name", Scalar "B"); ("building", Null)].

Definition sample_bbox : bbox := (0%R, 0%R, 1%R, 1%R).

(** A file system in which every path can be created and written except
    the empty one, as [os.makedirs] and [open] have it. *)
Definition fs_create (path : string) : result unit :=
  match path with
  | EmptyString =>
      Raise (FileNotFoundError "[Errno 2] No such file or directory: ''")
  | String _ _ => Ok tt
  end.

(** A provider on a one-value network type, assembled from its answers,
    on the file system [fs_create] and with no square root out of its
    domain. *)
Definition sample_provider
  (features : result (list (facility R)))
  (graph : result unit)
  (snap : list R -> result (list nat))
  (path : nat -> nat -> result (option (list nat)))
  (lengths : list nat -> result (list R)) : provider :=
  mkProvider unit
    (fun _ _ => features)
    (fun _ _ => graph)
    (fun _ X _ => snap X)
    (fun _ u v => path u v)
    (fun _ route => lengths route)
    fs_create
    (fun _ path => fs_create path)
    (fun _ path => fs_create path)
    (fun _ _ _ _ => false)
    (fun _ => false).

(** The same provider with another rounding behaviour, with another
    [m.save], and with other NaN coordinates. *)
Definition with_sqrt_domain_error (P : provider)
  (f : R -> R -> R -> R -> bool) : provider :=
  mkProvider (network P) (features_from_bbox P) (graph_from_bbox P)
             (nearest_nodes P) (shortest_path P) (route_to_gdf P)
             (makedirs P) (to_file P) (save P) f (isna P).

Definition with_save (P : provider)
  (f : folium_map -> string -> result unit) : provider :=
  mkProvider (network P) (features_from_bbox P) (graph_from_bbox P)
             (nearest_nodes P) (shortest_path P) (route_to_gdf P)
             (makedirs P) (to_file P) f (sqrt_domain_error P) (isna P).

Definition with_isna (P : provider) (f : R -> bool) : provider :=
  mkProvider (network P) (features_from_bbox P) (graph_from_bbox P)
             (nearest_nodes P) (shortest_path P) (route_to_gdf P)
             (makedirs P) (to_file P) (save P) (sqrt_domain_error P) f.

Definition Reqb (x y : R) : bool :=
  if Req_dec_T x y then true else false.

(** Binary64 at the pair (8, 0), (-8, 180): the computed [a] is
    1.0000000000000002 and [math.sqrt (1 - a)] raises. *)
Definition antipodal_rounding (lat1 lon1 lat2 lon2 : R) : bool :=
  Reqb lat1 8 && Reqb lon1 0 && Reqb lat2 (-8) && Reqb lon2 180.

Definition facility_8_0 : facility R :=
  mkFacility (Point 0%R 8%R) [("name", Scalar "P")].

Definition facility_m8_180 : facility R :=
  mkFacility (Point 180%R (-8)%R) [("name", Scalar "Q")].

Definition antipodal_coords : list (located_point R) :=
  [mkPoint 8%R 0%R (to_dict facility_8_0);
   mkPoint (-8)%R 180%R (to_dict facility_m8_180)].

Definition snap_all (X : list R) : result (list nat) :=
  Ok (seq 10 (List.length X)).

(** Every query answered: each pair of snapped nodes is joined by a route
    of two segments, 5 m and 7 m long. *)
Definition routed_provider : provider :=
  sample_provider (Ok [facility_a; facility_b]) (Ok tt) snap_all
                  (fun u v => Ok (Some [u; v]))
                  (fun _ => Ok [5%R; 7%R]).

(** The feature query finds nothing. *)
Definition empty_provider : provider :=
  sample_provider (Ok []) (Ok tt) snap_all
                  (fun u v => Ok (Some [u; v]))
                  (fun _ => Ok [5%R; 7%R]).

(** The road network cannot be downloaded. *)
Definition outage_provider : provider :=
  sample_provider (Ok [facility_a; facility_b])
                  (Raise (ProviderError "network download failed"))
                  snap_all
                  (fun u v => Ok (Some [u; v]))
                  (fun _ => Ok [5%R; 7%R]).

(** The nearest-node query fails. *)
Definition snap_fail_provider : provider :=
  sample_provider (Ok [facility_a; facility_b]) (Ok tt)
                  (fun _ => Raise (ProviderError "nearest_nodes failed"))
                  (fun u v => Ok (Some [u; v]))
                  (fun _ => Ok [5%R; 7%R]).

(** The two nearly antipodal facilities are loaded, on binary64. *)
Definition rounding_provider : provider :=
  with_sqrt_domain_error
    (sample_provider (Ok [facility_8_0; facility_m8_180]) (Ok tt) snap_all
                     (fun u v => Ok (Some [u; v]))
                     (fun _ => Ok [5%R; 7%R]))
    antipodal_rounding.

Definition sample_coords : list (located_point R) :=
  [mkPoint 0%R 0%R (to_dict facility_a); mkPoint 1%R 0%R (to_dict facility_b)].

Definition sample_mst : Graph :=
  mkGraph [0; 1] [(0, 1, haversine 0 0 1 0)].

Definition sample_result : dict :=
  full_result sample_coords sample_mst "cache/logistics_auto_mst.html" "auto"
              sample_bbox.

(** Three points on the meridian 0 with a tree over them, and a provider
    whose routing query raises from node 10 and finds a route from any other
    node. *)
Definition sample_coords3 : list (located_point R) :=
  sample_coords ++ [mkPoint 2%R 0%R []].

Definition sample_tree3 : Graph :=
  mkGraph [0; 1; 2] [(0, 1, haversine 0 0 1 0); (1, 2, haversine 1 0 2 0)].

Definition mixed_provider : provider :=
  sample_provider (Ok [facility_a; facility_b]) (Ok tt) snap_all
                  (fun u v => if u =? 10
                              then Raise (ProviderError "routing failed")
                              else Ok (Some [u; v]))
                  (fun _ => Ok [5%R; 7%R]).

(** The same, on a frame in which the latitude 2 stands for a NaN. *)
Definition nan_provider : provider :=
  with_isna mixed_provider (fun x => Reqb x 2).

(** Routes are found, but their segment lengths cannot be read. *)
Definition no_lengths_provider : provider :=
  sample_provider (Ok [facility_a; facility_b]) (Ok tt) snap_all
                  (fun u v => Ok (Some [u; v]))
                  (fun _ => Raise (KeyError "length")).

(** A tree with an edge to a node 5 that is no row of [sample_coords]. *)
Definition stray_tree : Graph :=
  mkGraph [0; 1; 5] [(0, 1, 7%R); (1, 5, 9%R)].

(** The triangle with weights 100, 200 and 150. *)
Definition triangle : Graph :=
  mkGraph [0; 1; 2] [(0, 1, 100%R); (1, 2, 200%R); (0, 2, 150%R)].

(** A record whose geometry is a line, and a provider that loads it. *)
Definition line_facility : facility R :=
  mkFacility (LineString 0%R 0%R) [("name", Scalar "L")].

Definition line_provider : provider :=
  sample_provider (Ok [facility_a; line_facility]) (Ok tt) snap_all
                  (fun u v => Ok (Some [u; v]))
                  (fun _ => Ok [5%R; 7%R]).

(** On binary64 floats: a facility whose latitude is NaN, and one whose
    coordinates are finite but outside the latitude and longitude ranges. *)
Definition nan_facility : facility float :=
  mkFacility (Point 30.5%float nan) [("name", Scalar "A")].

Definition far_facility : facility float :=
  mkFacility (Point 200%float 100%float) [("name", Scalar "B")].

(* ================================================================== *)
(** * Properties *)

(** ** Mode names *)

Lemma lower_ascii_idem (c : ascii) : lower_ascii (lower_ascii c) = lower_ascii c.
Proof.
  destruct c as [[] [] [] [] [] [] [] []]; reflexivity.
Qed.

Lemma lower_idem (s : string) : lower (lower s) = lower s.
Proof.
  induction s as [|c s IH]; simpl; [reflexivity|].
  now rewrite lower_ascii_idem, IH.
Qed.

Lemma get_default_tags_cases (mode : string) :
  (known_mode (lower mode) /\ returns (get_default_tags mode)) \/
  (~ known_mode (lower mode) /\
   get_default_tags mode
   = Raise (ValueError ("Неизвестный мод: " ++ lower mode)%string)).
Proof.
  unfold get_default_tags, known_mode, returns.
  destruct (String.eqb_spec (lower mode) "auto") as [E1|N1];
    [left; split; [tauto | eexists; reflexivity]|].
  destruct (String.eqb_spec (lower mode) "aero") as [E2|N2];
    [left; split; [tauto | eexists; reflexivity]|].
  destruct (String.eqb_spec (lower mode) "sea") as [E3|N3];
    [left; split; [tauto | eexists; reflexivity]|].
  destruct (String.eqb_spec (lower mode) "rail") as [E4|N4];
    [left; split; [tauto | eexists; reflexivity]|].
  right; split; [tauto | reflexivity].
Qed.

(** C9: [get_default_tags] depends on its argument only through the
    lowercased mode (so "AUTO" and "auto" give the same tag set), returns
    one fixed mapping for each of auto, aero, sea and rail, and raises
    ValueError exactly when the lowercased mode is none of the four. *)
Theorem get_default_tags_modes :
  (forall mode, get_default_tags mode = get_default_tags (lower mode)) /\
  get_default_tags "AUTO" = get_default_tags "auto" /\
  (forall mode, lower mode = "auto" ->
     get_default_tags mode
     = Ok [("building", TagList ["warehouse"; "depot"; "industrial"])]) /\
  (forall mode, lower mode = "aero" ->
     get_default_tags mode
     = Ok [("aeroway", TagList ["terminal"; "hangar"; "cargo"])]) /\
  (forall mode, lower mode = "sea" ->
     get_default_tags mode
     = Ok [("harbour", TagTrue); ("man_made", TagList ["pier"; "dock"])]) /\
  (forall mode, lower mode = "rail" ->
     get_default_tags mode
     = Ok [("railway", TagList ["station"; "yard"; "cargo_terminal"])]) /\
  (forall mode, raises (get_default_tags mode) <-> ~ known_mode (lower mode)) /\
  (forall mode e, get_default_tags mode = Raise e -> exists msg, e = ValueError msg).
Proof.
  repeat split.
  - intro mode. unfold get_default_tags. now rewrite lower_idem.
  - intros mode H. unfold get_default_tags. now rewrite H.
  - intros mode H. unfold get_default_tags. now rewrite H.
  - intros mode H. unfold get_default_tags. now rewrite H.
  - intros mode H. unfold get_default_tags. now rewrite H.
  - intros [e He] K.
    destruct (get_default_tags_cases mode) as [[_ [a Ha]]|[N _]];
      [congruence | exact (N K)].
  - intro N.
    destruct (get_default_tags_cases mode) as [[K _]|[_ E]];
      [contradiction | eexists; exact E].
  - intros mode e He.
    destruct (get_default_tags_cases mode) as [[_ [a Ha]]|[_ E]];
      [congruence|].
    rewrite E in He. injection He as <-. eexists; reflexivity.
Qed.

(* ================================================================== *)
(** ** The haversine distance *)

Section Haversine.

Local Open Scope R_scope.

Lemma radians_0 : radians 0 = 0.
Proof. unfold radians. lra. Qed.

Lemma radians_minus (x y : R) : radians (x - y) = radians x - radians y.
Proof. unfold radians. lra. Qed.

Lemma sin_half_sq (x : R) : sin (x / 2) ^ 2 = (1 - cos x) / 2.
Proof.
  replace x with (2 * (x / 2)) at 2 by lra.
  rewrite cos_2a_sin. lra.
Qed.

Lemma cos_cos (x y : R) : cos x * cos y = (cos (y - x) + cos (x + y)) / 2.
Proof.
  rewrite cos_minus, cos_plus. lra.
Qed.

(** The radicands of [haversine] are never negative. *)
Lemma haversine_a_range (lat1 lon1 lat2 lon2 : R) :
  0 <= haversine_a lat1 lon1 lat2 lon2 <= 1.
Proof.
  unfold haversine_a.
  rewrite cos_cos, !sin_half_sq, <- radians_minus.
  pose proof (COS_bound (radians (lat2 - lat1))) as Hc.
  pose proof (COS_bound (radians lat1 + radians lat2)) as Hs.
  pose proof (COS_bound (radians (lon2 - lon1))) as Hl.
  set (c := cos (radians (lat2 - lat1))) in *.
  set (s := cos (radians lat1 + radians lat2)) in *.
  set (l := cos (radians (lon2 - lon1))) in *.
  split; nra.
Qed.

Lemma atan_nonneg (x : R) : 0 <= x -> 0 <= atan x.
Proof.
  intros [Hx | <-].
  - left. rewrite <- atan_0. now apply atan_increasing.
  - rewrite atan_0. lra.
Qed.

Lemma atan2_nonneg (y x : R) : 0 <= y -> 0 <= x -> 0 <= atan2 y x.
Proof.
  intros Hy Hx. unfold atan2.
  pose proof PI_RGT_0 as Hpi.
  destruct (Rlt_dec 0 x) as [Px|Nx].
  - apply atan_nonneg. apply Rmult_le_pos; [exact Hy|].
    left. now apply Rinv_0_lt_compat.
  - destruct (Rlt_dec x 0) as [Lx|_]; [lra|].
    destruct (Rlt_dec 0 y) as [Py|_]; [lra|].
    destruct (Rlt_dec y 0) as [Ly|_]; lra.
Qed.

Lemma haversine_nonneg (lat1 lon1 lat2 lon2 : R) :
  0 <= haversine lat1 lon1 lat2 lon2.
Proof.
  unfold haversine.
  apply Rmult_le_pos; [lra|].
  apply atan2_nonneg; apply sqrt_pos.
Qed.

Lemma atan2_sin_cos (x : R) :
  - (PI / 2) < x < PI / 2 -> atan2 (sin x) (cos x) = x.
Proof.
  intros Hx. unfold atan2.
  assert (Hc : 0 < cos x) by (apply cos_gt_0; lra).
  destruct (Rlt_dec 0 (cos x)) as [_|N]; [|contradiction].
  now apply atan_tan.
Qed.

Lemma haversine_same (lat0 lon0 : R) : haversine lat0 lon0 lat0 lon0 = 0.
Proof.
  unfold haversine, haversine_a.
  replace (lat0 - lat0) with 0 by lra.
  replace (lon0 - lon0) with 0 by lra.
  rewrite radians_0.
  replace (0 / 2) with 0 by lra.
  rewrite sin_0.
  replace (0 ^ 2 + cos (radians lat0) * cos (radians lat0) * 0 ^ 2)
    with 0 by lra.
  replace (1 - 0) with 1 by lra.
  rewrite sqrt_0, sqrt_1.
  unfold atan2.
  destruct (Rlt_dec 0 1) as [_|N]; [|lra].
  replace (0 / 1) with 0 by lra.
  rewrite atan_0. lra.
Qed.

(** One degree of latitude along a meridian is [R * PI / 180] metres. *)
Lemma haversine_one_degree : haversine 0 0 1 0 = 6371000 * PI / 180.
Proof.
  pose proof PI_RGT_0 as Hpi.
  unfold haversine, haversine_a.
  replace (0 - 0) with 0 by lra.
  replace (1 - 0) with 1 by lra.
  rewrite radians_0.
  replace (0 / 2) with 0 by lra.
  rewrite sin_0, cos_0.
  set (x := radians 1 / 2).
  assert (Hx : 0 < x < PI / 2) by (unfold x, radians; lra).
  assert (Hs : 0 <= sin x) by (apply sin_ge_0; lra).
  assert (Hc : 0 <= cos x) by (apply cos_ge_0; lra).
  replace (sin x ^ 2 + 1 * cos (radians 1) * 0 ^ 2) with (sin x ^ 2) by lra.
  replace (1 - sin x ^ 2) with (cos x ^ 2).
  2:{ pose proof (sin2_cos2 x) as E. unfold Rsqr in E. lra. }
  rewrite !sqrt_pow2 by assumption.
  rewrite atan2_sin_cos by lra.
  unfold x, radians. lra.
Qed.

(** Machin-like series bounds: 3.13 < PI < 3.15. *)
Lemma PI_bounds : 313 / 100 < PI < 315 / 100.
Proof.
  pose proof (PI_2_3_7_ineq 0) as [Hlo _].
  pose proof (PI_2_3_7_ineq 1) as [_ Hhi].
  unfold sum_f_R0, tg_alt, PI_2_3_7_tg, Ratan_seq in Hlo, Hhi.
  simpl in Hlo, Hhi.
  split; lra.
Qed.

End Haversine.

(** C8: the distance between identical coordinates is exactly 0, and the
    distance between (0,0) and (1,0), one degree of latitude, lies between
    110 km and 112 km (the function returns metres), with Earth radius
    6,371,000 m.  Arithmetic is exact real arithmetic. *)
Theorem haversine_zero_and_one_degree :
  (forall lat0 lon0 : R, haversine lat0 lon0 lat0 lon0 = 0%R) /\
  (110 < haversine 0 0 1 0 / 1000 < 112)%R /\
  (haversine 0 0 1 0 = 6371000 * PI / 180)%R.
Proof.
  split; [exact haversine_same|].
  rewrite haversine_one_degree.
  pose proof PI_bounds as [Hlo Hhi].
  repeat split; lra.
Qed.

(* ================================================================== *)
(** ** The complete graph of the Builder *)

Section Iterrows.

Context {A : Type}.

Lemma in_rows_from (l : list A) (a i : nat) (r : A) :
  In (i, r) (combine (seq a (List.length l)) l)
  <-> a <= i /\ nth_error l (i - a) = Some r.
Proof.
  revert a. induction l as [|x l IH]; intro a; simpl.
  - split; [tauto|]. intros [_ H]. destruct (i - a); discriminate.
  - rewrite IH. split.
    + intros [E | [Hle Hn]].
      * injection E as <- <-. rewrite Nat.sub_diag. simpl. auto.
      * split; [lia|]. replace (i - a) with (S (i - S a)) by lia. exact Hn.
    + intros [Hle Hn]. destruct (Nat.eq_dec a i) as [<- | Hne].
      * rewrite Nat.sub_diag in Hn. simpl in Hn. injection Hn as <-. now left.
      * right. split; [lia|].
        replace (i - a) with (S (i - S a)) in Hn by lia. exact Hn.
Qed.

Lemma in_iterrows (df : list A) (i : nat) (r : A) :
  In (i, r) (iterrows df) <-> nth_error df i = Some r.
Proof.
  unfold iterrows. rewrite in_rows_from, Nat.sub_0_r.
  split; [tauto | intro H; split; [lia | exact H]].
Qed.

Lemma map_fst_rows_from (l : list A) (a : nat) :
  map fst (combine (seq a (List.length l)) l) = seq a (List.length l).
Proof.
  revert a. induction l as [|x l IH]; intro a; simpl; [reflexivity|].
  now rewrite IH.
Qed.

Lemma NoDup_iterrows_keys (df : list A) : NoDup (map fst (iterrows df)).
Proof.
  unfold iterrows. rewrite map_fst_rows_from. apply seq_NoDup.
Qed.

End Iterrows.

(** A flat_map over items with distinct keys has no repeated projection when
    every produced element remembers the key of its item. *)
Lemma NoDup_flat_map_keyed {A B K : Type}
  (g : B -> K) (ka : A -> nat) (kb : K -> nat) (f : A -> list B) (l : list A) :
  NoDup (map ka l) ->
  (forall x y, In x l -> In y (f x) -> kb (g y) = ka x) ->
  (forall x, In x l -> NoDup (map g (f x))) ->
  NoDup (map g (flat_map f l)).
Proof.
  induction l as [|a l IH]; simpl; intros Hk Hkey Hin; [constructor|].
  inversion Hk as [|? ? Hna Hk']; subst.
  rewrite map_app. apply NoDup_app.
  - apply Hin. now left.
  - apply IH; auto.
  - intros k H1 H2.
    apply in_map_iff in H1 as [y [<- Hy]].
    apply in_map_iff in H2 as [y' [E Hy']].
    apply in_flat_map in Hy' as [x [Hx Hy']].
    apply Hna. apply in_map_iff. exists x. split; [|exact Hx].
    rewrite <- (Hkey x y'), E by auto.
    apply Hkey; auto.
Qed.

Section Builder.

Variable coords_df : list (located_point R).

Let n := List.length coords_df.

Lemma geodesic_edges_inner :
  geodesic_edges coords_df
  = flat_map (fun ir => inner_edges coords_df (fst ir) (snd ir)) (iterrows coords_df).
Proof.
  unfold geodesic_edges, inner_edges, row_distance.
  apply flat_map_ext. intros [i row_i]. reflexivity.
Qed.

Lemma in_inner_edges (i : nat) (row_i : located_point R) (e : edge) :
  In e (inner_edges coords_df i row_i)
  <-> exists j row_j, nth_error coords_df j = Some row_j /\ i < j /\
                      e = (i, j, row_distance row_i row_j).
Proof.
  unfold inner_edges. rewrite in_flat_map. split.
  - intros [[j row_j] [Hin He]]. apply in_iterrows in Hin.
    destruct (Nat.ltb_spec i j) as [Hlt|Hge]; [|contradiction].
    destruct He as [<- | []]. now exists j, row_j.
  - intros [j [row_j [Hn [Hlt ->]]]]. exists (j, row_j).
    split; [now apply in_iterrows|].
    apply Nat.ltb_lt in Hlt. rewrite Hlt. now left.
Qed.

(** Membership in the edge list: exactly the pairs [i < j] of rows, with
    their haversine distance. *)
Lemma in_geodesic_edges (e : edge) :
  In e (geodesic_edges coords_df)
  <-> exists i j row_i row_j,
      nth_error coords_df i = Some row_i /\
      nth_error coords_df j = Some row_j /\
      i < j /\ e = (i, j, row_distance row_i row_j).
Proof.
  rewrite geodesic_edges_inner, in_flat_map. split.
  - intros [[i row_i] [Hin He]]. apply in_iterrows in Hin.
    apply in_inner_edges in He as [j [row_j [Hj [Hlt ->]]]].
    now exists i, j, row_i, row_j.
  - intros [i [j [row_i [row_j [Hi [Hj [Hlt ->]]]]]]].
    exists (i, row_i). split; [now apply in_iterrows|].
    apply in_inner_edges. now exists j, row_j.
Qed.

Lemma inner_edges_length_from (i : nat) (row_i : located_point R)
  (l : list (located_point R)) (a : nat) :
  List.length
    (flat_map
       (fun jr : nat * located_point R =>
          let (j, row_j) := jr in
          if i <? j then [(i, j, row_distance row_i row_j)] else [])
       (combine (seq a (List.length l)) l))
  = a + List.length l - Nat.max a (S i).
Proof.
  revert a. induction l as [|x l IH]; intro a; simpl; [lia|].
  rewrite length_app, IH.
  destruct (Nat.ltb_spec i a); simpl; lia.
Qed.

Lemma inner_edges_length (i : nat) (row_i : located_point R) :
  List.length (inner_edges coords_df i row_i) = n - S i.
Proof.
  unfold inner_edges, iterrows. rewrite inner_edges_length_from.
  unfold n. lia.
Qed.

Lemma triangular_length {B : Type} (f : nat * located_point R -> list B)
  (l : list (located_point R)) (a : nat) :
  (forall ir, In ir (combine (seq a (List.length l)) l) ->
              List.length (f ir) = a + List.length l - S (fst ir)) ->
  2 * List.length (flat_map f (combine (seq a (List.length l)) l))
  = List.length l * (List.length l - 1).
Proof.
  revert a. induction l as [|x l IH]; intros a Hf; [reflexivity|].
  simpl combine. simpl flat_map. rewrite length_app.
  rewrite (Hf (a, x)) by now left.
  assert (IH' := IH (S a)).
  rewrite Nat.mul_add_distr_l, IH'.
  - simpl. nia.
  - intros ir Hin. rewrite Hf by now right. simpl. lia.
Qed.

Lemma geodesic_edges_length :
  2 * List.length (geodesic_edges coords_df) = n * (n - 1).
Proof.
  rewrite geodesic_edges_inner. unfold iterrows.
  apply triangular_length. intros [i row_i] _.
  simpl. rewrite inner_edges_length. reflexivity.
Qed.

Lemma NoDup_inner_pairs (i : nat) (row_i : located_point R) :
  NoDup (map edge_pair (inner_edges coords_df i row_i)).
Proof.
  unfold inner_edges.
  apply (NoDup_flat_map_keyed edge_pair fst snd).
  - apply NoDup_iterrows_keys.
  - intros [j row_j] y _ Hy. destruct (i <? j); [|contradiction].
    destruct Hy as [<- | []]. reflexivity.
  - intros [j row_j] _. destruct (i <? j); simpl; repeat constructor; auto.
Qed.

(** One edge per pair: no pair of endpoints occurs twice. *)
Lemma NoDup_geodesic_pairs : NoDup (map edge_pair (geodesic_edges coords_df)).
Proof.
  rewrite geodesic_edges_inner.
  apply (NoDup_flat_map_keyed edge_pair fst fst).
  - apply NoDup_iterrows_keys.
  - intros [i row_i] y _ Hy. apply in_inner_edges in Hy as [j [rj [_ [_ ->]]]].
    reflexivity.
  - intros [i row_i] _. apply NoDup_inner_pairs.
Qed.

Lemma geodesic_edges_canonical (e : edge) :
  In e (geodesic_edges coords_df) -> edge_u e < edge_v e /\ edge_v e < n.
Proof.
  intro H. apply in_geodesic_edges in H
    as [i [j [ri [rj [Hi [Hj [Hlt ->]]]]]]].
  split; [exact Hlt|]. unfold edge_v. simpl.
  apply nth_error_Some. unfold n. rewrite Hj. discriminate.
Qed.

End Builder.

(* ================================================================== *)
(** ** Building an [nx.Graph] from node and edge lists *)

Lemma has_node_In (ns : list nat) (x : nat) : has_node ns x = true <-> In x ns.
Proof.
  unfold has_node. rewrite existsb_exists. split.
  - intros [y [Hy E]]. apply Nat.eqb_eq in E. now subst.
  - intro H. exists x. split; [exact H | apply Nat.eqb_refl].
Qed.

Lemma same_pair_true (u v u' v' : nat) :
  same_pair u v u' v' = true <-> (u = u' /\ v = v') \/ (u = v' /\ v = u').
Proof.
  unfold same_pair.
  rewrite orb_true_iff, !andb_true_iff, !Nat.eqb_eq. tauto.
Qed.

Lemma add_node_present (G : Graph) (x : nat) :
  In x (nodes G) -> add_node G x = G.
Proof.
  intro H. unfold add_node. apply has_node_In in H. now rewrite H.
Qed.

Lemma add_nodes_from_fresh (ns : list nat) (G : Graph) :
  NoDup ns -> (forall x, In x ns -> ~ In x (nodes G)) ->
  add_nodes_from G ns = mkGraph (nodes G ++ ns) (edges G).
Proof.
  revert G. induction ns as [|x ns IH]; intros G Hnd Hfresh.
  - simpl. rewrite app_nil_r. now destruct G.
  - inversion Hnd as [|? ? Hx Hnd']; subst.
    change (add_nodes_from (add_node G x) ns
            = mkGraph (nodes G ++ x :: ns) (edges G)).
    unfold add_node.
    destruct (has_node (nodes G) x) eqn:E.
    + apply has_node_In in E. exfalso. apply (Hfresh x); [now left | exact E].
    + rewrite IH; simpl; [now rewrite <- app_assoc | exact Hnd' |].
      intros y Hy Hin. apply in_app_iff in Hin as [Hin | [<- | []]].
      * apply (Hfresh y); [now right | exact Hin].
      * contradiction.
Qed.

Lemma has_edge_false (es : list edge) (u v : nat) :
  u < v ->
  (forall e, In e es -> edge_u e < edge_v e) ->
  ~ In (u, v) (map edge_pair es) ->
  has_edge es u v = false.
Proof.
  intros Huv Hcan Hnin. unfold has_edge.
  destruct (existsb _ es) eqn:E; [|reflexivity].
  apply existsb_exists in E as [e [He Hs]].
  apply same_pair_true in Hs. specialize (Hcan e He).
  exfalso. destruct Hs as [[-> ->] | [-> ->]]; [|lia].
  apply Hnin. apply in_map_iff. exists e. split; [reflexivity | exact He].
Qed.

(** Adding edges on distinct pairs, between nodes the graph already has,
    appends them. *)
Lemma add_edges_from_simple (es : list edge) (G : Graph) :
  (forall e, In e es -> In (edge_u e) (nodes G) /\ In (edge_v e) (nodes G)) ->
  (forall e, In e (edges G ++ es) -> edge_u e < edge_v e) ->
  NoDup (map edge_pair (edges G ++ es)) ->
  add_edges_from G es = mkGraph (nodes G) (edges G ++ es).
Proof.
  revert G. induction es as [|e es IH]; intros G Hnodes Hcan Hnd.
  - simpl. rewrite app_nil_r. now destruct G.
  - destruct e as [[u v] w].
    destruct (Hnodes (u, v, w)) as [Hu Hv]; [now left|].
    unfold edge_u, edge_v in Hu, Hv; simpl in Hu, Hv.
    change (add_edges_from (add_edge G (u, v, w)) es
            = mkGraph (nodes G) (edges G ++ (u, v, w) :: es)).
    unfold add_edge.
    rewrite (add_node_present G u Hu), (add_node_present G v Hv).
    rewrite has_edge_false.
    + rewrite IH; simpl.
      * now rewrite <- app_assoc.
      * intros e He. apply Hnodes. now right.
      * intros e He. apply Hcan. now rewrite <- app_assoc in He.
      * now rewrite <- app_assoc.
    + apply (Hcan (u, v, w)). apply in_app_iff. right. now left.
    + intros e He. apply Hcan. apply in_app_iff. now left.
    + rewrite map_app in Hnd. simpl in Hnd.
      apply NoDup_remove_2 in Hnd. intro H. apply Hnd.
      apply in_app_iff. now left.
Qed.

Lemma geodesic_graph_eq (coords_df : list (located_point R)) :
  geodesic_graph coords_df
  = mkGraph (seq 0 (List.length coords_df)) (geodesic_edges coords_df).
Proof.
  unfold geodesic_graph, index.
  rewrite add_nodes_from_fresh; simpl.
  - rewrite add_edges_from_simple; simpl; [reflexivity | | |].
    + intros e He. pose proof (geodesic_edges_canonical _ _ He) as [H1 H2].
      split; apply in_seq; lia.
    + intros e He. now apply geodesic_edges_canonical in He.
    + apply NoDup_geodesic_pairs.
  - apply seq_NoDup.
  - intros x _ [].
Qed.

Lemma geodesic_edges_nil (coords_df : list (located_point R)) :
  List.length coords_df <= 1 -> geodesic_edges coords_df = [].
Proof.
  intro Hn. pose proof (geodesic_edges_length coords_df) as Hlen.
  destruct (geodesic_edges coords_df) as [|e l]; [reflexivity|].
  simpl in Hlen. nia.
Qed.

(** ** The Builder and the domain of the square root *)

Lemma haversine_call_ok (P : provider) (lat1 lon1 lat2 lon2 d : R) :
  haversine_call P lat1 lon1 lat2 lon2 = Ok d ->
  sqrt_domain_error P lat1 lon1 lat2 lon2 = false /\
  d = haversine lat1 lon1 lat2 lon2.
Proof.
  unfold haversine_call.
  destruct (sqrt_domain_error P lat1 lon1 lat2 lon2); [discriminate|].
  intro H. injection H as <-. auto.
Qed.

Lemma haversine_call_raise (P : provider) (lat1 lon1 lat2 lon2 : R) (e : exn) :
  haversine_call P lat1 lon1 lat2 lon2 = Raise e ->
  sqrt_domain_error P lat1 lon1 lat2 lon2 = true /\
  e = ValueError "math domain error".
Proof.
  unfold haversine_call.
  destruct (sqrt_domain_error P lat1 lon1 lat2 lon2); [|discriminate].
  intro H. injection H as <-. auto.
Qed.

Lemma haversine_call_defined (P : provider) (lat1 lon1 lat2 lon2 : R) :
  sqrt_domain_error P lat1 lon1 lat2 lon2 = false ->
  haversine_call P lat1 lon1 lat2 lon2 = Ok (haversine lat1 lon1 lat2 lon2).
Proof. unfold haversine_call. now intros ->. Qed.

Section Collect.

Context {A B : Type}.

Variable body : A -> result (list B).

Lemma collect_ext (g : A -> list B) (l : list A) :
  (forall x, In x l -> body x = Ok (g x)) ->
  collect body l = Ok (flat_map g l).
Proof.
  induction l as [|x l IH]; intro H; simpl; [reflexivity|].
  rewrite (H x) by now left. cbn [bind].
  rewrite IH by (intros y Hy; apply H; now right). reflexivity.
Qed.

Lemma collect_returns (l : list A) (ys : list B) :
  collect body l = Ok ys -> forall x, In x l -> returns (body x).
Proof.
  revert ys. induction l as [|x l IH]; intros ys H y Hy; [destruct Hy|].
  simpl in H. destruct (body x) as [b|e] eqn:Ex; [|discriminate].
  cbn [bind] in H. destruct (collect body l) as [zs|e]; [|discriminate].
  destruct Hy as [<- | Hy]; [now exists b | now apply (IH zs)].
Qed.

Lemma collect_raise (l : list A) (e : exn) :
  collect body l = Raise e -> exists x, In x l /\ body x = Raise e.
Proof.
  induction l as [|x l IH]; intro H; [discriminate|].
  simpl in H. destruct (body x) as [b|e'] eqn:Ex.
  - cbn [bind] in H. destruct (collect body l) as [zs|e'']; [discriminate|].
    injection H as ->. destruct IH as [y [Hy Ey]]; [reflexivity|].
    exists y. split; [now right | exact Ey].
  - injection H as ->. exists x. split; [now left | exact Ex].
Qed.

End Collect.

Section BuilderCalls.

Variable P : provider.
Variable coords_df : list (located_point R).

Lemma edges_loop_defined :
  distances_defined P coords_df ->
  edges_loop P coords_df = Ok (geodesic_edges coords_df).
Proof.
  intro Hd. unfold edges_loop, geodesic_edges.
  apply collect_ext. intros [i row_i] Hi. apply in_iterrows in Hi.
  apply collect_ext. intros [j row_j] Hj. apply in_iterrows in Hj.
  destruct (Nat.ltb_spec i j) as [Hlt|_]; [|reflexivity].
  rewrite haversine_call_defined by exact (Hd i j row_i row_j Hi Hj Hlt).
  reflexivity.
Qed.

Lemma edges_loop_returns (es : list edge) :
  edges_loop P coords_df = Ok es -> distances_defined P coords_df.
Proof.
  intros H i j row_i row_j Hi Hj Hlt.
  apply in_iterrows in Hi. apply in_iterrows in Hj.
  destruct (collect_returns _ _ _ H (i, row_i) Hi) as [ys Hys].
  cbv beta iota in Hys.
  destruct (collect_returns _ _ _ Hys (j, row_j) Hj) as [zs Hzs].
  cbv beta iota in Hzs.
  apply Nat.ltb_lt in Hlt. rewrite Hlt in Hzs.
  destruct (haversine_call P (lat row_i) (lon row_i) (lat row_j) (lon row_j))
    as [d|e] eqn:Ec; [|discriminate].
  now apply haversine_call_ok in Ec.
Qed.

Lemma edges_loop_raise (e : exn) :
  edges_loop P coords_df = Raise e ->
  e = ValueError "math domain error" /\
  exists i j row_i row_j,
    nth_error coords_df i = Some row_i /\
    nth_error coords_df j = Some row_j /\ i < j /\
    sqrt_domain_error P (lat row_i) (lon row_i) (lat row_j) (lon row_j) = true.
Proof.
  intro H. apply collect_raise in H as [[i row_i] [Hi H]].
  apply collect_raise in H as [[j row_j] [Hj H]].
  apply in_iterrows in Hi. apply in_iterrows in Hj.
  destruct (Nat.ltb_spec i j) as [Hlt|_]; [|discriminate].
  destruct (haversine_call P (lat row_i) (lon row_i) (lat row_j) (lon row_j))
    as [d|e'] eqn:Ec; [discriminate|].
  injection H as ->. apply haversine_call_raise in Ec as [Ec ->].
  split; [reflexivity|]. now exists i, j, row_i, row_j.
Qed.

(** The Builder returns exactly when every distance is defined, and then
    it returns [geodesic_graph]. *)
Lemma build_geodesic_graph_ok (G : Graph) :
  build_geodesic_graph P coords_df = Ok G
  <-> distances_defined P coords_df /\ G = geodesic_graph coords_df.
Proof.
  unfold build_geodesic_graph. split.
  - intro H. destruct (edges_loop P coords_df) as [es|e] eqn:El; [|discriminate].
    pose proof (edges_loop_returns _ El) as Hd.
    rewrite (edges_loop_defined Hd) in El. injection El as <-.
    cbn [bind] in H. injection H as <-. split; [exact Hd | reflexivity].
  - intros [Hd ->]. rewrite (edges_loop_defined Hd). reflexivity.
Qed.

Lemma build_geodesic_graph_raise (e : exn) :
  build_geodesic_graph P coords_df = Raise e ->
  e = ValueError "math domain error" /\
  exists i j row_i row_j,
    nth_error coords_df i = Some row_i /\
    nth_error coords_df j = Some row_j /\ i < j /\
    sqrt_domain_error P (lat row_i) (lon row_i) (lat row_j) (lon row_j) = true.
Proof.
  unfold build_geodesic_graph. intro H.
  destruct (edges_loop P coords_df) as [es|e'] eqn:El; [discriminate|].
  injection H as ->. now apply edges_loop_raise.
Qed.

Lemma build_geodesic_graph_undefined (i j : nat) (row_i row_j : located_point R) :
  nth_error coords_df i = Some row_i ->
  nth_error coords_df j = Some row_j -> i < j ->
  sqrt_domain_error P (lat row_i) (lon row_i) (lat row_j) (lon row_j) = true ->
  build_geodesic_graph P coords_df = Raise (ValueError "math domain error").
Proof.
  intros Hi Hj Hlt Hs.
  destruct (build_geodesic_graph P coords_df) as [G|e] eqn:Eb.
  - apply build_geodesic_graph_ok in Eb as [Hd _].
    rewrite (Hd i j row_i row_j Hi Hj Hlt) in Hs. discriminate.
  - apply build_geodesic_graph_raise in Eb as [-> _]. reflexivity.
Qed.

End BuilderCalls.

Lemma Reqb_refl (x : R) : Reqb x x = true.
Proof. unfold Reqb. destruct (Req_dec_T x x); [reflexivity | contradiction]. Qed.

Lemma sample_distances_defined
  (features : result (list (facility R))) (graph : result unit)
  (snap : list R -> result (list nat))
  (path : nat -> nat -> result (option (list nat)))
  (lengths : list nat -> result (list R))
  (coords_df : list (located_point R)) :
  distances_defined (sample_provider features graph snap path lengths) coords_df.
Proof. intros i j row_i row_j _ _ _. reflexivity. Qed.

(** C5, at the failing input: whenever one pair of rows takes the square
    root of [haversine] out of its domain the Builder raises ValueError and
    returns no graph; on binary64 the two points (8, 0) and (-8, 180) are
    such a pair. *)
Theorem build_geodesic_graph_domain_error :
  (forall P coords_df i j row_i row_j,
     nth_error coords_df i = Some row_i ->
     nth_error coords_df j = Some row_j -> i < j ->
     sqrt_domain_error P (lat row_i) (lon row_i) (lat row_j) (lon row_j) = true ->
     build_geodesic_graph P coords_df = Raise (ValueError "math domain error")) /\
  extract_coordinates [facility_8_0; facility_m8_180] = Ok antipodal_coords /\
  build_geodesic_graph rounding_provider antipodal_coords
  = Raise (ValueError "math domain error").
Proof.
  split; [|split].
  - intros P coords_df i j row_i row_j. apply build_geodesic_graph_undefined.
  - reflexivity.
  - apply (build_geodesic_graph_undefined rounding_provider antipodal_coords 0 1
             (mkPoint 8%R 0%R (to_dict facility_8_0))
             (mkPoint (-8)%R 180%R (to_dict facility_m8_180)));
      [reflexivity | reflexivity | lia |].
    cbn [sqrt_domain_error rounding_provider with_sqrt_domain_error lat lon].
    unfold antipodal_rounding. now rewrite !Reqb_refl.
Qed.

(* ================================================================== *)
(** ** Kruskal's algorithm *)

(** Counting with a predicate that loses exactly one element. *)
Lemma filter_lose_one (p q : nat -> bool) (c : nat) (l : list nat) :
  NoDup l -> In c l -> p c = true -> q c = false ->
  (forall x, In x l -> x <> c -> q x = p x) ->
  List.length (filter q l) + 1 = List.length (filter p l).
Proof.
  induction l as [|a l IH]; intros Hnd Hin Hp Hq Hext; [destruct Hin|].
  inversion Hnd as [|? ? Hna Hnd']; subst. simpl.
  destruct (Nat.eq_dec a c) as [-> | Hne].
  - rewrite Hp, Hq. simpl.
    rewrite (filter_ext_in q p l); [lia|].
    intros x Hx. apply Hext; [now right | congruence].
  - destruct Hin as [E | Hin]; [contradiction|].
    rewrite (Hext a) by (auto; now left).
    destruct (p a); simpl; rewrite <- IH; auto.
    all: intros x Hx; apply Hext; now right.
Qed.

Section UnionFind.

(** The nodes are [0 .. n-1]. *)
Variable n : nat.

Lemma wf_init : wf_labels n subtrees_init.
Proof. split; intros x Hx; unfold subtrees_init; auto. Qed.

Lemma fixcount_init : fixcount n subtrees_init = n.
Proof.
  unfold fixcount, subtrees_init.
  rewrite (filter_ext_in _ (fun _ => true)).
  - assert (H : forall l : list nat, filter (fun _ => true) l = l)
      by (induction l as [|a l IH]; simpl; congruence).
    now rewrite H, length_seq.
  - intros x _. apply Nat.eqb_refl.
Qed.

Lemma wf_union (f : nat -> nat) (u v : nat) :
  wf_labels n f -> u < n -> wf_labels n (union f u v).
Proof.
  intros [Hr Hi] Hu. split; intros x Hx; unfold union.
  - destruct (f x =? f v); auto.
  - destruct (Nat.eqb_spec (f x) (f v)) as [E|N].
    + rewrite (Hi u Hu). destruct (f u =? f v); reflexivity.
    + rewrite (Hi x Hx).
      destruct (Nat.eqb_spec (f x) (f v)); [contradiction | reflexivity].
Qed.

Lemma fixcount_union (f : nat -> nat) (u v : nat) :
  wf_labels n f -> u < n -> v < n -> f u <> f v ->
  fixcount n (union f u v) + 1 = fixcount n f.
Proof.
  intros [Hr Hi] Hu Hv Hne. unfold fixcount.
  apply (filter_lose_one _ _ (f v)).
  - apply seq_NoDup.
  - apply in_seq. specialize (Hr v Hv). lia.
  - apply Nat.eqb_eq. auto.
  - unfold union. rewrite (Hi v Hv), Nat.eqb_refl.
    apply Nat.eqb_neq. exact Hne.
  - intros x Hx Hxv. apply in_seq in Hx. unfold union.
    destruct (Nat.eqb_spec (f x) (f v)) as [E|N]; [|reflexivity].
    assert (H1 : (f x =? x) = false) by (apply Nat.eqb_neq; congruence).
    rewrite H1. apply Nat.eqb_neq. intros E'.
    apply Hne. rewrite <- E, <- E'. symmetry. apply Hi. exact Hu.
Qed.

Lemma in_range_cons (e : edge) (es : list edge) :
  in_range n (e :: es) -> (edge_u e < n /\ edge_v e < n) /\ in_range n es.
Proof.
  intro H. split; [apply H; now left | intros x Hx; apply H; now right].
Qed.

Lemma in_range_app (es es' : list edge) :
  in_range n (es ++ es') <-> in_range n es /\ in_range n es'.
Proof.
  unfold in_range. split.
  - intro H. split; intros e He; apply H; apply in_app_iff; auto.
  - intros [H1 H2] e He. apply in_app_iff in He as [He|He]; auto.
Qed.

Lemma wf_run (es : list edge) (f : nat -> nat) :
  wf_labels n f -> in_range n es -> wf_labels n (run f es).
Proof.
  revert f. induction es as [|[[u v] w] es IH]; intros f Hf Hr; [exact Hf|].
  apply in_range_cons in Hr as [[Hu Hv] Hr]. simpl.
  destruct (f u =? f v); apply IH; auto using wf_union.
Qed.

(** Every yielded edge merges two sets. *)
Lemma kruskal_loop_count (es : list edge) (f : nat -> nat) :
  wf_labels n f -> in_range n es ->
  List.length (kruskal_loop f es) + fixcount n (run f es) = fixcount n f.
Proof.
  revert f. induction es as [|[[u v] w] es IH]; intros f Hf Hr; [reflexivity|].
  apply in_range_cons in Hr as [[Hu Hv] Hr]. simpl.
  unfold edge_u, edge_v in Hu, Hv; simpl in Hu, Hv.
  destruct (Nat.eqb_spec (f u) (f v)) as [E|N]; [now apply IH|].
  simpl. rewrite <- (fixcount_union f u v) by assumption.
  rewrite <- (IH (union f u v)); auto using wf_union. lia.
Qed.

Lemma kruskal_loop_incl (es : list edge) (f : nat -> nat) :
  incl (kruskal_loop f es) es.
Proof.
  revert f. induction es as [|[[u v] w] es IH]; intros f e He; [exact He|].
  simpl in He. destruct (f u =? f v).
  - right. exact (IH _ _ He).
  - destruct He as [<- | He]; [now left | right; exact (IH _ _ He)].
Qed.

Lemma kruskal_loop_length_le (es : list edge) (f : nat -> nat) :
  List.length (kruskal_loop f es) <= List.length es.
Proof.
  revert f. induction es as [|[[u v] w] es IH]; intro f; simpl; [lia|].
  destruct (f u =? f v); simpl; [specialize (IH f) | specialize (IH (union f u v))];
    lia.
Qed.

(** An edge list of length [k] merges at most [k] sets. *)
Lemma run_count_lower (es : list edge) (f : nat -> nat) :
  wf_labels n f -> in_range n es ->
  fixcount n f <= fixcount n (run f es) + List.length es.
Proof.
  intros Hf Hr. pose proof (kruskal_loop_count es f Hf Hr).
  pose proof (kruskal_loop_length_le es f). lia.
Qed.

Lemma run_app (es es' : list edge) (f : nat -> nat) :
  run f (es ++ es') = run (run f es) es'.
Proof.
  revert f. induction es as [|[[u v] w] es IH]; intro f; simpl; [reflexivity|].
  destruct (f u =? f v); apply IH.
Qed.

Lemma kruskal_loop_app (es es' : list edge) (f : nat -> nat) :
  kruskal_loop f (es ++ es')
  = kruskal_loop f es ++ kruskal_loop (run f es) es'.
Proof.
  revert f. induction es as [|[[u v] w] es IH]; intro f; simpl; [reflexivity|].
  destruct (f u =? f v); simpl; now rewrite IH.
Qed.

End UnionFind.

(** *** Labellings and connectivity *)

Lemma connected_incl (E E' : list edge) (x y : nat) :
  incl E E' -> connected E x y -> connected E' x y.
Proof.
  intros Hi H. induction H as [x | u v w Hin | x y _ IH | x y z _ IH1 _ IH2].
  - apply conn_refl.
  - apply (conn_edge _ u v w). now apply Hi.
  - now apply conn_sym.
  - now apply (conn_trans _ x y z).
Qed.

Lemma connected_collapsed (g : nat -> nat) (E : list edge) (x y : nat) :
  collapses g E -> connected E x y -> g x = g y.
Proof.
  intros Hc H. induction H as [x | u v w Hin | x y _ IH | x y z _ IH1 _ IH2].
  - reflexivity.
  - exact (Hc u v w Hin).
  - now symmetry.
  - now transitivity (g y).
Qed.

Lemma union_refines (f : nat -> nat) (u v : nat) : refines f (union f u v).
Proof.
  intros x y E. unfold union. now rewrite E.
Qed.

Lemma union_joins (f : nat -> nat) (u v : nat) : union f u v u = union f u v v.
Proof.
  unfold union. rewrite Nat.eqb_refl. now destruct (f u =? f v).
Qed.

Lemma run_refines_from (es : list edge) (f : nat -> nat) : refines f (run f es).
Proof.
  revert f. induction es as [|[[u v] w] es IH]; intros f x y E; [exact E|].
  simpl. destruct (f u =? f v); [now apply IH|].
  apply IH. now apply union_refines.
Qed.

Lemma run_collapses (es : list edge) (f : nat -> nat) : collapses (run f es) es.
Proof.
  revert f. induction es as [|[[u v] w] es IH]; intros f a b c Hin; [destruct Hin|].
  simpl. destruct Hin as [E | Hin].
  - injection E as <- <- <-.
    destruct (Nat.eqb_spec (f u) (f v)) as [Euv|N].
    + now apply run_refines_from.
    + apply run_refines_from. apply union_joins.
  - destruct (f u =? f v); exact (IH _ a b c Hin).
Qed.

(** Merging along edges that [g] collapses keeps the partition finer than
    [g]. *)
Lemma run_refines (es : list edge) (f g : nat -> nat) :
  refines f g -> collapses g es -> refines (run f es) g.
Proof.
  revert f. induction es as [|[[u v] w] es IH]; intros f Hf Hc; [exact Hf|].
  assert (Hc' : collapses g es) by (intros a b c H; apply (Hc a b c); now right).
  assert (Huv : g u = g v) by (apply (Hc u v w); now left).
  simpl. destruct (f u =? f v); [now apply IH|].
  apply IH; [|exact Hc'].
  intros x y. unfold union.
  destruct (Nat.eqb_spec (f x) (f v)) as [Ex|Nx];
    destruct (Nat.eqb_spec (f y) (f v)) as [Ey|Ny]; intro E.
  - apply Hf. congruence.
  - rewrite (Hf x v Ex), <- Huv. now apply Hf.
  - rewrite (Hf y v Ey), <- Huv. now apply Hf.
  - now apply Hf.
Qed.

Lemma init_refines (g : nat -> nat) : refines subtrees_init g.
Proof. intros x y E. unfold subtrees_init in E. now subst. Qed.

Section Counting.

Variable n : nat.

(** A coarser partition has no more sets. *)
Lemma fixcount_refines (f g : nat -> nat) :
  wf_labels n f -> wf_labels n g ->
  (forall x y, x < n -> y < n -> f x = f y -> g x = g y) ->
  fixcount n g <= fixcount n f.
Proof.
  intros [Hrf Hif] [Hrg Hig] Href. unfold fixcount.
  rewrite <- (length_map f (filter (fun x => g x =? x) (seq 0 n))).
  apply NoDup_incl_length.
  - apply NoDup_map_NoDup_ForallPairs.
    + intros x y Hx Hy E.
      apply filter_In in Hx as [Hx Gx]. apply filter_In in Hy as [Hy Gy].
      apply in_seq in Hx. apply in_seq in Hy.
      apply Nat.eqb_eq in Gx. apply Nat.eqb_eq in Gy.
      rewrite <- Gx, <- Gy. apply Href; auto; lia.
    + apply NoDup_filter, seq_NoDup.
  - intros y Hy. apply in_map_iff in Hy as [x [<- Hx]].
    apply filter_In in Hx as [Hx _]. apply in_seq in Hx.
    apply filter_In. split.
    + apply in_seq. specialize (Hrf x). lia.
    + apply Nat.eqb_eq. apply Hif. lia.
Qed.

(** When all nodes carry one label there is one set. *)
Lemma fixcount_one (f : nat -> nat) :
  wf_labels n f -> 0 < n ->
  (forall x y, x < n -> y < n -> f x = f y) ->
  fixcount n f = 1.
Proof.
  intros [Hr Hi] Hn Hall. unfold fixcount.
  assert (H0 : forall l, NoDup l -> (forall x, In x l -> x < n) ->
             List.length (filter (fun x => f x =? x) l)
             = if existsb (Nat.eqb (f 0)) l then 1 else 0).
  { induction l as [|a l IH]; intros Hnd Hlt; [reflexivity|].
    inversion Hnd as [|? ? Hna Hnd']; subst. simpl.
    assert (Ha : a < n) by (apply Hlt; now left).
    assert (IH' := IH Hnd' (fun x Hx => Hlt x (or_intror Hx))).
    destruct (Nat.eqb_spec (f a) a) as [E|N]; simpl; rewrite IH'.
    - assert (E0 : f 0 = a) by (rewrite <- E; now apply Hall).
      rewrite E0, Nat.eqb_refl. simpl.
      destruct (existsb (Nat.eqb a) l) eqn:Ex; [|reflexivity].
      apply existsb_exists in Ex as [y [Hy Ey]].
      apply Nat.eqb_eq in Ey. subst y. contradiction.
    - destruct (Nat.eqb_spec (f 0) a) as [E0|N0]; [|reflexivity].
      exfalso. apply N. rewrite <- E0. now apply Hi. }
  rewrite H0.
  - assert (Hex : existsb (Nat.eqb (f 0)) (seq 0 n) = true).
    { apply existsb_exists. exists (f 0). split; [|apply Nat.eqb_refl].
      apply in_seq. specialize (Hr 0 Hn). lia. }
    now rewrite Hex.
  - apply seq_NoDup.
  - intros x Hx. apply in_seq in Hx. lia.
Qed.

(** The forest of the loop connects whatever the union-find has merged. *)
Lemma kruskal_loop_connects (es acc : list edge) (f : nat -> nat) :
  (forall x y, f x = f y -> connected acc x y) ->
  forall x y, run f es x = run f es y ->
              connected (acc ++ kruskal_loop f es) x y.
Proof.
  revert acc f. induction es as [|[[u v] w] es IH]; intros acc f Hacc x y E.
  - simpl in *. rewrite app_nil_r. now apply Hacc.
  - simpl in *. destruct (Nat.eqb_spec (f u) (f v)) as [Euv|N].
    + now apply IH.
    + replace (acc ++ (u, v, w) :: kruskal_loop (union f u v) es)
        with ((acc ++ [(u, v, w)]) ++ kruskal_loop (union f u v) es)
        by now rewrite <- app_assoc.
      apply IH; [|exact E].
      clear E x y. intros x y. unfold union.
      assert (Hin : forall a b, f a = f b -> connected (acc ++ [(u, v, w)]) a b).
      { intros a b Hab. apply (connected_incl acc); [|now apply Hacc].
        intros e He. apply in_app_iff. now left. }
      assert (Huv : connected (acc ++ [(u, v, w)]) u v).
      { apply (conn_edge _ u v w). apply in_app_iff. right. now left. }
      destruct (Nat.eqb_spec (f x) (f v)) as [Ex|Nx];
        destruct (Nat.eqb_spec (f y) (f v)) as [Ey|Ny]; intro E.
      * apply Hin. congruence.
      * apply (conn_trans _ x v y); [now apply Hin|].
        apply (conn_trans _ v u y); [now apply conn_sym | now apply Hin].
      * apply (conn_trans _ x u y); [now apply Hin|].
        apply (conn_trans _ u v y); [exact Huv | apply Hin; congruence].
      * now apply Hin.
Qed.

Lemma kruskal_connects (es : list edge) (x y : nat) :
  run subtrees_init es x = run subtrees_init es y ->
  connected (kruskal_loop subtrees_init es) x y.
Proof.
  intro E. apply (kruskal_loop_connects es [] subtrees_init); [|exact E].
  intros a b Hab. unfold subtrees_init in Hab. subst. apply conn_refl.
Qed.

(** The forest of the loop has no cycle. *)
Lemma kruskal_acyclic (es : list edge) :
  in_range n es -> acyclic (kruskal_loop subtrees_init es).
Proof.
  intros Hr K1 e K2 HK Hconn.
  set (K := kruskal_loop subtrees_init es) in *.
  set (g := run subtrees_init es).
  set (h := run subtrees_init (K1 ++ K2)).
  assert (HrK : in_range n K).
  { intros x Hx. apply Hr. now apply (kruskal_loop_incl es subtrees_init). }
  assert (HrK' : in_range n (K1 ++ K2)).
  { intros x Hx. apply HrK. rewrite HK.
    apply in_app_iff in Hx as [Hx|Hx]; apply in_app_iff; [now left|].
    right. now right. }
  assert (Hwg : wf_labels n g) by (apply wf_run; auto using wf_init).
  assert (Hwh : wf_labels n h) by (apply wf_run; auto using wf_init).
  assert (HcK : collapses h K).
  { intros a b c Hin. rewrite HK in Hin.
    apply in_app_iff in Hin as [Hin | [E | Hin]].
    - apply (run_collapses (K1 ++ K2) subtrees_init a b c).
      apply in_app_iff. now left.
    - subst e. apply (connected_collapsed h (K1 ++ K2)); [|exact Hconn].
      apply run_collapses.
    - apply (run_collapses (K1 ++ K2) subtrees_init a b c).
      apply in_app_iff. now right. }
  assert (Hle : fixcount n h <= fixcount n g).
  { apply fixcount_refines; auto. intros x y _ _ E.
    apply (connected_collapsed h K); [exact HcK|].
    now apply kruskal_connects. }
  pose proof (kruskal_loop_count n es subtrees_init (wf_init n) Hr) as Hcount.
  pose proof (run_count_lower n (K1 ++ K2) subtrees_init (wf_init n) HrK') as Hlow.
  fold K g in Hcount. fold h in Hlow.
  rewrite fixcount_init in Hcount, Hlow.
  assert (HlenK : List.length K = S (List.length (K1 ++ K2))).
  { rewrite HK, !length_app. simpl. lia. }
  lia.
Qed.

End Counting.

(** *** Comparing total weights *)

Lemma total_weight_app (E1 E2 : list edge) :
  total_weight (E1 ++ E2) = (total_weight E1 + total_weight E2)%R.
Proof.
  unfold total_weight. induction E1 as [|e E1 IH]; simpl; [lra|].
  rewrite IH. lra.
Qed.

Lemma total_weight_mid (E1 E2 : list edge) (e : edge) :
  total_weight (E1 ++ e :: E2) = (weight e + total_weight (E1 ++ E2))%R.
Proof.
  rewrite !total_weight_app. unfold total_weight. simpl. lra.
Qed.

Lemma count_le_app (t : R) (E1 E2 : list edge) :
  count_le t (E1 ++ E2) = count_le t E1 + count_le t E2.
Proof. unfold count_le. now rewrite filter_app, length_app. Qed.

Lemma count_le_cons (t : R) (e : edge) (E : list edge) :
  count_le t (e :: E) = one_if_le t e + count_le t E.
Proof.
  unfold count_le, one_if_le, le_weight. simpl.
  destruct (Rle_dec (weight e) t); reflexivity.
Qed.

Lemma count_le_mid (t : R) (E1 E2 : list edge) (e : edge) :
  count_le t (E1 ++ e :: E2) = one_if_le t e + count_le t (E1 ++ E2).
Proof. rewrite !count_le_app, count_le_cons. lia. Qed.

Lemma count_le_length (t : R) (E : list edge) :
  count_le t E <= List.length E.
Proof.
  induction E as [|e E IH]; [apply Nat.le_refl|].
  rewrite count_le_cons. unfold one_if_le.
  destruct (Rle_dec (weight e) t); simpl; lia.
Qed.

Lemma count_le_all (t : R) (E : list edge) :
  (forall e, In e E -> (weight e <= t)%R) -> count_le t E = List.length E.
Proof.
  induction E as [|e E IH]; intro H; [reflexivity|].
  rewrite count_le_cons, IH by (intros x Hx; apply H; now right).
  unfold one_if_le. destruct (Rle_dec (weight e) t) as [_|N]; [reflexivity|].
  exfalso. apply N, H. now left.
Qed.

Lemma count_le_none (t : R) (E : list edge) :
  (forall e, In e E -> (t < weight e)%R) -> count_le t E = 0.
Proof.
  induction E as [|e E IH]; intro H; [reflexivity|].
  rewrite count_le_cons, IH by (intros x Hx; apply H; now right).
  unfold one_if_le. destruct (Rle_dec (weight e) t) as [L|_]; [|reflexivity].
  exfalso. specialize (H e (or_introl eq_refl)). lra.
Qed.

Lemma max_edge_exists (E : list edge) :
  E <> [] -> exists a, In a E /\ forall x, In x E -> (weight x <= weight a)%R.
Proof.
  induction E as [|e E IH]; intro Hne; [contradiction|].
  destruct E as [|e' E'].
  - exists e. split; [now left|]. intros x [<- | []]. lra.
  - destruct IH as [a [Ha Hmax]]; [discriminate|].
    destruct (Rle_dec (weight a) (weight e)) as [L|N].
    + exists e. split; [now left|].
      intros x [<- | Hx]; [lra|]. specialize (Hmax x Hx). lra.
    + exists a. split; [now right|].
      intros x [<- | Hx]; [lra | now apply Hmax].
Qed.

Lemma exists_heavier_or_all_lighter (c : R) (E : list edge) :
  (exists b, In b E /\ (c <= weight b)%R) \/
  (forall b, In b E -> (weight b < c)%R).
Proof.
  induction E as [|e E [[b [Hb Hc]] | Hall]].
  - right. intros b [].
  - left. exists b. split; [now right | exact Hc].
  - destruct (Rle_dec c (weight e)) as [L|N].
    + left. exists e. split; [now left | exact L].
    + right. intros b [<- | Hb]; [lra | now apply Hall].
Qed.

(** If, below every threshold, [A] has at least as many edges as [B], and
    both have the same number of edges, then [A] weighs no more than [B]. *)
Lemma dominated_total_weight (m : nat) (A B : list edge) :
  List.length A = m -> List.length B = m ->
  (forall t, count_le t B <= count_le t A) ->
  (total_weight A <= total_weight B)%R.
Proof.
  revert A B. induction m as [|m IH]; intros A B HA HB Hdom.
  - destruct A, B; try discriminate. lra.
  - assert (HAne : A <> []) by (destruct A; discriminate).
    assert (HBne : B <> []) by (destruct B; discriminate).
    destruct (max_edge_exists A HAne) as [a [Ha Hmax]].
    apply in_split in Ha as [A1 [A2 ->]].
    assert (HA' : List.length (A1 ++ A2) = m).
    { rewrite length_app in *. simpl in HA. lia. }
    assert (Hmax' : forall x, In x (A1 ++ A2) -> (weight x <= weight a)%R).
    { intros x Hx. apply Hmax.
      apply in_app_iff in Hx as [Hx|Hx]; apply in_app_iff;
        [now left | right; now right]. }
    destruct (exists_heavier_or_all_lighter (weight a) B)
      as [[b [Hb Hab]] | Hall].
    + apply in_split in Hb as [B1 [B2 ->]].
      assert (HB' : List.length (B1 ++ B2) = m).
      { rewrite length_app in *. simpl in HB. lia. }
      rewrite !total_weight_mid.
      apply Rplus_le_compat; [exact Hab|].
      apply IH; auto. intro t.
      specialize (Hdom t). rewrite !count_le_mid in Hdom.
      pose proof (count_le_length t (B1 ++ B2)) as HlB.
      unfold one_if_le in Hdom.
      destruct (Rle_dec (weight a) t) as [La|Na].
      * rewrite (count_le_all t (A1 ++ A2)); [lia|].
        intros x Hx. specialize (Hmax' x Hx). lra.
      * destruct (Rle_dec (weight b) t) as [Lb|Nb]; [lra | lia].
    + exfalso.
      destruct (max_edge_exists B HBne) as [b [Hb HmaxB]].
      specialize (Hdom (weight b)).
      rewrite (count_le_all (weight b) B HmaxB), count_le_mid in Hdom.
      pose proof (count_le_length (weight b) (A1 ++ A2)) as HlA.
      unfold one_if_le in Hdom. specialize (Hall b Hb).
      destruct (Rle_dec (weight a) (weight b)); [lra | lia].
Qed.

(** *** Sorting by weight *)

Lemma insert_by_weight_perm (e : edge) (l : list edge) :
  Permutation (e :: l) (insert_by_weight e l).
Proof.
  induction l as [|x l IH]; simpl; [apply Permutation_refl|].
  destruct (Rle_dec (weight e) (weight x)); [apply Permutation_refl|].
  apply perm_trans with (x :: e :: l); [apply perm_swap|].
  now apply perm_skip.
Qed.

Lemma sorted_by_weight_perm (es : list edge) :
  Permutation es (sorted_by_weight es).
Proof.
  induction es as [|e es IH]; simpl; [apply perm_nil|].
  apply perm_trans with (e :: sorted_by_weight es);
    [now apply perm_skip | apply insert_by_weight_perm].
Qed.

Lemma insert_by_weight_sorted (e : edge) (l : list edge) :
  StronglySorted by_weight l -> StronglySorted by_weight (insert_by_weight e l).
Proof.
  induction l as [|x l IH]; intro Hs; simpl.
  - constructor; [constructor | constructor].
  - inversion Hs as [|? ? Hs' Hall]; subst.
    destruct (Rle_dec (weight e) (weight x)) as [L|N].
    + constructor; [exact Hs|]. constructor; [exact L|].
      apply Forall_forall. intros y Hy.
      rewrite Forall_forall in Hall. specialize (Hall y Hy).
      unfold by_weight in *. lra.
    + constructor; [now apply IH|].
      apply Forall_forall. intros y Hy.
      apply (Permutation_in _ (Permutation_sym (insert_by_weight_perm e l)))
        in Hy.
      destruct Hy as [<- | Hy].
      * unfold by_weight. lra.
      * rewrite Forall_forall in Hall. now apply Hall.
Qed.

Lemma sorted_by_weight_sorted (es : list edge) :
  StronglySorted by_weight (sorted_by_weight es).
Proof.
  induction es as [|e es IH]; simpl; [constructor|].
  now apply insert_by_weight_sorted.
Qed.

(** A sorted list splits at any threshold. *)
Lemma sorted_split (t : R) (L : list edge) :
  StronglySorted by_weight L ->
  exists P Q, L = P ++ Q /\
              (forall e, In e P -> (weight e <= t)%R) /\
              (forall e, In e Q -> (t < weight e)%R).
Proof.
  induction 1 as [|x L Hs IH Hall].
  - exists [], []. repeat split; intros e [].
  - destruct (Rle_dec (weight x) t) as [Lx|Nx].
    + destruct IH as [P [Q [-> [HP HQ]]]].
      exists (x :: P), Q. repeat split; [|exact HQ].
      intros e [<- | He]; [exact Lx | now apply HP].
    + exists [], (x :: L). repeat split; [intros e [] |].
      rewrite Forall_forall in Hall.
      intros e [<- | He]; [lra|].
      specialize (Hall e He). unfold by_weight in Hall. lra.
Qed.

(** *** Minimality of the Kruskal forest *)

Section Minimality.

Variable n : nat.
Hypothesis n_pos : 0 < n.

(** A sorted edge list over the nodes [0 .. n-1]. *)
Variable L : list edge.
Hypothesis L_range : in_range n L.
Hypothesis L_sorted : StronglySorted by_weight L.

Let K := kruskal_loop subtrees_init L.

Lemma in_range_incl (S : list edge) : incl S L -> in_range n S.
Proof. intros Hi e He. apply L_range. now apply Hi. Qed.

Lemma spanning_one_set (S E : list edge) :
  in_range n E -> spanning n S -> incl S E ->
  fixcount n (run subtrees_init E) = 1.
Proof.
  intros Hr Hs Hi. apply fixcount_one; [apply wf_run; auto using wf_init | exact n_pos |].
  intros x y Hx Hy. apply (connected_collapsed _ S); [|now apply Hs].
  intros u v w Hin. apply (run_collapses E subtrees_init u v w). now apply Hi.
Qed.

Lemma kruskal_length (S : list edge) :
  incl S L -> spanning n S -> List.length K = n - 1.
Proof.
  intros Hi Hs.
  pose proof (kruskal_loop_count n L subtrees_init (wf_init n) L_range) as Hc.
  rewrite fixcount_init, (spanning_one_set S L L_range Hs Hi) in Hc.
  fold K in Hc. lia.
Qed.

(** Below every threshold the Kruskal forest has at least as many edges as
    any spanning tree. *)
Lemma kruskal_threshold (T : list edge) (t : R) :
  incl T L -> spanning n T -> List.length T = n - 1 ->
  count_le t T <= count_le t K.
Proof.
  intros Hi Hs Hlen.
  destruct (sorted_split t L L_sorted) as [P [Q [HL [HP HQ]]]].
  assert (HrP : in_range n P).
  { intros e He. apply L_range. rewrite HL. apply in_app_iff. now left. }
  unfold K. rewrite HL, kruskal_loop_app, count_le_app.
  rewrite (count_le_all t (kruskal_loop subtrees_init P))
    by (intros e He; apply HP; now apply (kruskal_loop_incl P subtrees_init)).
  set (A := filter (le_weight t) T).
  set (B := filter (fun e => negb (le_weight t e)) T).
  assert (HlenAB : List.length A + List.length B = List.length T)
    by apply filter_length.
  assert (HiA : incl A T) by (intros e He; now apply filter_In in He).
  assert (HiB : incl B T) by (intros e He; now apply filter_In in He).
  assert (HrA : in_range n A).
  { apply in_range_incl. intros e He. now apply Hi, HiA. }
  assert (HrB : in_range n B).
  { apply in_range_incl. intros e He. now apply Hi, HiB. }
  assert (HrAB : in_range n (A ++ B)) by now apply in_range_app.
  assert (HiT : incl T (A ++ B)).
  { intros e He. apply in_app_iff.
    destruct (le_weight t e) eqn:E; [left | right]; apply filter_In;
      now rewrite E. }
  pose proof (spanning_one_set T (A ++ B) HrAB Hs HiT) as Hone.
  rewrite run_app in Hone.
  assert (HwA : wf_labels n (run subtrees_init A))
    by (apply wf_run; auto using wf_init).
  pose proof (run_count_lower n B (run subtrees_init A) HwA HrB) as Hlow.
  assert (Href : fixcount n (run subtrees_init P)
                 <= fixcount n (run subtrees_init A)).
  { apply fixcount_refines; [exact HwA | apply wf_run; auto using wf_init |].
    intros x y _ _. apply run_refines; [apply init_refines|].
    intros u v w Hin. apply (run_collapses P subtrees_init u v w).
    apply filter_In in Hin as [Hin Hle].
    assert (HinL : In (u, v, w) (P ++ Q)) by (rewrite <- HL; now apply Hi).
    apply in_app_iff in HinL as [HinP | HinQ]; [exact HinP|].
    exfalso. specialize (HQ _ HinQ). unfold le_weight in Hle.
    destruct (Rle_dec (weight (u, v, w)) t); [lra | discriminate]. }
  pose proof (kruskal_loop_count n P subtrees_init (wf_init n) HrP) as Hc.
  rewrite fixcount_init in Hc.
  change (count_le t T) with (List.length A). lia.
Qed.

(** The Kruskal forest weighs no more than any spanning tree. *)
Lemma kruskal_minimal_tree (T : list edge) :
  incl T L -> spanning n T -> List.length T = n - 1 ->
  (total_weight K <= total_weight T)%R.
Proof.
  intros Hi Hs Hlen.
  apply (dominated_total_weight (n - 1)); [now apply (kruskal_length T) | exact Hlen |].
  intro t. now apply kruskal_threshold.
Qed.

Lemma kruskal_loop_weight_le (S : list edge) (f : nat -> nat) :
  (forall e, In e S -> (0 <= weight e)%R) ->
  (total_weight (kruskal_loop f S) <= total_weight S)%R.
Proof.
  revert f. induction S as [|[[u v] w] S IH]; intros f Hpos; [apply Rle_refl|].
  assert (Hw : (0 <= w)%R) by (apply (Hpos (u, v, w)); now left).
  assert (Hpos' : forall e, In e S -> (0 <= weight e)%R)
    by (intros e He; apply Hpos; now right).
  change (total_weight ((u, v, w) :: S)) with (w + total_weight S)%R.
  simpl. destruct (f u =? f v).
  - specialize (IH f Hpos'). lra.
  - specialize (IH (union f u v) Hpos').
    change (total_weight ((u, v, w) :: kruskal_loop (union f u v) S))
      with (w + total_weight (kruskal_loop (union f u v) S))%R.
    lra.
Qed.

(** With weights that are never negative, the Kruskal forest weighs no more
    than any connected spanning set of edges. *)
Lemma kruskal_minimal (S : list edge) :
  (forall e, In e L -> (0 <= weight e)%R) ->
  incl S L -> spanning n S ->
  (total_weight K <= total_weight S)%R.
Proof.
  intros Hpos Hi Hs.
  set (F := kruskal_loop subtrees_init S).
  assert (HiF : incl F S) by apply kruskal_loop_incl.
  assert (HrS : in_range n S) by now apply in_range_incl.
  apply Rle_trans with (total_weight F).
  - apply kruskal_minimal_tree.
    + intros e He. now apply Hi, HiF.
    + intros x y Hx Hy. apply kruskal_connects.
      apply (connected_collapsed _ S); [apply run_collapses | now apply Hs].
    + pose proof (kruskal_loop_count n S subtrees_init (wf_init n) HrS) as Hc.
      rewrite fixcount_init, (spanning_one_set S S HrS Hs (incl_refl S)) in Hc.
      fold F in Hc. lia.
  - apply kruskal_loop_weight_le. intros e He. now apply Hpos, Hi.
Qed.

End Minimality.

(* ================================================================== *)
(** ** The spanning tree of the Builder's graph *)

Lemma NoDup_pairs_kruskal (es : list edge) (f : nat -> nat) :
  NoDup (map edge_pair es) -> NoDup (map edge_pair (kruskal_loop f es)).
Proof.
  revert f. induction es as [|[[u v] w] es IH]; intros f Hnd; [constructor|].
  simpl in *. inversion Hnd as [|? ? Hnin Hnd']; subst.
  destruct (f u =? f v); [now apply IH|].
  simpl. constructor; [|now apply IH].
  intro Hin. apply Hnin.
  apply in_map_iff in Hin as [e [Ee He]].
  apply in_map_iff. exists e. split; [exact Ee|].
  now apply (kruskal_loop_incl es (union f u v)).
Qed.

Lemma kruskal_mst_edges_incl (G : Graph) : incl (kruskal_mst_edges G) (edges G).
Proof.
  intros e He. unfold kruskal_mst_edges in He.
  apply kruskal_loop_incl in He.
  exact (Permutation_in _ (Permutation_sym (sorted_by_weight_perm (edges G))) He).
Qed.

(** On a graph whose edges are canonical pairs [u < v] of its own nodes,
    the tree is the graph on the same nodes with the Kruskal edges. *)
Lemma minimum_spanning_tree_eq (G : Graph) :
  NoDup (nodes G) ->
  (forall e, In e (edges G) ->
     edge_u e < edge_v e /\ In (edge_u e) (nodes G) /\ In (edge_v e) (nodes G)) ->
  NoDup (map edge_pair (edges G)) ->
  minimum_spanning_tree G = mkGraph (nodes G) (kruskal_mst_edges G).
Proof.
  intros Hnd Hcan Hpairs. unfold minimum_spanning_tree.
  rewrite add_nodes_from_fresh; [simpl | exact Hnd | intros x _ []].
  rewrite add_edges_from_simple; simpl; [reflexivity | | |].
  - intros e He. apply kruskal_mst_edges_incl in He. now apply Hcan.
  - intros e He. apply kruskal_mst_edges_incl in He. now apply Hcan.
  - unfold kruskal_mst_edges. apply NoDup_pairs_kruskal.
    apply (Permutation_NoDup (l := map edge_pair (edges G))); [|exact Hpairs].
    apply Permutation_map, sorted_by_weight_perm.
Qed.

Lemma total_weight_nonneg (S : list edge) :
  (forall e, In e S -> (0 <= weight e)%R) -> (0 <= total_weight S)%R.
Proof.
  induction S as [|e S IH]; intro H; [apply Rle_refl|].
  change (total_weight (e :: S)) with (weight e + total_weight S)%R.
  assert (0 <= weight e)%R by (apply H; now left).
  assert (0 <= total_weight S)%R by (apply IH; intros x Hx; apply H; now right).
  lra.
Qed.

Section SpanningTree.

Variable coords_df : list (located_point R).

Let n := List.length coords_df.
Let G := geodesic_graph coords_df.
Let L := sorted_by_weight (geodesic_edges coords_df).

Lemma in_sorted_geodesic (e : edge) :
  In e L <-> In e (geodesic_edges coords_df).
Proof.
  unfold L. split; apply Permutation_in;
    [apply Permutation_sym|]; apply sorted_by_weight_perm.
Qed.

Lemma build_mst_graph_eq :
  build_mst_graph G = mkGraph (seq 0 n) (kruskal_loop subtrees_init L).
Proof.
  unfold build_mst_graph, G. rewrite geodesic_graph_eq.
  rewrite minimum_spanning_tree_eq; simpl; [reflexivity | apply seq_NoDup | |].
  - intros e He. pose proof (geodesic_edges_canonical _ _ He) as [H1 H2].
    repeat split; [exact H1 | |]; apply in_seq; lia.
  - apply NoDup_geodesic_pairs.
Qed.

Lemma sorted_geodesic_range : in_range n L.
Proof.
  intros e He. apply in_sorted_geodesic in He.
  pose proof (geodesic_edges_canonical _ _ He) as [H1 H2]. fold n in H2. lia.
Qed.

Lemma sorted_geodesic_nonneg (e : edge) : In e L -> (0 <= weight e)%R.
Proof.
  intro He. apply in_sorted_geodesic, in_geodesic_edges in He
    as [i [j [ri [rj [_ [_ [_ ->]]]]]]].
  apply haversine_nonneg.
Qed.

(** The Builder's graph is complete, hence connected. *)
Lemma geodesic_edges_spanning : spanning n L.
Proof.
  assert (Hlt : forall x y, x < y -> y < n -> connected L x y).
  { intros x y Hxy Hy.
    destruct (nth_error coords_df x) as [rx|] eqn:Ex;
      [|apply nth_error_None in Ex; fold n in Ex; lia].
    destruct (nth_error coords_df y) as [ry|] eqn:Ey;
      [|apply nth_error_None in Ey; fold n in Ey; lia].
    apply (conn_edge _ x y (row_distance rx ry)).
    apply in_sorted_geodesic, in_geodesic_edges. now exists x, y, rx, ry. }
  intros x y Hx Hy.
  destruct (Nat.lt_total x y) as [Hxy | [-> | Hyx]].
  - now apply Hlt.
  - apply conn_refl.
  - apply conn_sym. now apply Hlt.
Qed.

End SpanningTree.

(** C6: on the Builder's graph over [n] points the Spanning Tree Engine
    returns a subgraph on the same nodes, with [n-1] edges when [n >= 1],
    without cycle, connecting all nodes, and of minimal total weight among
    the connected spanning edge sets of the graph (the spanning trees among
    them); with 0 or 1 node it has no edge.  The algorithm of
    [nx.minimum_spanning_tree] is the one modelled above. *)
Theorem build_mst_graph_minimum_spanning_tree
  (P : provider) (coords_df : list (located_point R)) (G : Graph) :
  build_geodesic_graph P coords_df = Ok G ->
  let n := List.length coords_df in
  let T := build_mst_graph G in
  nodes T = nodes G /\
  incl (edges T) (edges G) /\
  (1 <= n -> List.length (edges T) = n - 1) /\
  acyclic (edges T) /\
  spanning n (edges T) /\
  (forall S, incl S (edges G) -> spanning n S ->
             (total_weight (edges T) <= total_weight S)%R) /\
  (n <= 1 -> edges T = []).
Proof.
  intros HG n T. apply build_geodesic_graph_ok in HG as [_ ->]. unfold T.
  rewrite build_mst_graph_eq, geodesic_graph_eq. cbn [nodes edges].
  set (L := sorted_by_weight (geodesic_edges coords_df)).
  pose proof (sorted_geodesic_range coords_df) as Hr. fold n L in Hr.
  pose proof (geodesic_edges_spanning coords_df) as Hsp. fold n L in Hsp.
  pose proof (sorted_by_weight_sorted (geodesic_edges coords_df)) as Hso.
  fold L in Hso.
  assert (HL : forall S, incl S (geodesic_edges coords_df) -> incl S L).
  { intros S HS e He. apply in_sorted_geodesic. now apply HS. }
  split; [reflexivity|]. split; [|split; [|split; [|split; [|split]]]].
  - intros e He. apply kruskal_loop_incl in He.
    now apply in_sorted_geodesic in He.
  - intro Hn. apply (kruskal_length n Hn L Hr L); [apply incl_refl | exact Hsp].
  - now apply (kruskal_acyclic n).
  - intros x y Hx Hy. apply kruskal_connects.
    apply (connected_collapsed _ L); [apply run_collapses | now apply Hsp].
  - intros S HS HspS. destruct (Nat.eq_dec n 0) as [Hn0 | Hn0].
    + assert (E : L = []).
      { destruct L as [|e L']; [reflexivity|].
        destruct (Hr e (or_introl eq_refl)). lia. }
      rewrite E. simpl. apply total_weight_nonneg.
      intros e He. apply (sorted_geodesic_nonneg coords_df).
      now apply (HL S HS).
    + apply (kruskal_minimal n); auto; try lia.
      apply sorted_geodesic_nonneg.
  - intro Hn. unfold L. now rewrite (geodesic_edges_nil coords_df Hn).
Qed.

Lemma build_mst_graph_minimum_spanning_tree_witness :
  let P := sample_provider (Ok [facility_a; facility_b]) (Ok tt) snap_all
                           (fun u v => Ok (Some [u; v])) (fun _ => Ok [5%R; 7%R]) in
  let G := geodesic_graph sample_coords in
  let T := build_mst_graph G in
  build_geodesic_graph P sample_coords = Ok G /\
  nodes T = nodes G /\
  incl (edges T) (edges G) /\
  (1 <= 2 -> List.length (edges T) = 2 - 1) /\
  acyclic (edges T) /\
  spanning 2 (edges T) /\
  (forall S, incl S (edges G) -> spanning 2 S ->
             (total_weight (edges T) <= total_weight S)%R) /\
  (2 <= 1 -> edges T = []).
Proof.
  intros P G T. split; [reflexivity|].
  apply (build_mst_graph_minimum_spanning_tree P sample_coords G).
  reflexivity.
Defined.

(* ================================================================== *)
(** ** A worked triangle *)

(** Settles the weight comparisons of a sort on concrete weights. *)
Ltac compare_weights :=
  repeat (cbn [insert_by_weight weight snd];
          match goal with
          | |- context [Rle_dec ?a ?b] =>
              destruct (Rle_dec a b); [try (exfalso; lra) | try (exfalso; lra)]
          end).

(** The triangle of the repository's test of [build_mst_graph]: weights
    100, 200 and 150; the tree keeps the edges of weight 100 and 150. *)
Lemma build_mst_graph_triangle :
  build_mst_graph
    (mkGraph [0; 1; 2] [(0, 1, 100%R); (1, 2, 200%R); (0, 2, 150%R)])
  = mkGraph [0; 1; 2] [(0, 1, 100%R); (0, 2, 150%R)].
Proof.
  unfold build_mst_graph, minimum_spanning_tree, kruskal_mst_edges.
  cbn [edges nodes sorted_by_weight fold_right insert_by_weight weight snd].
  compare_weights.
  reflexivity.
Qed.

(* ================================================================== *)
(** ** The sample run *)

Lemma sample_extract :
  extract_coordinates [facility_a; facility_b] = Ok sample_coords.
Proof. reflexivity. Qed.

Lemma sample_build_mst :
  build_mst_graph (geodesic_graph sample_coords) = sample_mst.
Proof. reflexivity. Qed.

(* ================================================================== *)
(** ** The refiner, edge by edge *)

Lemma route_ok_failed (P : provider) (G_drive : network P) (node_u node_v : nat) :
  routing_failed P G_drive node_u node_v ->
  route_ok (try_shortest_path P G_drive node_u node_v) = None.
Proof.
  unfold try_shortest_path, route_ok.
  intros [[e He] | [He | [r [He Hr]]]]; rewrite He; try reflexivity.
  destruct (Nat.ltb_spec 1 (List.length r)); [lia | reflexivity].
Qed.

Lemma route_ok_found (P : provider) (G_drive : network P)
  (node_u node_v : nat) (route : list nat) :
  routing_found P G_drive node_u node_v route <->
  route_ok (try_shortest_path P G_drive node_u node_v) = Some route.
Proof.
  unfold routing_found, try_shortest_path, route_ok. split.
  - intros [He Hr]. rewrite He.
    destruct (Nat.ltb_spec 1 (List.length route)); [reflexivity | lia].
  - destruct (shortest_path P G_drive node_u node_v) as [[r|]|e];
      try discriminate.
    destruct (Nat.ltb_spec 1 (List.length r)); [|discriminate].
    intro E. injection E as <-. split; [reflexivity | lia].
Qed.

Lemma route_ok_cases (P : provider) (G_drive : network P) (node_u node_v : nat) :
  routing_failed P G_drive node_u node_v \/
  exists route, routing_found P G_drive node_u node_v route.
Proof.
  unfold routing_failed, routing_found, raises.
  destruct (shortest_path P G_drive node_u node_v) as [[r|]|e].
  - destruct (Nat.le_gt_cases (List.length r) 1).
    + left. right. right. exists r. auto.
    + right. exists r. split; [reflexivity | lia].
  - left. right. left. reflexivity.
  - left. left. exists e. reflexivity.
Qed.

(** An edge whose routing failed is drawn straight, through one more call
    of [haversine]. *)
Lemma draw_edge_fallback (P : provider) (G_drive : network P)
  (df : list snapped_row) (u v : nat) (w : R) (ru rv : snapped_row) :
  nth_error df u = Some ru -> nth_error df v = Some rv ->
  routing_failed P G_drive (snd ru) (snd rv) ->
  draw_edge P G_drive df (u, v, w)
  = (d <- haversine_call P (lat (fst ru)) (lon (fst ru))
                           (lat (fst rv)) (lon (fst rv)) ;;
     Ok (straight_elements (fst ru) (fst rv))).
Proof.
  intros Hu Hv Hf. unfold draw_edge, iloc. rewrite Hu, Hv. simpl.
  rewrite (route_ok_failed _ _ _ _ Hf).
  unfold draw_straight, loc. rewrite Hu, Hv. cbn [bind].
  destruct (haversine_call P _ _ _ _) as [d|e] eqn:Ec; [|reflexivity].
  apply haversine_call_ok in Ec as [_ ->]. reflexivity.
Qed.

Lemma draw_edge_failed (P : provider) (G_drive : network P)
  (df : list snapped_row) (u v : nat) (w : R) (ru rv : snapped_row) :
  nth_error df u = Some ru -> nth_error df v = Some rv ->
  routing_failed P G_drive (snd ru) (snd rv) ->
  sqrt_domain_error P (lat (fst ru)) (lon (fst ru))
                      (lat (fst rv)) (lon (fst rv)) = false ->
  draw_edge P G_drive df (u, v, w) = Ok (straight_elements (fst ru) (fst rv)).
Proof.
  intros Hu Hv Hf Hs. rewrite (draw_edge_fallback _ _ _ _ _ _ _ _ Hu Hv Hf).
  now rewrite (haversine_call_defined _ _ _ _ _ Hs).
Qed.

Lemma draw_edge_failed_undefined (P : provider) (G_drive : network P)
  (df : list snapped_row) (u v : nat) (w : R) (ru rv : snapped_row) :
  nth_error df u = Some ru -> nth_error df v = Some rv ->
  routing_failed P G_drive (snd ru) (snd rv) ->
  sqrt_domain_error P (lat (fst ru)) (lon (fst ru))
                      (lat (fst rv)) (lon (fst rv)) = true ->
  draw_edge P G_drive df (u, v, w) = Raise (ValueError "math domain error").
Proof.
  intros Hu Hv Hf Hs. rewrite (draw_edge_fallback _ _ _ _ _ _ _ _ Hu Hv Hf).
  unfold haversine_call. now rewrite Hs.
Qed.

Lemma draw_edge_found (P : provider) (G_drive : network P)
  (df : list snapped_row) (u v : nat) (w : R) (ru rv : snapped_row)
  (route : list nat) :
  nth_error df u = Some ru -> nth_error df v = Some rv ->
  routing_found P G_drive (snd ru) (snd rv) route ->
  draw_edge P G_drive df (u, v, w)
  = (lengths <- route_to_gdf P G_drive route ;;
     Ok (routed_elements (fst ru) (fst rv) (sum_lengths lengths))).
Proof.
  intros Hu Hv Hf. unfold draw_edge, iloc. rewrite Hu, Hv. simpl.
  apply route_ok_found in Hf. rewrite Hf.
  unfold draw_routed, loc. rewrite Hu, Hv.
  destruct (route_to_gdf P G_drive route); reflexivity.
Qed.

(** The loop draws every edge when every edge can be drawn. *)
Lemma draw_edges_all (P : provider) (G_drive : network P)
  (df : list snapped_row) (es : list edge) :
  (forall e, In e es -> returns (draw_edge P G_drive df e)) ->
  exists drawn,
    draw_edges P G_drive df es = Ok (List.concat drawn) /\
    Forall2 (fun e d => draw_edge P G_drive df e = Ok d) es drawn.
Proof.
  induction es as [|e es IH]; intro H.
  - exists []. split; [reflexivity | constructor].
  - destruct (H e (or_introl eq_refl)) as [d Hd].
    destruct IH as [drawn [Hdr Hall]]; [intros x Hx; apply H; now right|].
    exists (d :: drawn). split; [|now constructor].
    simpl. rewrite Hd, Hdr. reflexivity.
Qed.

Lemma nth_error_combine_snap (coords_df : list (located_point R))
  (osm : list nat) (u : nat) :
  List.length osm = List.length coords_df -> u < List.length coords_df ->
  exists ru, nth_error (combine coords_df osm) u = Some ru /\
             nth_error coords_df u = Some (fst ru).
Proof.
  revert osm u. induction coords_df as [|r l IH]; intros osm u Hlen Hu;
    [simpl in Hu; lia|].
  destruct osm as [|o osm]; [discriminate|].
  destruct u as [|u]; simpl.
  - exists (r, o). auto.
  - apply IH; simpl in *; lia.
Qed.

(* ================================================================== *)
(** ** The assembled result *)

Lemma assemble_edges_from (es : list edge) (acc : list edge_out) (t : R) :
  fold_left assemble_edge es (acc, t)
  = (acc ++ map edge_out_of es, fold_left Rplus (map weight es) t).
Proof.
  revert acc t. induction es as [|[[u v] w] es IH]; intros acc t; simpl.
  - now rewrite app_nil_r.
  - rewrite IH. simpl. now rewrite <- app_assoc.
Qed.

Lemma assemble_edges_eq (mst : Graph) :
  assemble_edges mst
  = (map edge_out_of (edges mst), sum_lengths (map weight (edges mst))).
Proof. unfold assemble_edges. now rewrite assemble_edges_from. Qed.

(** How a call of [generate_logistics_mst] can return. *)
Lemma generate_logistics_mst_returns (P : provider) (b : bbox)
  (mode cache_dir : string) (output_file : option string) (d : dict) :
  generate_logistics_mst P b mode cache_dir output_file = Ok d ->
  (load_logistics_features P b mode (Some (cache_file cache_dir mode)) = Ok [] /\
   d = no_data_result) \/
  (exists gdf coords_df html,
     load_logistics_features P b mode (Some (cache_file cache_dir mode)) = Ok gdf /\
     gdf <> [] /\
     extract_coordinates gdf = Ok coords_df /\
     visualize_mst_map P coords_df
       (build_mst_graph (geodesic_graph coords_df)) b mode
       (output_or_default output_file cache_dir mode) = Ok html /\
     d = full_result coords_df
           (build_mst_graph (geodesic_graph coords_df))
           (fst html) mode b).
Proof.
  unfold generate_logistics_mst.
  destruct (makedirs P cache_dir) as [made|e]; [|discriminate].
  cbn [bind].
  destruct (load_logistics_features P b mode _) as [gdf|e]; [|discriminate].
  simpl. destruct gdf as [|row gdf].
  - intro E. injection E as <-. now left.
  - destruct (extract_coordinates (row :: gdf)) as [coords_df|e] eqn:Ex;
      [|discriminate].
    cbn [bind].
    destruct (build_geodesic_graph P coords_df) as [G|e] eqn:Eb;
      [|discriminate].
    apply build_geodesic_graph_ok in Eb as [_ ->].
    cbn [bind].
    destruct (visualize_mst_map P coords_df _ b mode _) as [html|e] eqn:Ev;
      [|discriminate].
    simpl. rewrite assemble_edges_eq. intro E. injection E as <-.
    right. exists (row :: gdf), coords_df, html.
    repeat split; [discriminate | exact Ex | exact Ev].
Qed.

(** A call that returns has created its cache directory, and on loaded
    records has built the graph of all their distances. *)
Lemma generate_logistics_mst_made (P : provider) (b : bbox)
  (mode cache_dir : string) (output_file : option string) (d : dict) :
  generate_logistics_mst P b mode cache_dir output_file = Ok d ->
  makedirs P cache_dir = Ok tt.
Proof.
  unfold generate_logistics_mst.
  destruct (makedirs P cache_dir) as [[]|e]; [reflexivity | discriminate].
Qed.

Lemma generate_logistics_mst_built (P : provider) (b : bbox)
  (mode cache_dir : string) (output_file : option string) (d : dict)
  (gdf : list (facility R)) (coords_df : list (located_point R)) :
  generate_logistics_mst P b mode cache_dir output_file = Ok d ->
  load_logistics_features P b mode (Some (cache_file cache_dir mode)) = Ok gdf ->
  gdf <> [] ->
  extract_coordinates gdf = Ok coords_df ->
  build_geodesic_graph P coords_df = Ok (geodesic_graph coords_df).
Proof.
  unfold generate_logistics_mst. intros H Hl Hne Hx.
  destruct (makedirs P cache_dir) as [made|e]; [|discriminate].
  cbn [bind] in H. rewrite Hl in H. cbn [bind] in H.
  destruct gdf as [|row gdf]; [contradiction|].
  rewrite Hx in H. cbn [bind] in H.
  destruct (build_geodesic_graph P coords_df) as [G|e] eqn:Eb;
    [|discriminate].
  apply build_geodesic_graph_ok in Eb as [_ ->]. reflexivity.
Qed.

(* ================================================================== *)
(** ** Claims about the pipeline *)

(** The edges of the tree join two distinct rows of [coords_df] and carry
    the haversine distance of these rows. *)
Lemma mst_edge_geodesic (coords_df : list (located_point R)) (e : edge) :
  In e (edges (build_mst_graph (geodesic_graph coords_df))) ->
  exists row_i row_j,
    nth_error coords_df (edge_u e) = Some row_i /\
    nth_error coords_df (edge_v e) = Some row_j /\
    edge_u e < edge_v e /\ edge_v e < List.length coords_df /\
    weight e = haversine (lat row_i) (lon row_i) (lat row_j) (lon row_j).
Proof.
  intro He. rewrite build_mst_graph_eq in He. cbn [edges] in He.
  apply kruskal_loop_incl, in_sorted_geodesic in He.
  pose proof (geodesic_edges_canonical _ _ He) as [_ Hv].
  apply in_geodesic_edges in He as [i [j [ri [rj [Hi [Hj [Hlt ->]]]]]]].
  exists ri, rj. repeat split; auto.
Qed.

(** C1 (as the code has it): every edge of the returned sequence carries
    the geodesic weight of its endpoints, whatever the routing query
    answers, and the edges carry no status.  The sum of the segment lengths
    of a found route is the label drawn on the map for that edge (blue
    line); an edge without route is drawn gray with its haversine
    distance, computed once more, which for the edges of the tree is the
    call the Builder has already made without error. *)
Theorem returned_edges_keep_geodesic_weight (P : provider) (b : bbox)
  (mode cache_dir : string) (output_file : option string) (d : dict) :
  generate_logistics_mst P b mode cache_dir output_file = Ok d ->
  get d "status" = Some (VStr "ok") ->
  exists gdf coords_df G es,
    load_logistics_features P b mode (Some (cache_file cache_dir mode)) = Ok gdf /\
    extract_coordinates gdf = Ok coords_df /\
    build_geodesic_graph P coords_df = Ok G /\
    get d "edges" = Some (VEdges es) /\
    es = map edge_out_of (edges (build_mst_graph G)) /\
    (forall e, In e es ->
       exists row_i row_j,
         nth_error coords_df (from_index e) = Some row_i /\
         nth_error coords_df (to_index e) = Some row_j /\
         distance e
         = haversine (lat row_i) (lon row_i) (lat row_j) (lon row_j) /\
         sqrt_domain_error P (lat row_i) (lon row_i) (lat row_j) (lon row_j)
         = false) /\
    (forall (G_drive : network P) (df : list snapped_row) (u v : nat) (w : R)
            (ru rv : snapped_row),
       nth_error df u = Some ru -> nth_error df v = Some rv ->
       (forall route lengths,
          routing_found P G_drive (snd ru) (snd rv) route ->
          route_to_gdf P G_drive route = Ok lengths ->
          draw_edge P G_drive df (u, v, w)
          = Ok (routed_elements (fst ru) (fst rv) (sum_lengths lengths))) /\
       (routing_failed P G_drive (snd ru) (snd rv) ->
        sqrt_domain_error P (lat (fst ru)) (lon (fst ru))
                            (lat (fst rv)) (lon (fst rv)) = false ->
        draw_edge P G_drive df (u, v, w)
        = Ok (straight_elements (fst ru) (fst rv)))).
Proof.
  intros Hgen Hst.
  pose proof Hgen as Hret.
  apply generate_logistics_mst_returns in Hret
    as [[_ ->] | [gdf [coords_df [html [Hl [Hne [Hx [_ ->]]]]]]]];
    [discriminate|].
  pose proof (generate_logistics_mst_built _ _ _ _ _ _ _ _ Hgen Hl Hne Hx) as Hb.
  exists gdf, coords_df, (geodesic_graph coords_df), (map edge_out_of
    (edges (build_mst_graph (geodesic_graph coords_df)))).
  split; [exact Hl|]. split; [exact Hx|]. split; [exact Hb|].
  split; [reflexivity|]. split; [reflexivity|]. split.
  - intros e He. apply in_map_iff in He as [e0 [<- He0]].
    destruct (mst_edge_geodesic coords_df e0 He0)
      as [ri [rj [Hi [Hj [Hlt [_ Hw]]]]]].
    exists ri, rj. repeat split; auto.
    apply build_geodesic_graph_ok in Hb as [Hd _].
    exact (Hd _ _ _ _ Hi Hj Hlt).
  - intros G_drive df u v w ru rv Hu Hv. split.
    + intros route lengths Hf Hlen.
      rewrite (draw_edge_found P G_drive df u v w ru rv route Hu Hv Hf), Hlen.
      reflexivity.
    + now apply draw_edge_failed.
Qed.

Lemma sample_run :
  generate_logistics_mst routed_provider sample_bbox "auto" "cache" None
  = Ok sample_result.
Proof. reflexivity. Qed.

Lemma returned_edges_keep_geodesic_weight_witness :
  exists gdf coords_df G es,
    load_logistics_features routed_provider sample_bbox "auto"
      (Some (cache_file "cache" "auto")) = Ok gdf /\
    extract_coordinates gdf = Ok coords_df /\
    build_geodesic_graph routed_provider coords_df = Ok G /\
    get sample_result "edges" = Some (VEdges es) /\
    es = map edge_out_of (edges (build_mst_graph G)) /\
    (forall e, In e es ->
       exists row_i row_j,
         nth_error coords_df (from_index e) = Some row_i /\
         nth_error coords_df (to_index e) = Some row_j /\
         distance e
         = haversine (lat row_i) (lon row_i) (lat row_j) (lon row_j) /\
         sqrt_domain_error routed_provider
           (lat row_i) (lon row_i) (lat row_j) (lon row_j) = false) /\
    (forall (G_drive : network routed_provider) (df : list snapped_row)
            (u v : nat) (w : R) (ru rv : snapped_row),
       nth_error df u = Some ru -> nth_error df v = Some rv ->
       (forall route lengths,
          routing_found routed_provider G_drive (snd ru) (snd rv) route ->
          route_to_gdf routed_provider G_drive route = Ok lengths ->
          draw_edge routed_provider G_drive df (u, v, w)
          = Ok (routed_elements (fst ru) (fst rv) (sum_lengths lengths))) /\
       (routing_failed routed_provider G_drive (snd ru) (snd rv) ->
        sqrt_domain_error routed_provider (lat (fst ru)) (lon (fst ru))
                          (lat (fst rv)) (lon (fst rv)) = false ->
        draw_edge routed_provider G_drive df (u, v, w)
        = Ok (straight_elements (fst ru) (fst rv)))).
Proof.
  apply (returned_edges_keep_geodesic_weight routed_provider sample_bbox
           "auto" "cache" None sample_result); reflexivity.
Defined.

(** C1, counterexample: the road network joins the two snapped endpoints by
    a route of two nodes whose segments sum to 12 m, and the returned edge
    still weighs the geodesic distance, which is more than 110 km. *)
Lemma refined_weight_not_returned :
  generate_logistics_mst routed_provider sample_bbox "auto" "cache" None
  = Ok sample_result /\
  get sample_result "edges"
  = Some (VEdges [mkEdgeOut 0 1 (haversine 0 0 1 0)]) /\
  routing_found routed_provider tt 10 11 [10; 11] /\
  route_to_gdf routed_provider tt [10; 11] = Ok [5%R; 7%R] /\
  sum_lengths [5%R; 7%R] = 12%R /\
  distance (mkEdgeOut 0 1 (haversine 0 0 1 0)) <> sum_lengths [5%R; 7%R].
Proof.
  split; [reflexivity|]. split; [reflexivity|].
  split; [split; [reflexivity | simpl; lia]|].
  split; [reflexivity|].
  assert (E : sum_lengths [5%R; 7%R] = 12%R) by (unfold sum_lengths; simpl; lra).
  split; [exact E|].
  rewrite E. simpl. rewrite haversine_one_degree.
  pose proof PI_bounds. lra.
Qed.

(** C2, at the failing input: with no facility record the function returns
    the dict [{"status": "no_data", "message": ...}], which has no
    [nodes_count], [edges_count] or [total_distance] entry and whose status
    is not ["ok"]. *)
Theorem generate_logistics_mst_no_data :
  generate_logistics_mst empty_provider sample_bbox "auto" "cache" None
  = Ok no_data_result /\
  get no_data_result "status" = Some (VStr "no_data") /\
  get no_data_result "nodes_count" = None /\
  get no_data_result "edges_count" = None /\
  get no_data_result "total_distance" = None.
Proof. repeat split. Qed.

(** C3 (as the code has it): when the road network download raises,
    [visualize_mst_map] raises the same exception on every input, nothing is
    drawn with geodesic weights, and [generate_logistics_mst] returns no
    result for loaded records: all it can still return is the no-data dict
    of an empty load.  When the steps before the refiner succeed (the cache
    directory is made, the records are loaded and not empty, their
    coordinates extracted, the graph built), the pipeline raises that same
    exception. *)
Theorem network_outage_propagates (P : provider) (b : bbox) (e : exn) :
  graph_from_bbox P b "drive" = Raise e ->
  (forall coords_df mst mode out,
     visualize_mst_map P coords_df mst b mode out = Raise e) /\
  (forall mode cache_dir output_file d,
     generate_logistics_mst P b mode cache_dir output_file = Ok d ->
     load_logistics_features P b mode (Some (cache_file cache_dir mode)) = Ok [] /\
     d = no_data_result) /\
  (forall mode cache_dir output_file gdf coords_df G,
     makedirs P cache_dir = Ok tt ->
     load_logistics_features P b mode (Some (cache_file cache_dir mode)) = Ok gdf ->
     gdf <> [] ->
     extract_coordinates gdf = Ok coords_df ->
     build_geodesic_graph P coords_df = Ok G ->
     generate_logistics_mst P b mode cache_dir output_file = Raise e).
Proof.
  intro Hg.
  assert (Hv : forall coords_df mst mode out,
             visualize_mst_map P coords_df mst b mode out = Raise e).
  { intros coords_df mst mode out. unfold visualize_mst_map. now rewrite Hg. }
  split; [exact Hv|]. split.
  - intros mode cache_dir output_file d Hgen.
    apply generate_logistics_mst_returns in Hgen
      as [[Hl ->] | [gdf [coords_df [html [_ [_ [_ [Hh _]]]]]]]].
    + split; [exact Hl | reflexivity].
    + rewrite Hv in Hh. discriminate.
  - intros mode cache_dir output_file gdf coords_df G Hm Hl Hne Hx Hb.
    unfold generate_logistics_mst. rewrite Hm. cbn [bind].
    rewrite Hl. cbn [bind].
    destruct gdf as [|row gdf]; [contradiction|].
    rewrite Hx. cbn [bind]. rewrite Hb. cbn [bind]. now rewrite Hv.
Qed.

Lemma network_outage_propagates_witness :
  (forall coords_df mst mode out,
     visualize_mst_map outage_provider coords_df mst sample_bbox mode out
     = Raise (ProviderError "network download failed")) /\
  (forall mode cache_dir output_file d,
     generate_logistics_mst outage_provider sample_bbox mode cache_dir
                            output_file = Ok d ->
     load_logistics_features outage_provider sample_bbox mode
       (Some (cache_file cache_dir mode)) = Ok [] /\
     d = no_data_result) /\
  (forall mode cache_dir output_file gdf coords_df G,
     makedirs outage_provider cache_dir = Ok tt ->
     load_logistics_features outage_provider sample_bbox mode
       (Some (cache_file cache_dir mode)) = Ok gdf ->
     gdf <> [] ->
     extract_coordinates gdf = Ok coords_df ->
     build_geodesic_graph outage_provider coords_df = Ok G ->
     generate_logistics_mst outage_provider sample_bbox mode cache_dir
                            output_file
     = Raise (ProviderError "network download failed")).
Proof.
  apply (network_outage_propagates outage_provider sample_bbox
           (ProviderError "network download failed")).
  reflexivity.
Defined.

(** C3, counterexample: with the road network unreachable the pipeline
    returns nothing. *)
Lemma network_outage_fails_pipeline :
  graph_from_bbox outage_provider sample_bbox "drive"
  = Raise (ProviderError "network download failed") /\
  generate_logistics_mst outage_provider sample_bbox "auto" "cache" None
  = Raise (ProviderError "network download failed") /\
  ~ returns (generate_logistics_mst outage_provider sample_bbox "auto"
               "cache" None).
Proof.
  split; [reflexivity|]. split; [reflexivity|].
  intros [d Hd]. discriminate Hd.
Qed.

(** C4 (as the code has it): once the road network is downloaded and the
    points are snapped (one call for all points, before the loop and outside
    any [try]), a failure of the routing query of an edge (an exception, no
    path, a path of fewer than two nodes) is absorbed: the refiner returns,
    every edge is drawn from its own routing outcome alone, and a failing
    edge is drawn with its geodesic distance.  Outside the [try], and
    assumed to answer, are [route_to_gdf] on found routes, the call of
    [haversine] for the edges of the tree and the final [m.save]. *)
Theorem routing_failures_absorbed (P : provider)
  (coords_df : list (located_point R)) (mst : Graph) (b : bbox)
  (mode output_file : string) (G_drive : network P) (osm : list nat) :
  coords_df <> [] ->
  graph_from_bbox P b "drive" = Ok G_drive ->
  nearest_nodes P G_drive (map lon coords_df) (map lat coords_df) = Ok osm ->
  List.length osm = List.length coords_df ->
  (forall e, In e (edges mst) ->
     edge_u e < List.length coords_df /\ edge_v e < List.length coords_df) ->
  (forall route, 2 <= List.length route ->
                 returns (route_to_gdf P G_drive route)) ->
  (forall e row_u row_v, In e (edges mst) ->
     nth_error coords_df (edge_u e) = Some row_u ->
     nth_error coords_df (edge_v e) = Some row_v ->
     sqrt_domain_error P (lat row_u) (lon row_u) (lat row_v) (lon row_v)
     = false) ->
  (forall m, returns (save P m output_file)) ->
  let df := combine coords_df osm in
  exists drawn,
    visualize_mst_map P coords_df mst b mode output_file
    = Ok (output_file,
          mkMap ((bbox1 b + bbox3 b) / 2, (bbox0 b + bbox2 b) / 2)%R
                (circle_markers P coords_df ++ List.concat drawn)) /\
    Forall2 (fun e d => draw_edge P G_drive df e = Ok d) (edges mst) drawn /\
    (forall e ru rv,
       In e (edges mst) ->
       nth_error df (edge_u e) = Some ru -> nth_error df (edge_v e) = Some rv ->
       routing_failed P G_drive (snd ru) (snd rv) ->
       draw_edge P G_drive df e = Ok (straight_elements (fst ru) (fst rv))).
Proof.
  intros Hne Hg Hn Hlen Hr Hgdf Hsq Hsave df.
  assert (Hfail : forall e ru rv,
             In e (edges mst) ->
             nth_error df (edge_u e) = Some ru ->
             nth_error df (edge_v e) = Some rv ->
             routing_failed P G_drive (snd ru) (snd rv) ->
             draw_edge P G_drive df e = Ok (straight_elements (fst ru) (fst rv))).
  { intros [[u v] w] ru rv He Hu Hv Hf.
    unfold edge_u, edge_v in Hu, Hv; simpl in Hu, Hv.
    apply (draw_edge_failed P G_drive df u v w ru rv Hu Hv Hf).
    destruct (Hr _ He) as [Hu' Hv'].
    unfold edge_u, edge_v in Hu', Hv'; simpl in Hu', Hv'.
    destruct (nth_error_combine_snap coords_df osm u Hlen Hu') as [ru' [Eu Cu]].
    destruct (nth_error_combine_snap coords_df osm v Hlen Hv') as [rv' [Ev Cv]].
    fold df in Eu, Ev. unfold snapped_row in *.
    rewrite Hu in Eu. rewrite Hv in Ev.
    injection Eu as <-. injection Ev as <-.
    exact (Hsq (u, v, w) (fst ru) (fst rv) He Cu Cv). }
  assert (Hdraw : forall e, In e (edges mst) ->
                            returns (draw_edge P G_drive df e)).
  { intros [[u v] w] He. destruct (Hr _ He) as [Hu Hv].
    unfold edge_u, edge_v in Hu, Hv; simpl in Hu, Hv.
    destruct (nth_error_combine_snap coords_df osm u Hlen Hu) as [ru [Eu _]].
    destruct (nth_error_combine_snap coords_df osm v Hlen Hv) as [rv [Ev _]].
    destruct (route_ok_cases P G_drive (snd ru) (snd rv)) as [Hf | [route Hf]].
    - eexists. exact (Hfail (u, v, w) ru rv He Eu Ev Hf).
    - rewrite (draw_edge_found P G_drive df u v w ru rv route Eu Ev Hf).
      destruct (Hgdf route (proj2 Hf)) as [lengths ->].
      eexists. reflexivity. }
  destruct (draw_edges_all P G_drive df (edges mst) Hdraw) as [drawn [Hd Hall]].
  exists drawn. split; [|split; [exact Hall | exact Hfail]].
  unfold visualize_mst_map. rewrite Hg. cbn [bind].
  unfold df in Hd.
  destruct coords_df as [|row rest]; [contradiction|].
  rewrite Hn. cbn [bind]. unfold assign_osm_node.
  rewrite Hlen, Nat.eqb_refl. cbn [bind]. rewrite Hd. cbn [bind].
  destruct (Hsave (mkMap ((bbox1 b + bbox3 b) / 2, (bbox0 b + bbox2 b) / 2)%R
                         (circle_markers P (row :: rest)
                          ++ List.concat drawn))) as [saved ->].
  reflexivity.
Qed.

Lemma routing_failures_absorbed_witness :
  let df := combine sample_coords3 [10; 11; 12] in
  exists drawn,
    visualize_mst_map mixed_provider sample_coords3 sample_tree3 sample_bbox
                      "auto" "map.html"
    = Ok ("map.html",
          mkMap ((bbox1 sample_bbox + bbox3 sample_bbox) / 2,
                 (bbox0 sample_bbox + bbox2 sample_bbox) / 2)%R
                (circle_markers mixed_provider sample_coords3
                 ++ List.concat drawn)) /\
    Forall2 (fun e d => draw_edge mixed_provider tt df e = Ok d)
            (edges sample_tree3) drawn /\
    (forall e ru rv,
       In e (edges sample_tree3) ->
       nth_error df (edge_u e) = Some ru -> nth_error df (edge_v e) = Some rv ->
       routing_failed mixed_provider tt (snd ru) (snd rv) ->
       draw_edge mixed_provider tt df e
       = Ok (straight_elements (fst ru) (fst rv))).
Proof.
  apply (routing_failures_absorbed mixed_provider sample_coords3 sample_tree3
           sample_bbox "auto" "map.html" tt [10; 11; 12]).
  - discriminate.
  - reflexivity.
  - reflexivity.
  - reflexivity.
  - intros e [<- | [<- | []]]; split;
      unfold edge_u, edge_v, sample_coords3, sample_coords; simpl; lia.
  - intros route _. exists [5%R; 7%R]. reflexivity.
  - reflexivity.
  - intro m. exists tt. reflexivity.
Defined.

(** On the three sample points the edge whose query raises is drawn gray
    with its haversine distance and the other edge blue with the 12 m of
    its route. *)
Lemma mixed_drawing :
  draw_edges mixed_provider tt (combine sample_coords3 [10; 11; 12])
             (edges sample_tree3)
  = Ok (straight_elements (mkPoint 0%R 0%R (to_dict facility_a))
                          (mkPoint 1%R 0%R (to_dict facility_b))
        ++ routed_elements (mkPoint 1%R 0%R (to_dict facility_b))
                           (mkPoint 2%R 0%R []) (sum_lengths [5%R; 7%R])).
Proof. reflexivity. Qed.

(** C4, counterexample: a failure of the nearest-node query is not absorbed;
    the refiner raises to its caller, and so does the pipeline. *)
Lemma snapping_failure_raises :
  nearest_nodes snap_fail_provider tt (map lon sample_coords)
                (map lat sample_coords)
  = Raise (ProviderError "nearest_nodes failed") /\
  visualize_mst_map snap_fail_provider sample_coords sample_mst sample_bbox
                    "auto" "map.html"
  = Raise (ProviderError "nearest_nodes failed") /\
  generate_logistics_mst snap_fail_provider sample_bbox "auto" "cache" None
  = Raise (ProviderError "nearest_nodes failed").
Proof. repeat split. Qed.

(** C7 (as the code has it): the extractor checks nothing and drops
    nothing.  When it returns, it returns one point per record, in input
    order, holding the coordinates of the geometry (or of its centroid) as
    they are and the row as its tags, so a non-finite or out-of-range
    coordinate enters the output; it raises only on a geometry that is
    neither point, polygon nor multipolygon. *)
Theorem extract_coordinates_copies (C : Type) (gdf : list (facility C)) :
  match extract_coordinates gdf with
  | Ok coords =>
      Forall2 (fun row p =>
                 resolve_yx (fac_geometry row) = Ok (lat p, lon p) /\
                 tags p = to_dict row)
              gdf coords
  | Raise e =>
      exists row, In row gdf /\
                  is_polygonal (geom_type (fac_geometry row)) = false /\
                  xy (fac_geometry row) = None /\
                  resolve_yx (fac_geometry row) = Raise e
  end.
Proof.
  induction gdf as [|row gdf IH]; simpl; [constructor|].
  destruct (resolve_yx (fac_geometry row)) as [[y x]|e] eqn:Er; simpl.
  - destruct (extract_coordinates gdf) as [coords|e]; simpl.
    + constructor; [split; [exact Er | reflexivity] | exact IH].
    + destruct IH as [r [Hin Hr]]. exists r. split; [now right | exact Hr].
  - exists row. split; [now left|].
    pose proof Er as Er'. unfold resolve_yx in Er'.
    destruct (is_polygonal (geom_type (fac_geometry row))) eqn:Ep;
      [discriminate|].
    destruct (xy (fac_geometry row)) as [[x y]|] eqn:Exy; [discriminate|].
    repeat split. exact Er.
Qed.

(** C7, counterexample: a point facility whose latitude is NaN and one
    whose latitude is 100 come out of the extractor as points with these
    very coordinates; nothing is dropped and nothing fails. *)
Lemma extract_coordinates_keeps_nan :
  extract_coordinates [nan_facility; far_facility]
  = Ok [mkPoint nan 30.5%float (to_dict nan_facility);
        mkPoint 100%float 200%float (to_dict far_facility)] /\
  PrimFloat.is_nan (lat (mkPoint nan 30.5%float (to_dict nan_facility))) = true /\
  valid_point (mkPoint nan 30.5%float (to_dict nan_facility)) = false /\
  valid_point (mkPoint 100%float 200%float (to_dict far_facility)) = false.
Proof. repeat split. Qed.

(** C10: a result with status ["ok"] is consistent: [nodes_count] and
    [edges_count] are the lengths of [points] and [edges],
    [total_distance] is the sum of the [distance] fields in order, and the
    two indices of every edge are distinct and below [nodes_count]. *)
Theorem generate_logistics_mst_consistent (P : provider) (b : bbox)
  (mode cache_dir : string) (output_file : option string) (d : dict) :
  generate_logistics_mst P b mode cache_dir output_file = Ok d ->
  get d "status" = Some (VStr "ok") ->
  exists points es,
    get d "points" = Some (VPoints points) /\
    get d "edges" = Some (VEdges es) /\
    get d "nodes_count" = Some (VInt (List.length points)) /\
    get d "edges_count" = Some (VInt (List.length es)) /\
    get d "total_distance" = Some (VFloat (sum_lengths (map distance es))) /\
    (forall e, In e es ->
       from_index e <> to_index e /\
       from_index e < List.length points /\
       to_index e < List.length points).
Proof.
  intros Hgen Hst.
  apply generate_logistics_mst_returns in Hgen
    as [[_ ->] | [gdf [coords_df [html [_ [_ [_ [_ ->]]]]]]]];
    [discriminate|].
  set (mst := build_mst_graph (geodesic_graph coords_df)).
  exists (assemble_points coords_df), (map edge_out_of (edges mst)).
  split; [reflexivity|]. split; [reflexivity|]. split; [reflexivity|].
  split; [reflexivity|]. split.
  - cbn [get full_result]. simpl String.eqb. cbv iota.
    do 2 f_equal. rewrite map_map. reflexivity.
  - intros e He. apply in_map_iff in He as [e0 [<- He0]].
    destruct (mst_edge_geodesic coords_df e0 He0)
      as [ri [rj [_ [_ [Hlt [Hv _]]]]]].
    unfold assemble_points. rewrite length_map. simpl. lia.
Qed.

Lemma generate_logistics_mst_consistent_witness :
  exists points es,
    get sample_result "points" = Some (VPoints points) /\
    get sample_result "edges" = Some (VEdges es) /\
    get sample_result "nodes_count" = Some (VInt (List.length points)) /\
    get sample_result "edges_count" = Some (VInt (List.length es)) /\
    get sample_result "total_distance"
    = Some (VFloat (sum_lengths (map distance es))) /\
    (forall e, In e es ->
       from_index e <> to_index e /\
       from_index e < List.length points /\
       to_index e < List.length points).
Proof.
  apply (generate_logistics_mst_consistent routed_provider sample_bbox "auto"
           "cache" None sample_result); reflexivity.
Defined.

(* ================================================================== *)
(** * Further properties *)

(** ** More on the haversine distance *)

Section HaversineMore.

Local Open Scope R_scope.

Lemma haversine_a_sym (lat1 lon1 lat2 lon2 : R) :
  haversine_a lat1 lon1 lat2 lon2 = haversine_a lat2 lon2 lat1 lon1.
Proof.
  unfold haversine_a. rewrite !sin_half_sq.
  replace (radians (lat1 - lat2)) with (- radians (lat2 - lat1))
    by (unfold radians; lra).
  replace (radians (lon1 - lon2)) with (- radians (lon2 - lon1))
    by (unfold radians; lra).
  rewrite !cos_neg. lra.
Qed.

Lemma haversine_swap (lat1 lon1 lat2 lon2 : R) :
  haversine lat1 lon1 lat2 lon2 = haversine lat2 lon2 lat1 lon1.
Proof.
  unfold haversine. now rewrite haversine_a_sym.
Qed.

(** X1: the distance does not depend on the order of the two points, and
    neither does the quantity [a] under the square roots. *)
Theorem haversine_sym (lat1 lon1 lat2 lon2 : R) :
  haversine_a lat1 lon1 lat2 lon2 = haversine_a lat2 lon2 lat1 lon1 /\
  haversine lat1 lon1 lat2 lon2 = haversine lat2 lon2 lat1 lon1.
Proof.
  split; [apply haversine_a_sym | apply haversine_swap].
Qed.

Lemma atan2_le_PI2 (y x : R) : 0 <= y -> 0 <= x -> atan2 y x <= PI / 2.
Proof.
  intros Hy Hx. unfold atan2. pose proof PI_RGT_0 as Hpi.
  destruct (Rlt_dec 0 x) as [Px|Nx].
  - left. apply atan_bound.
  - destruct (Rlt_dec x 0) as [Lx|_]; [lra|].
    destruct (Rlt_dec 0 y) as [Py|_]; [lra|].
    destruct (Rlt_dec y 0) as [Ly|_]; lra.
Qed.

Lemma haversine_le_half_circumference (lat1 lon1 lat2 lon2 : R) :
  haversine lat1 lon1 lat2 lon2 <= PI * 6371000.
Proof.
  unfold haversine.
  pose proof (atan2_le_PI2
                (sqrt (haversine_a lat1 lon1 lat2 lon2))
                (sqrt (1 - haversine_a lat1 lon1 lat2 lon2))
                (sqrt_pos _) (sqrt_pos _)).
  lra.
Qed.

(** X2: a call of [haversine] raises exactly when a square root leaves its
    domain, and then a ValueError; a distance it returns is the value of the
    formula and lies between 0 and half the circumference of the sphere,
    [PI * 6371000] metres. *)
Theorem haversine_call_bounds (P : provider) (lat1 lon1 lat2 lon2 : R) :
  (raises (haversine_call P lat1 lon1 lat2 lon2)
   <-> sqrt_domain_error P lat1 lon1 lat2 lon2 = true) /\
  (forall e, haversine_call P lat1 lon1 lat2 lon2 = Raise e ->
             exists msg, e = ValueError msg) /\
  (forall d, haversine_call P lat1 lon1 lat2 lon2 = Ok d ->
             d = haversine lat1 lon1 lat2 lon2 /\ 0 <= d <= PI * 6371000).
Proof.
  split; [|split].
  - split.
    + intros [e He]. now apply haversine_call_raise in He.
    + intro Hs. unfold haversine_call. rewrite Hs. eexists. reflexivity.
  - intros e He. apply haversine_call_raise in He as [_ ->].
    eexists. reflexivity.
  - intros d Hd. apply haversine_call_ok in Hd as [_ ->].
    split; [reflexivity|].
    split; [apply haversine_nonneg | apply haversine_le_half_circumference].
Qed.

Lemma atan2_sin_cos_quarter (x : R) :
  0 <= x <= PI / 2 -> atan2 (sin x) (cos x) = x.
Proof.
  intros [H0 [Hlt | ->]].
  - apply atan2_sin_cos. pose proof PI_RGT_0. lra.
  - rewrite sin_PI2, cos_PI2. unfold atan2.
    destruct (Rlt_dec 0 0) as [F|_]; [lra|].
    destruct (Rlt_dec 0 1) as [_|F]; [reflexivity | lra].
Qed.

(** When [a] is the squared sine of a half-angle in the first quadrant, the
    formula gives back twice that half-angle times the radius. *)
Lemma great_circle_of_half_angle (a x : R) :
  0 <= x <= PI / 2 -> a = sin x ^ 2 ->
  2 * 6371000 * atan2 (sqrt a) (sqrt (1 - a)) = 2 * 6371000 * x.
Proof.
  intros Hx ->.
  assert (Hs : 0 <= sin x) by (apply sin_ge_0; pose proof PI_RGT_0; lra).
  assert (Hc : 0 <= cos x) by (apply cos_ge_0; pose proof PI_RGT_0; lra).
  replace (1 - sin x ^ 2) with (cos x ^ 2).
  2:{ pose proof (sin2_cos2 x) as E. unfold Rsqr in E. lra. }
  rewrite !sqrt_pow2 by assumption.
  now rewrite atan2_sin_cos_quarter.
Qed.

Lemma haversine_meridian_up (lat1 lat2 lon0 : R) :
  0 <= lat2 - lat1 <= 180 ->
  haversine lat1 lon0 lat2 lon0 = 6371000 * PI / 180 * (lat2 - lat1).
Proof.
  intros Hd. pose proof PI_RGT_0 as Hpi.
  unfold haversine.
  rewrite (great_circle_of_half_angle _ (radians (lat2 - lat1) / 2)).
  - unfold radians. lra.
  - unfold radians. split; nra.
  - unfold haversine_a.
    replace (lon0 - lon0) with 0 by lra.
    rewrite radians_0. replace (0 / 2) with 0 by lra.
    rewrite sin_0. lra.
Qed.

Lemma haversine_equator_up (lon1 lon2 : R) :
  0 <= lon2 - lon1 <= 180 ->
  haversine 0 lon1 0 lon2 = 6371000 * PI / 180 * (lon2 - lon1).
Proof.
  intros Hd. pose proof PI_RGT_0 as Hpi.
  unfold haversine.
  rewrite (great_circle_of_half_angle _ (radians (lon2 - lon1) / 2)).
  - unfold radians. lra.
  - unfold radians. split; nra.
  - unfold haversine_a.
    replace (0 - 0) with 0 by lra.
    rewrite radians_0. replace (0 / 2) with 0 by lra.
    rewrite sin_0, cos_0. lra.
Qed.

(** X3: along a meridian the distance is proportional to the difference
    of latitude, [6371000 * PI / 180] metres (about 111.19 km) per degree,
    up to half a turn. *)
Theorem haversine_meridian (lat1 lat2 lon0 : R) :
  Rabs (lat2 - lat1) <= 180 ->
  haversine lat1 lon0 lat2 lon0 = 6371000 * PI / 180 * Rabs (lat2 - lat1).
Proof.
  intro H. destruct (Rle_dec lat1 lat2) as [L|N].
  - rewrite Rabs_pos_eq in * by lra. apply haversine_meridian_up. lra.
  - rewrite Rabs_left in * by lra. rewrite haversine_swap.
    rewrite haversine_meridian_up; lra.
Qed.

Lemma haversine_meridian_witness :
  Rabs (3 - 1) <= 180 /\
  haversine 1 0 3 0 = 6371000 * PI / 180 * Rabs (3 - 1).
Proof.
  assert (H : Rabs (3 - 1) <= 180) by (rewrite Rabs_pos_eq; lra).
  split; [exact H | apply (haversine_meridian 1 3 0 H)].
Defined.

(** X4: along the equator the distance is proportional to the difference
    of longitude, at the same rate, up to half a turn. *)
Theorem haversine_equator (lon1 lon2 : R) :
  Rabs (lon2 - lon1) <= 180 ->
  haversine 0 lon1 0 lon2 = 6371000 * PI / 180 * Rabs (lon2 - lon1).
Proof.
  intro H. destruct (Rle_dec lon1 lon2) as [L|N].
  - rewrite Rabs_pos_eq in * by lra. apply haversine_equator_up. lra.
  - rewrite Rabs_left in * by lra. rewrite haversine_swap.
    rewrite haversine_equator_up; lra.
Qed.

Lemma haversine_equator_witness :
  Rabs (30 - 50) <= 180 /\
  haversine 0 50 0 30 = 6371000 * PI / 180 * Rabs (30 - 50).
Proof.
  assert (H : Rabs (30 - 50) <= 180) by (rewrite Rabs_left; lra).
  split; [exact H | apply (haversine_equator 50 30 H)].
Defined.

End HaversineMore.

(* ================================================================== *)
(** ** Loading and extracting *)

(** X5: an unknown mode is refused before any record is asked for:
    whatever the provider and the cache path, [load_logistics_features]
    raises a ValueError; [generate_logistics_mst] never returns, and raises
    a ValueError once its cache directory is made. *)
Theorem unknown_mode_raises (P : provider) (b : bbox)
  (mode cache_dir : string) (cache_path output_file : option string) :
  ~ known_mode (lower mode) ->
  (exists msg,
     load_logistics_features P b mode cache_path = Raise (ValueError msg)) /\
  ~ returns (generate_logistics_mst P b mode cache_dir output_file) /\
  (makedirs P cache_dir = Ok tt ->
   exists msg,
     generate_logistics_mst P b mode cache_dir output_file
     = Raise (ValueError msg)).
Proof.
  intro Hn.
  destruct (get_default_tags_cases mode) as [[K _] | [_ E]]; [contradiction|].
  assert (Hl : forall path,
             load_logistics_features P b mode path
             = Raise (ValueError ("Неизвестный мод: " ++ lower mode)%string)).
  { intro path. unfold load_logistics_features. now rewrite E. }
  split; [eexists; apply Hl|]. split.
  - intros [d Hd]. unfold generate_logistics_mst in Hd.
    destruct (makedirs P cache_dir); [|discriminate].
    cbn [bind] in Hd. rewrite Hl in Hd. discriminate.
  - intro Hm. eexists. unfold generate_logistics_mst.
    rewrite Hm. cbn [bind]. rewrite Hl. reflexivity.
Qed.

Lemma unknown_mode_raises_witness :
  (exists msg,
     load_logistics_features routed_provider sample_bbox "Truck" None
     = Raise (ValueError msg)) /\
  ~ returns (generate_logistics_mst routed_provider sample_bbox "Truck"
               "cache" None) /\
  (makedirs routed_provider "cache" = Ok tt ->
   exists msg,
     generate_logistics_mst routed_provider sample_bbox "Truck" "cache" None
     = Raise (ValueError msg)).
Proof.
  apply (unknown_mode_raises routed_provider sample_bbox "Truck" "cache"
           None None).
  unfold known_mode. simpl.
  intros [H | [H | [H | H]]]; discriminate H.
Defined.

(** X6: extracting a concatenation is extracting both parts in turn: the
    points of the first part followed by the points of the second, and the
    first failure if there is one. *)
Theorem extract_coordinates_app (C : Type) (gdf1 gdf2 : list (facility C)) :
  extract_coordinates (gdf1 ++ gdf2)
  = (coords1 <- extract_coordinates gdf1 ;;
     coords2 <- extract_coordinates gdf2 ;;
     Ok (coords1 ++ coords2)).
Proof.
  induction gdf1 as [|row gdf1 IH]; simpl.
  - destruct (extract_coordinates gdf2); reflexivity.
  - destruct (resolve_yx (fac_geometry row)) as [yx|e]; simpl; [|reflexivity].
    rewrite IH.
    destruct (extract_coordinates gdf1) as [c1|e]; simpl; [|reflexivity].
    destruct (extract_coordinates gdf2) as [c2|e]; reflexivity.
Qed.

Lemma extract_coordinates_rows (C : Type) (gdf : list (facility C))
  (coords : list (located_point C)) :
  extract_coordinates gdf = Ok coords ->
  Forall2 (fun row p =>
             resolve_yx (fac_geometry row) = Ok (lat p, lon p) /\
             tags p = to_dict row)
          gdf coords.
Proof.
  revert coords. induction gdf as [|row gdf IH]; intros coords H; simpl in H.
  - injection H as <-. constructor.
  - destruct (resolve_yx (fac_geometry row)) as [[y x]|e] eqn:Er;
      [|discriminate].
    simpl in H. destruct (extract_coordinates gdf) as [c|e]; [|discriminate].
    simpl in H. injection H as <-.
    constructor; [split; [exact Er | reflexivity] | now apply IH].
Qed.

(* ================================================================== *)
(** ** The points and tags of the result *)

Lemma clean_tags_filter_map (items : list (string * cell)) :
  clean_tags items
  = map (fun kv => (fst kv, clean_cell (snd kv)))
        (filter not_geometry_key items).
Proof.
  induction items as [|[k v] items IH]; [reflexivity|].
  simpl. unfold not_geometry_key at 1. simpl.
  destruct (k =? "geometry")%string; simpl; [exact IH|].
  rewrite <- IH. destruct v; reflexivity.
Qed.

(** X7: the tags of a result point are the attribute columns of its
    record, in their order, without any column named ["geometry"] (the one
    [to_dict] adds included); a missing value becomes an explicit [None] and
    any other value its string, so no other key disappears. *)
Theorem clean_tags_of_row (C : Type) (row : facility C) :
  clean_tags (to_dict row)
  = map (fun kv => (fst kv, clean_cell (snd kv)))
        (filter not_geometry_key (fac_attributes row)) /\
  ~ In "geometry" (map fst (clean_tags (to_dict row))) /\
  (forall k v, In (k, v) (fac_attributes row) -> k <> "geometry" ->
               In (k, clean_cell v) (clean_tags (to_dict row))).
Proof.
  assert (E : clean_tags (to_dict row)
              = map (fun kv => (fst kv, clean_cell (snd kv)))
                    (filter not_geometry_key (fac_attributes row))).
  { rewrite clean_tags_filter_map. unfold to_dict.
    rewrite filter_app. simpl. now rewrite app_nil_r. }
  split; [exact E|]. rewrite E. split.
  - rewrite map_map. simpl. intro Hin.
    apply in_map_iff in Hin as [[k v] [Hk Hf]]. simpl in Hk. subst k.
    apply filter_In in Hf as [_ Hf]. discriminate Hf.
  - intros k v Hin Hk. apply in_map_iff. exists (k, v). split; [reflexivity|].
    apply filter_In. split; [exact Hin|].
    unfold not_geometry_key. simpl.
    destruct (String.eqb_spec k "geometry"); [contradiction | reflexivity].
Qed.

(** X8: in a result with status ["ok"] there is one point per loaded
    record, in the order of the records: [nodes_count] is the number of
    records, and point [i] holds the coordinates resolved from record [i]
    and its cleaned tags. *)
Theorem result_points_mirror_records (P : provider) (b : bbox)
  (mode cache_dir : string) (output_file : option string) (d : dict) :
  generate_logistics_mst P b mode cache_dir output_file = Ok d ->
  get d "status" = Some (VStr "ok") ->
  exists gdf points,
    load_logistics_features P b mode (Some (cache_file cache_dir mode)) = Ok gdf /\
    get d "points" = Some (VPoints points) /\
    get d "nodes_count" = Some (VInt (List.length gdf)) /\
    Forall2 (fun row p =>
               resolve_yx (fac_geometry row) = Ok (out_lat p, out_lon p) /\
               out_tags p = clean_tags (to_dict row))
            gdf points.
Proof.
  intros Hgen Hst.
  apply generate_logistics_mst_returns in Hgen
    as [[_ ->] | [gdf [coords_df [html [Hl [_ [Hx [_ ->]]]]]]]];
    [discriminate|].
  apply extract_coordinates_rows in Hx.
  exists gdf, (assemble_points coords_df).
  split; [exact Hl|]. split; [reflexivity|].
  assert (Hlen : List.length coords_df = List.length gdf)
    by (symmetry; exact (Forall2_length Hx)).
  split.
  - cbn [get full_result]. simpl String.eqb. cbv iota.
    unfold assemble_points. now rewrite length_map, Hlen.
  - unfold assemble_points. clear Hlen Hl Hst.
    induction Hx as [|row p gdf coords [Hr Ht] _ IH]; [constructor|].
    simpl. constructor; [|exact IH]. simpl. now rewrite Ht.
Qed.

Lemma result_points_mirror_records_witness :
  exists gdf points,
    load_logistics_features routed_provider sample_bbox "auto"
      (Some (cache_file "cache" "auto")) = Ok gdf /\
    get sample_result "points" = Some (VPoints points) /\
    get sample_result "nodes_count" = Some (VInt (List.length gdf)) /\
    Forall2 (fun row p =>
               resolve_yx (fac_geometry row) = Ok (out_lat p, out_lon p) /\
               out_tags p = clean_tags (to_dict row))
            gdf points.
Proof.
  apply (result_points_mirror_records routed_provider sample_bbox "auto"
           "cache" None sample_result); reflexivity.
Defined.

(* ================================================================== *)
(** ** The shape of the result *)

Lemma mst_edges_length (coords_df : list (located_point R)) :
  List.length (edges (build_mst_graph (geodesic_graph coords_df)))
  = List.length coords_df - 1.
Proof.
  rewrite build_mst_graph_eq. cbn [edges].
  destruct (Nat.eq_dec (List.length coords_df) 0) as [E0 | Hpos].
  - rewrite (geodesic_edges_nil coords_df) by lia. simpl. lia.
  - apply (kruskal_length (List.length coords_df))
      with (S := sorted_by_weight (geodesic_edges coords_df)).
    + lia.
    + apply sorted_geodesic_range.
    + apply incl_refl.
    + apply geodesic_edges_spanning.
Qed.

Lemma fold_left_Rplus_nonneg (l : list R) (a : R) :
  (0 <= a)%R -> (forall x, In x l -> (0 <= x)%R) ->
  (0 <= fold_left Rplus l a)%R.
Proof.
  revert a. induction l as [|x l IH]; intros a Ha Hl; [exact Ha|].
  simpl. apply IH.
  - specialize (Hl x (or_introl eq_refl)). lra.
  - intros y Hy. apply Hl. now right.
Qed.

(** X9: a result with status ["ok"] is a tree over its points:
    [edges_count] is [nodes_count - 1], every edge goes from a lower to a
    higher index, no distance is negative and neither is
    [total_distance]. *)
Theorem result_is_tree_shaped (P : provider) (b : bbox)
  (mode cache_dir : string) (output_file : option string) (d : dict) :
  generate_logistics_mst P b mode cache_dir output_file = Ok d ->
  get d "status" = Some (VStr "ok") ->
  exists n es total,
    get d "nodes_count" = Some (VInt n) /\
    get d "edges_count" = Some (VInt (n - 1)) /\
    get d "edges" = Some (VEdges es) /\
    get d "total_distance" = Some (VFloat total) /\
    1 <= n /\ List.length es = n - 1 /\
    (forall e, In e es -> from_index e < to_index e /\ (0 <= distance e)%R) /\
    (0 <= total)%R.
Proof.
  intros Hgen Hst.
  apply generate_logistics_mst_returns in Hgen
    as [[_ ->] | [gdf [coords_df [html [_ [Hne [Hx [_ ->]]]]]]]];
    [discriminate|].
  set (mst := build_mst_graph (geodesic_graph coords_df)).
  assert (Hlen : List.length (map edge_out_of (edges mst))
                 = List.length coords_df - 1)
    by (rewrite length_map; apply mst_edges_length).
  assert (Hw : forall e, In e (edges mst) -> (0 <= weight e)%R).
  { intros e He. destruct (mst_edge_geodesic coords_df e He)
      as [ri [rj [_ [_ [_ [_ ->]]]]]]. apply haversine_nonneg. }
  exists (List.length coords_df), (map edge_out_of (edges mst)),
    (sum_lengths (map weight (edges mst))).
  split.
  { cbn [get full_result]. simpl String.eqb. cbv iota.
    unfold assemble_points. now rewrite length_map. }
  split.
  { cbn [get full_result]. simpl String.eqb. cbv iota. now rewrite Hlen. }
  split; [reflexivity|]. split; [reflexivity|].
  split.
  { apply extract_coordinates_rows, Forall2_length in Hx.
    destruct gdf; [contradiction | simpl in Hx; lia]. }
  split; [exact Hlen|]. split.
  - intros e He. apply in_map_iff in He as [e0 [<- He0]].
    destruct (mst_edge_geodesic coords_df e0 He0)
      as [ri [rj [_ [_ [Hlt _]]]]].
    split; [exact Hlt | now apply Hw].
  - apply fold_left_Rplus_nonneg; [apply Rle_refl|].
    intros x Hx'. apply in_map_iff in Hx' as [e [<- He]]. now apply Hw.
Qed.

Lemma result_is_tree_shaped_witness :
  exists n es total,
    get sample_result "nodes_count" = Some (VInt n) /\
    get sample_result "edges_count" = Some (VInt (n - 1)) /\
    get sample_result "edges" = Some (VEdges es) /\
    get sample_result "total_distance" = Some (VFloat total) /\
    1 <= n /\ List.length es = n - 1 /\
    (forall e, In e es -> from_index e < to_index e /\ (0 <= distance e)%R) /\
    (0 <= total)%R.
Proof.
  apply (result_is_tree_shaped routed_provider sample_bbox "auto" "cache" None
           sample_result); reflexivity.
Defined.

Lemma visualize_mst_map_path (P : provider)
  (coords_df : list (located_point R)) (mst : Graph) (b : bbox)
  (mode output_file : string) (html : string * folium_map) :
  visualize_mst_map P coords_df mst b mode output_file = Ok html ->
  fst html = output_file.
Proof.
  unfold visualize_mst_map.
  destruct (graph_from_bbox P b "drive") as [G|e]; [|discriminate].
  cbn [bind]. destruct coords_df as [|row rest]; [discriminate|].
  destruct (nearest_nodes P G _ _) as [osm|e]; [|discriminate].
  cbn [bind]. destruct (assign_osm_node (row :: rest) osm) as [df|e];
    [|discriminate].
  cbn [bind]. destruct (draw_edges P G df (edges mst)) as [drawn|e];
    [|discriminate].
  cbn [bind]. destruct (save P _ output_file) as [saved|e]; [|discriminate].
  cbn [bind]. intro E. injection E as <-. reflexivity.
Qed.

Lemma generate_logistics_mst_loaded (P : provider) (b : bbox)
  (mode cache_dir : string) (output_file : option string) (d : dict) (e : exn) :
  generate_logistics_mst P b mode cache_dir output_file = Ok d ->
  load_logistics_features P b mode (Some (cache_file cache_dir mode))
  <> Raise e.
Proof.
  intros Hgen Hl.
  apply generate_logistics_mst_returns in Hgen
    as [[Hl' _] | [gdf [coords_df [html [Hl' _]]]]]; congruence.
Qed.

(** What a call that returns with records returns. *)
Lemma generate_logistics_mst_value (P : provider) (b : bbox)
  (mode cache_dir : string) (output_file : option string) (d : dict)
  (gdf : list (facility R)) :
  generate_logistics_mst P b mode cache_dir output_file = Ok d ->
  load_logistics_features P b mode (Some (cache_file cache_dir mode)) = Ok gdf ->
  (gdf = [] /\ d = no_data_result) \/
  (gdf <> [] /\
   exists coords_df,
     extract_coordinates gdf = Ok coords_df /\
     d = full_result coords_df
           (build_mst_graph (geodesic_graph coords_df))
           (output_or_default output_file cache_dir mode) mode b).
Proof.
  intros Hgen Hl.
  apply generate_logistics_mst_returns in Hgen
    as [[Hl' ->] | [gdf' [coords_df [html [Hl' [Hne [Hx [Hv ->]]]]]]]];
    rewrite Hl in Hl'; injection Hl' as <-.
  - now left.
  - right. split; [exact Hne|]. exists coords_df. split; [exact Hx|].
    now rewrite (visualize_mst_map_path _ _ _ _ _ _ _ Hv).
Qed.

(** X10: a result with status ["ok"] echoes its inputs: [mode] is the mode
    as it was given (not lowercased), [bbox] the bounding box, and
    [map_path] the output file that was given or, without one, the file
    [logistics_<mode>_mst.html] of the cache directory. *)
Theorem result_echoes_inputs (P : provider) (b : bbox)
  (mode cache_dir : string) (output_file : option string) (d : dict) :
  generate_logistics_mst P b mode cache_dir output_file = Ok d ->
  get d "status" = Some (VStr "ok") ->
  get d "mode" = Some (VStr mode) /\
  get d "bbox" = Some (VBbox b) /\
  get d "map_path"
  = Some (VStr (match output_file with
                | Some (String c rest) => String c rest
                | _ => path_join cache_dir
                                 ("logistics_" ++ mode ++ "_mst.html")%string
                end)).
Proof.
  intros Hgen Hst.
  destruct (load_logistics_features P b mode
              (Some (cache_file cache_dir mode))) as [gdf|e] eqn:Hl.
  - destruct (generate_logistics_mst_value P b mode cache_dir output_file d
                gdf Hgen Hl) as [[_ ->] | [_ [coords_df [_ ->]]]];
      [discriminate|].
    repeat split.
  - now apply (generate_logistics_mst_loaded _ _ _ _ _ _ e) in Hgen.
Qed.

Lemma result_echoes_inputs_witness :
  get sample_result "mode" = Some (VStr "auto") /\
  get sample_result "bbox" = Some (VBbox sample_bbox) /\
  get sample_result "map_path"
  = Some (VStr (match @None string with
                | Some (String c rest) => String c rest
                | _ => path_join "cache"
                                 ("logistics_" ++ "auto" ++ "_mst.html")%string
                end)).
Proof.
  apply (result_echoes_inputs routed_provider sample_bbox "auto" "cache" None
           sample_result); reflexivity.
Defined.

(** X11: the road network has no influence on what is returned: two
    providers that load the same records return the same dict, whatever
    their networks, snapped nodes, routes and route lengths are. *)
Theorem result_independent_of_network (P P' : provider) (b : bbox)
  (mode cache_dir : string) (output_file : option string) (d d' : dict) :
  load_logistics_features P b mode (Some (cache_file cache_dir mode))
  = load_logistics_features P' b mode (Some (cache_file cache_dir mode)) ->
  generate_logistics_mst P b mode cache_dir output_file = Ok d ->
  generate_logistics_mst P' b mode cache_dir output_file = Ok d' ->
  d = d'.
Proof.
  intros Hload Hgen Hgen'.
  destruct (load_logistics_features P b mode
              (Some (cache_file cache_dir mode))) as [gdf|e] eqn:Hl.
  - symmetry in Hload.
    destruct (generate_logistics_mst_value P b mode cache_dir output_file d
                gdf Hgen Hl) as [[E ->] | [Hne [c [Hx ->]]]];
      destruct (generate_logistics_mst_value P' b mode cache_dir output_file
                  d' gdf Hgen' Hload) as [[E' ->] | [Hne' [c' [Hx' ->]]]];
      try reflexivity; try contradiction.
    rewrite Hx in Hx'. injection Hx' as <-. reflexivity.
  - now apply (generate_logistics_mst_loaded _ _ _ _ _ _ e) in Hgen.
Qed.

Lemma result_independent_of_network_witness :
  generate_logistics_mst routed_provider sample_bbox "auto" "cache" None
  = Ok sample_result /\
  generate_logistics_mst mixed_provider sample_bbox "auto" "cache" None
  = Ok sample_result /\
  sample_result = sample_result.
Proof.
  split; [reflexivity|]. split; [reflexivity|].
  apply (result_independent_of_network routed_provider mixed_provider
           sample_bbox "auto" "cache" None sample_result sample_result);
    reflexivity.
Defined.

(** X12: a call that returns gives status ["no_data"] exactly when no record
    was loaded and status ["ok"] otherwise; no other status is returned. *)
Theorem result_status (P : provider) (b : bbox)
  (mode cache_dir : string) (output_file : option string) (d : dict) :
  generate_logistics_mst P b mode cache_dir output_file = Ok d ->
  (load_logistics_features P b mode (Some (cache_file cache_dir mode)) = Ok [] /\
   get d "status" = Some (VStr "no_data")) \/
  (exists gdf,
     load_logistics_features P b mode (Some (cache_file cache_dir mode))
     = Ok gdf /\ gdf <> [] /\
               get d "status" = Some (VStr "ok")).
Proof.
  intro Hgen.
  apply generate_logistics_mst_returns in Hgen
    as [[Hl ->] | [gdf [coords_df [html [Hl [Hne [_ [_ ->]]]]]]]].
  - left. split; [exact Hl | reflexivity].
  - right. exists gdf. repeat split; assumption.
Qed.

Lemma result_status_witness :
  (load_logistics_features empty_provider sample_bbox "auto"
      (Some (cache_file "cache" "auto")) = Ok [] /\
   get no_data_result "status" = Some (VStr "no_data")) \/
  (exists gdf, load_logistics_features empty_provider sample_bbox "auto"
      (Some (cache_file "cache" "auto")) = Ok gdf /\ gdf <> [] /\
               get no_data_result "status" = Some (VStr "ok")).
Proof.
  apply (result_status empty_provider sample_bbox "auto" "cache" None
           no_data_result); reflexivity.
Defined.

(* ================================================================== *)
(** ** The drawing loop of the refiner *)

Lemma draw_edges_ok (P : provider) (G_drive : network P)
  (df : list snapped_row) (es : list edge) (l : list map_element) :
  draw_edges P G_drive df es = Ok l ->
  exists drawn,
    l = List.concat drawn /\
    Forall2 (fun e d => draw_edge P G_drive df e = Ok d) es drawn.
Proof.
  revert l. induction es as [|e es IH]; intros l H; simpl in H.
  - injection H as <-. exists []. split; [reflexivity | constructor].
  - destruct (draw_edge P G_drive df e) as [d|x] eqn:Ed; [|discriminate].
    cbn [bind] in H.
    destruct (draw_edges P G_drive df es) as [more|x]; [|discriminate].
    cbn [bind] in H. injection H as <-.
    destruct (IH more eq_refl) as [drawn [-> Hall]].
    exists (d :: drawn). split; [reflexivity | now constructor].
Qed.

Lemma draw_edges_raise (P : provider) (G_drive : network P)
  (df : list snapped_row) (es1 es2 : list edge) (e0 : edge) (x : exn) :
  (forall e, In e es1 -> returns (draw_edge P G_drive df e)) ->
  draw_edge P G_drive df e0 = Raise x ->
  draw_edges P G_drive df (es1 ++ e0 :: es2) = Raise x.
Proof.
  induction es1 as [|e es1 IH]; intros Hret H0; simpl.
  - now rewrite H0.
  - destruct (Hret e (or_introl eq_refl)) as [d ->]. cbn [bind].
    rewrite IH; [reflexivity | | exact H0].
    intros y Hy. apply Hret. now right.
Qed.

(** X13: the loop over the tree edges stops at the first edge that cannot
    be drawn: it raises [x] exactly when some edge raises [x] and every
    edge before it was drawn; later edges are not looked at. *)
Theorem draw_edges_first_failure (P : provider) (G_drive : network P)
  (df : list snapped_row) (es : list edge) (x : exn) :
  draw_edges P G_drive df es = Raise x <->
  exists es1 e0 es2,
    es = es1 ++ e0 :: es2 /\
    (forall e, In e es1 -> returns (draw_edge P G_drive df e)) /\
    draw_edge P G_drive df e0 = Raise x.
Proof.
  split.
  - induction es as [|e es IH]; intro H; simpl in H; [discriminate|].
    destruct (draw_edge P G_drive df e) as [d|y] eqn:Ed.
    + cbn [bind] in H.
      destruct (draw_edges P G_drive df es) as [more|y] eqn:Em;
        [discriminate|].
      cbn [bind] in H. injection H as ->.
      destruct (IH eq_refl) as [es1 [e0 [es2 [-> [Hret H0]]]]].
      exists (e :: es1), e0, es2. split; [reflexivity|]. split; [|exact H0].
      intros y [<- | Hy]; [now exists d | now apply Hret].
    + cbn [bind] in H. injection H as ->.
      exists [], e, es. split; [reflexivity|]. split; [intros y [] | exact Ed].
  - intros [es1 [e0 [es2 [-> [Hret H0]]]]]. now apply draw_edges_raise.
Qed.

Lemma nth_error_combine_fst (coords_df : list (located_point R))
  (osm : list nat) (u : nat) (ru : snapped_row) :
  nth_error (combine coords_df osm) u = Some ru ->
  nth_error coords_df u = Some (fst ru).
Proof.
  revert osm u. induction coords_df as [|r l IH]; intros osm u H;
    [destruct u; discriminate|].
  destruct osm as [|o osm]; [destruct u; discriminate|].
  destruct u as [|u]; simpl in *.
  - injection H as <-. reflexivity.
  - now apply (IH osm).
Qed.

Lemma draw_edge_ok_shape (P : provider) (G_drive : network P)
  (df : list snapped_row) (e : edge) (d : list map_element) :
  draw_edge P G_drive df e = Ok d ->
  exists ru rv,
    nth_error df (edge_u e) = Some ru /\ nth_error df (edge_v e) = Some rv /\
    (d = straight_elements (fst ru) (fst rv) \/
     exists dist_m, d = routed_elements (fst ru) (fst rv) dist_m).
Proof.
  destruct e as [[u v] w]. unfold draw_edge, iloc, edge_u, edge_v. simpl.
  destruct (nth_error df u) as [ru|] eqn:Eu; [|discriminate].
  destruct (nth_error df v) as [rv|] eqn:Ev; [|discriminate].
  cbn [bind]. intro H. exists ru, rv. split; [reflexivity|].
  split; [reflexivity|].
  destruct (route_ok (try_shortest_path P G_drive (snd ru) (snd rv)))
    as [route|].
  - unfold draw_routed, loc in H. rewrite Eu, Ev in H.
    destruct (route_to_gdf P G_drive route) as [lengths|x]; [|discriminate].
    cbn [bind] in H. injection H as <-.
    right. exists (sum_lengths lengths). reflexivity.
  - unfold draw_straight, loc in H. rewrite Eu, Ev in H.
    cbn [bind] in H.
    destruct (haversine_call P _ _ _ _) as [dist|x] eqn:Ec; [|discriminate].
    apply haversine_call_ok in Ec as [_ ->].
    cbn [bind] in H. injection H as <-. now left.
Qed.

Lemma circle_markers_eq (P : provider) (coords_df : list (located_point R)) :
  circle_markers P coords_df
  = map (fun row => CircleMarker (lat row, lon row))
        (filter (fun row => negb (isna P (lat row) || isna P (lon row)))
                coords_df).
Proof.
  unfold circle_markers.
  induction coords_df as [|row rest IH]; simpl; [reflexivity|].
  rewrite IH. destruct (isna P (lat row) || isna P (lon row)); reflexivity.
Qed.

(** X14: when the refiner returns, it returns the output file it was
    given, and the saved map is centred on the bounding box and holds a
    circle marker for each row none of whose coordinates is NaN, in order
    (a row with a NaN coordinate gets none), followed for each tree edge, in
    order, by one straight line between the coordinates of its two points
    with its label: blue with a road distance, or gray with the haversine
    distance.  The geometry of a route is never drawn. *)
Theorem visualize_mst_map_layout (P : provider)
  (coords_df : list (located_point R)) (mst : Graph) (b : bbox)
  (mode output_file : string) (html : string * folium_map) :
  visualize_mst_map P coords_df mst b mode output_file = Ok html ->
  fst html = output_file /\
  map_location (snd html)
  = ((bbox1 b + bbox3 b) / 2, (bbox0 b + bbox2 b) / 2)%R /\
  exists drawn,
    map_elements (snd html)
    = map (fun row => CircleMarker (lat row, lon row))
          (filter (fun row => negb (isna P (lat row) || isna P (lon row)))
                  coords_df)
      ++ List.concat drawn /\
    Forall2
      (fun e d =>
         exists row_u row_v,
           nth_error coords_df (edge_u e) = Some row_u /\
           nth_error coords_df (edge_v e) = Some row_v /\
           (d = straight_elements row_u row_v \/
            exists dist_m, d = routed_elements row_u row_v dist_m))
      (edges mst) drawn.
Proof.
  unfold visualize_mst_map. rewrite circle_markers_eq.
  destruct (graph_from_bbox P b "drive") as [G|x]; [|discriminate].
  cbn [bind]. destruct coords_df as [|row rest]; [discriminate|].
  destruct (nearest_nodes P G _ _) as [osm|x]; [|discriminate].
  cbn [bind]. unfold assign_osm_node.
  destruct (List.length osm =? List.length (row :: rest)); [|discriminate].
  cbn [bind].
  destruct (draw_edges P G (combine (row :: rest) osm) (edges mst))
    as [l|x] eqn:Ed; [|discriminate].
  cbn [bind]. destruct (save P _ output_file) as [saved|x]; [|discriminate].
  cbn [bind]. intro E. injection E as <-. cbn [fst snd map_location map_elements].
  split; [reflexivity|]. split; [reflexivity|].
  apply draw_edges_ok in Ed as [drawn [-> Hall]].
  exists drawn. split; [reflexivity|].
  induction Hall as [|e d es ds Hd _ IH]; constructor; [|exact IH].
  apply draw_edge_ok_shape in Hd as [ru [rv [Hu [Hv Hshape]]]].
  exists (fst ru), (fst rv).
  split; [now apply (nth_error_combine_fst _ osm)|].
  split; [now apply (nth_error_combine_fst _ osm) | exact Hshape].
Qed.

Lemma visualize_mst_map_layout_witness :
  exists html,
    visualize_mst_map nan_provider sample_coords3 sample_tree3 sample_bbox
                      "auto" "map.html" = Ok html /\
    fst html = "map.html" /\
    map_location (snd html)
    = ((bbox1 sample_bbox + bbox3 sample_bbox) / 2,
       (bbox0 sample_bbox + bbox2 sample_bbox) / 2)%R /\
    exists drawn,
      map_elements (snd html)
      = map (fun row => CircleMarker (lat row, lon row))
            (filter (fun row => negb (isna nan_provider (lat row)
                                      || isna nan_provider (lon row)))
                    sample_coords3)
        ++ List.concat drawn /\
      Forall2
        (fun e d =>
           exists row_u row_v,
             nth_error sample_coords3 (edge_u e) = Some row_u /\
             nth_error sample_coords3 (edge_v e) = Some row_v /\
             (d = straight_elements row_u row_v \/
              exists dist_m, d = routed_elements row_u row_v dist_m))
        (edges sample_tree3) drawn.
Proof.
  eexists. split; [reflexivity|].
  apply (visualize_mst_map_layout nan_provider sample_coords3 sample_tree3
           sample_bbox "auto" "map.html"). reflexivity.
Defined.

(** With the latitude 2 standing for a NaN, the third sample point gets no
    circle. *)
Lemma nan_row_unmarked :
  circle_markers nan_provider sample_coords3
  = [CircleMarker (0%R, 0%R); CircleMarker (1%R, 0%R)].
Proof.
  unfold circle_markers, nan_provider, sample_coords3, sample_coords.
  cbn [flat_map app isna with_isna lat lon mixed_provider sample_provider].
  unfold Reqb.
  repeat match goal with
         | |- context [Req_dec_T ?a ?b] =>
             destruct (Req_dec_T a b); [try (exfalso; lra) | try (exfalso; lra)]
         end.
  reflexivity.
Qed.

Lemma visualize_mst_map_loop (P : provider)
  (coords_df : list (located_point R)) (mst : Graph) (b : bbox)
  (mode output_file : string) (G_drive : network P) (osm : list nat)
  (x : exn) :
  coords_df <> [] ->
  graph_from_bbox P b "drive" = Ok G_drive ->
  nearest_nodes P G_drive (map lon coords_df) (map lat coords_df) = Ok osm ->
  List.length osm = List.length coords_df ->
  draw_edges P G_drive (combine coords_df osm) (edges mst) = Raise x ->
  visualize_mst_map P coords_df mst b mode output_file = Raise x.
Proof.
  intros Hne Hg Hn Hlen Hd. unfold visualize_mst_map. rewrite Hg. cbn [bind].
  destruct coords_df as [|row rest]; [contradiction|].
  rewrite Hn. cbn [bind]. unfold assign_osm_node.
  rewrite Hlen, Nat.eqb_refl. cbn [bind]. now rewrite Hd.
Qed.

Lemma draw_edge_in_frame (P : provider) (G_drive : network P)
  (coords_df : list (located_point R)) (osm : list nat) (e : edge) :
  List.length osm = List.length coords_df ->
  ~ out_of_frame (List.length coords_df) e ->
  (forall route, 2 <= List.length route ->
                 returns (route_to_gdf P G_drive route)) ->
  (forall row_u row_v,
     nth_error coords_df (edge_u e) = Some row_u ->
     nth_error coords_df (edge_v e) = Some row_v ->
     sqrt_domain_error P (lat row_u) (lon row_u) (lat row_v) (lon row_v)
     = false) ->
  returns (draw_edge P G_drive (combine coords_df osm) e).
Proof.
  intros Hlen Hin Hgdf Hsq. destruct e as [[u v] w].
  unfold out_of_frame, edge_u, edge_v in Hin. simpl in Hin.
  unfold edge_u, edge_v in Hsq. simpl in Hsq.
  destruct (nth_error_combine_snap coords_df osm u Hlen) as [ru [Eu Cu]]; [lia|].
  destruct (nth_error_combine_snap coords_df osm v Hlen) as [rv [Ev Cv]]; [lia|].
  destruct (route_ok_cases P G_drive (snd ru) (snd rv)) as [Hf | [route Hf]].
  - eexists. apply (draw_edge_failed P G_drive _ u v w ru rv); auto.
  - rewrite (draw_edge_found P G_drive _ u v w ru rv route Eu Ev Hf).
    destruct (Hgdf route (proj2 Hf)) as [lengths ->]. eexists. reflexivity.
Qed.

Lemma draw_edge_out_of_frame (P : provider) (G_drive : network P)
  (coords_df : list (located_point R)) (osm : list nat) (e : edge) :
  List.length osm = List.length coords_df ->
  out_of_frame (List.length coords_df) e ->
  draw_edge P G_drive (combine coords_df osm) e
  = Raise (IndexError "single positional indexer is out-of-bounds").
Proof.
  intros Hlen Hout. destruct e as [[u v] w].
  unfold out_of_frame, edge_u, edge_v in Hout. simpl in Hout.
  assert (Hnone : forall k, List.length coords_df <= k ->
                            nth_error (combine coords_df osm) k = None).
  { intros k Hk. apply nth_error_None. rewrite length_combine. lia. }
  unfold draw_edge, iloc, snapped_row.
  destruct (Nat.le_gt_cases (List.length coords_df) u) as [Hu | Hu].
  - rewrite (Hnone u Hu). reflexivity.
  - destruct (nth_error_combine_snap coords_df osm u Hlen Hu) as [ru [Eu _]].
    rewrite Eu. cbn [bind].
    destruct Hout as [Hu' | Hv]; [lia|].
    rewrite (Hnone v Hv). reflexivity.
Qed.

(** X15: a tree edge that names a node which is no row of [coords_df] makes
    the refiner raise IndexError (network, snapping, route lengths and the
    distances of the edges between rows being answered), instead of drawing
    the other edges. *)
Theorem stray_edge_raises_IndexError (P : provider)
  (coords_df : list (located_point R)) (mst : Graph) (b : bbox)
  (mode output_file : string) (G_drive : network P) (osm : list nat)
  (e0 : edge) :
  coords_df <> [] ->
  graph_from_bbox P b "drive" = Ok G_drive ->
  nearest_nodes P G_drive (map lon coords_df) (map lat coords_df) = Ok osm ->
  List.length osm = List.length coords_df ->
  (forall route, 2 <= List.length route ->
                 returns (route_to_gdf P G_drive route)) ->
  (forall e row_u row_v, In e (edges mst) ->
     nth_error coords_df (edge_u e) = Some row_u ->
     nth_error coords_df (edge_v e) = Some row_v ->
     sqrt_domain_error P (lat row_u) (lon row_u) (lat row_v) (lon row_v)
     = false) ->
  In e0 (edges mst) ->
  out_of_frame (List.length coords_df) e0 ->
  visualize_mst_map P coords_df mst b mode output_file
  = Raise (IndexError "single positional indexer is out-of-bounds").
Proof.
  intros Hne Hg Hn Hlen Hgdf Hsq Hin Hout.
  apply (visualize_mst_map_loop P coords_df mst b mode output_file G_drive osm);
    auto.
  induction (edges mst) as [|e es IH]; [destruct Hin|].
  assert (Hdec : out_of_frame (List.length coords_df) e \/
                 ~ out_of_frame (List.length coords_df) e)
    by (unfold out_of_frame; lia).
  destruct Hdec as [He | He].
  - simpl. now rewrite (draw_edge_out_of_frame P G_drive coords_df osm e Hlen He).
  - destruct (draw_edge_in_frame P G_drive coords_df osm e Hlen He Hgdf)
      as [d Hd]; [intros ru rv; apply Hsq; now left|].
    simpl. rewrite Hd. cbn [bind].
    destruct Hin as [-> | Hin]; [contradiction|].
    rewrite IH; [reflexivity | | exact Hin].
    intros e' ru rv He'. apply Hsq. now right.
Qed.

Lemma stray_edge_raises_IndexError_witness :
  visualize_mst_map routed_provider sample_coords stray_tree sample_bbox
                    "auto" "map.html"
  = Raise (IndexError "single positional indexer is out-of-bounds").
Proof.
  apply (stray_edge_raises_IndexError routed_provider sample_coords stray_tree
           sample_bbox "auto" "map.html" tt [10; 11] (1, 5, 9%R)).
  - discriminate.
  - reflexivity.
  - reflexivity.
  - reflexivity.
  - intros route _. exists [5%R; 7%R]. reflexivity.
  - reflexivity.
  - right. now left.
  - right. unfold edge_v, sample_coords. simpl. lia.
Defined.

(** X16: an error while reading the segment lengths of a found route is not
    absorbed: [route_to_gdf] is called outside the [try], so the refiner
    raises that error at the first edge where it happens. *)
Theorem route_length_error_raises (P : provider)
  (coords_df : list (located_point R)) (mst : Graph) (b : bbox)
  (mode output_file : string) (G_drive : network P) (osm : list nat)
  (es1 es2 : list edge) (u v : nat) (w : R) (ru rv : snapped_row)
  (route : list nat) (x : exn) :
  coords_df <> [] ->
  graph_from_bbox P b "drive" = Ok G_drive ->
  nearest_nodes P G_drive (map lon coords_df) (map lat coords_df) = Ok osm ->
  List.length osm = List.length coords_df ->
  edges mst = es1 ++ (u, v, w) :: es2 ->
  (forall e, In e es1 ->
             returns (draw_edge P G_drive (combine coords_df osm) e)) ->
  nth_error (combine coords_df osm) u = Some ru ->
  nth_error (combine coords_df osm) v = Some rv ->
  routing_found P G_drive (snd ru) (snd rv) route ->
  route_to_gdf P G_drive route = Raise x ->
  visualize_mst_map P coords_df mst b mode output_file = Raise x.
Proof.
  intros Hne Hg Hn Hlen Hes Hret Hu Hv Hf Hx.
  apply (visualize_mst_map_loop P coords_df mst b mode output_file G_drive osm);
    auto.
  rewrite Hes. apply draw_edges_raise; [exact Hret|].
  rewrite (draw_edge_found P G_drive _ u v w ru rv route Hu Hv Hf), Hx.
  reflexivity.
Qed.

Lemma route_length_error_raises_witness :
  visualize_mst_map no_lengths_provider sample_coords sample_mst sample_bbox
                    "auto" "map.html"
  = Raise (KeyError "length").
Proof.
  apply (route_length_error_raises no_lengths_provider sample_coords sample_mst
           sample_bbox "auto" "map.html" tt [10; 11] [] [] 0 1
           (haversine 0 0 1 0)
           (mkPoint 0%R 0%R (to_dict facility_a), 10)
           (mkPoint 1%R 0%R (to_dict facility_b), 11)
           [10; 11]).
  - discriminate.
  - reflexivity.
  - reflexivity.
  - reflexivity.
  - reflexivity.
  - intros e [].
  - reflexivity.
  - reflexivity.
  - split; [reflexivity | simpl; lia].
  - reflexivity.
Defined.

(* ================================================================== *)
(** ** The graph of the Builder *)

(** X23: whenever the Builder returns, its graph has one node per point and
    [n(n-1)/2] edges, one for each unordered pair of points, each weighted
    with the haversine distance of its endpoints (in metres, never
    negative); with at most one point there is no edge. *)
Theorem build_geodesic_graph_complete (P : provider)
  (coords_df : list (located_point R)) (G : Graph) :
  build_geodesic_graph P coords_df = Ok G ->
  let n := List.length coords_df in
  nodes G = seq 0 n /\
  List.length (edges G) = n * (n - 1) / 2 /\
  (forall e, In e (edges G) <->
     exists i j row_i row_j,
       nth_error coords_df i = Some row_i /\
       nth_error coords_df j = Some row_j /\ i < j /\
       e = (i, j, haversine (lat row_i) (lon row_i) (lat row_j) (lon row_j))) /\
  (forall i j, i < n -> j < n -> i <> j ->
     exists e, In e (edges G) /\
               same_pair i j (edge_u e) (edge_v e) = true /\
               forall e', In e' (edges G) ->
                          same_pair i j (edge_u e') (edge_v e') = true ->
                          e' = e) /\
  (forall e, In e (edges G) -> (0 <= weight e)%R) /\
  (n <= 1 -> edges G = []).
Proof.
  intros HG n. apply build_geodesic_graph_ok in HG as [_ ->].
  rewrite geodesic_graph_eq. cbn [nodes edges].
  pose proof (geodesic_edges_length coords_df) as Hlen.
  fold n in Hlen.
  split; [reflexivity|].
  split; [apply (Nat.div_unique_exact (n * (n - 1)) 2); lia|].
  split; [apply in_geodesic_edges|].
  split; [|split].
  - assert (Hlt : forall i j, i < j -> j < n ->
      exists e, In e (geodesic_edges coords_df) /\ edge_pair e = (i, j) /\
                forall e', In e' (geodesic_edges coords_df) ->
                           edge_pair e' = (i, j) -> e' = e).
    { intros i j Hij Hj.
      destruct (nth_error coords_df i) as [ri|] eqn:Ei;
        [|apply nth_error_None in Ei; fold n in Ei; lia].
      destruct (nth_error coords_df j) as [rj|] eqn:Ej;
        [|apply nth_error_None in Ej; fold n in Ej; lia].
      exists (i, j, row_distance ri rj). split; [|split].
      - apply in_geodesic_edges. now exists i, j, ri, rj.
      - reflexivity.
      - intros e' He' Hp.
        apply in_geodesic_edges in He'
          as [i' [j' [ri' [rj' [Hi' [Hj' [_ ->]]]]]]].
        unfold edge_pair, edge_u, edge_v in Hp. simpl in Hp.
        injection Hp as -> ->. congruence. }
    intros i j Hi Hj Hne.
    destruct (Nat.lt_total i j) as [Hij | [-> | Hji]]; [| contradiction |].
    + destruct (Hlt i j Hij Hj) as [e [He [Hp Hu]]].
      exists e. injection Hp as Hpu Hpv.
      split; [exact He|]. split; [apply same_pair_true; auto|].
      intros e' He' Hs. apply Hu; [exact He'|].
      apply same_pair_true in Hs.
      pose proof (geodesic_edges_canonical _ _ He') as [Hc _].
      unfold edge_pair. destruct Hs as [[-> ->] | [-> ->]]; [reflexivity | lia].
    + destruct (Hlt j i Hji Hi) as [e [He [Hp Hu]]].
      exists e. injection Hp as Hpu Hpv.
      split; [exact He|]. split; [apply same_pair_true; auto|].
      intros e' He' Hs. apply Hu; [exact He'|].
      apply same_pair_true in Hs.
      pose proof (geodesic_edges_canonical _ _ He') as [Hc _].
      unfold edge_pair. destruct Hs as [[-> ->] | [-> ->]]; [lia | reflexivity].
  - intros e He. apply in_geodesic_edges in He
      as [i [j [ri [rj [_ [_ [_ ->]]]]]]].
    apply haversine_nonneg.
  - apply geodesic_edges_nil.
Qed.

Lemma build_geodesic_graph_complete_witness :
  let G := geodesic_graph sample_coords3 in
  nodes G = seq 0 3 /\
  List.length (edges G) = 3 * (3 - 1) / 2 /\
  (forall e, In e (edges G) <->
     exists i j row_i row_j,
       nth_error sample_coords3 i = Some row_i /\
       nth_error sample_coords3 j = Some row_j /\ i < j /\
       e = (i, j, haversine (lat row_i) (lon row_i) (lat row_j) (lon row_j))) /\
  (forall i j, i < 3 -> j < 3 -> i <> j ->
     exists e, In e (edges G) /\
               same_pair i j (edge_u e) (edge_v e) = true /\
               forall e', In e' (edges G) ->
                          same_pair i j (edge_u e') (edge_v e') = true ->
                          e' = e) /\
  (forall e, In e (edges G) -> (0 <= weight e)%R) /\
  (3 <= 1 -> edges G = []).
Proof.
  apply (build_geodesic_graph_complete routed_provider sample_coords3
           (geodesic_graph sample_coords3)).
  reflexivity.
Defined.

(** X24: the Builder returns exactly when every pair of rows keeps the
    square roots of [haversine] in their domain; otherwise it raises a
    ValueError, and nothing else is ever raised. *)
Theorem build_geodesic_graph_returns (P : provider)
  (coords_df : list (located_point R)) :
  (returns (build_geodesic_graph P coords_df)
   <-> distances_defined P coords_df) /\
  (forall e, build_geodesic_graph P coords_df = Raise e ->
             e = ValueError "math domain error") /\
  (List.length coords_df <= 1 -> returns (build_geodesic_graph P coords_df)).
Proof.
  split; [|split].
  - split.
    + intros [G HG]. now apply build_geodesic_graph_ok in HG.
    + intro Hd. exists (geodesic_graph coords_df).
      now apply build_geodesic_graph_ok.
  - intros e He. now apply build_geodesic_graph_raise in He.
  - intro Hn. exists (geodesic_graph coords_df).
    apply build_geodesic_graph_ok. split; [|reflexivity].
    intros i j ri rj Hi Hj Hlt.
    assert (j < List.length coords_df) by (apply nth_error_Some; congruence).
    lia.
Qed.

Lemma geodesic_graph_extends (coords_df more : list (located_point R)) :
  (forall e, In e (edges (geodesic_graph coords_df)) ->
             In e (edges (geodesic_graph (coords_df ++ more)))) /\
  (forall e, In e (edges (geodesic_graph (coords_df ++ more))) ->
             In e (edges (geodesic_graph coords_df)) \/
             List.length coords_df <= edge_v e).
Proof.
  rewrite !geodesic_graph_eq. cbn [edges]. split.
  - intros e He. apply in_geodesic_edges in He
      as [i [j [ri [rj [Hi [Hj [Hlt ->]]]]]]].
    apply in_geodesic_edges. exists i, j, ri, rj.
    repeat split; auto.
    + rewrite nth_error_app1; [exact Hi|]. apply nth_error_Some. congruence.
    + rewrite nth_error_app1; [exact Hj|]. apply nth_error_Some. congruence.
  - intros e He. apply in_geodesic_edges in He
      as [i [j [ri [rj [Hi [Hj [Hlt ->]]]]]]].
    destruct (Nat.le_gt_cases (List.length coords_df) j) as [Hge | Hlt'].
    + right. exact Hge.
    + left. apply in_geodesic_edges. exists i, j, ri, rj.
      rewrite nth_error_app1 in Hi by lia.
      rewrite nth_error_app1 in Hj by lia.
      auto.
Qed.

Lemma distances_defined_prefix (P : provider)
  (coords_df more : list (located_point R)) :
  distances_defined P (coords_df ++ more) -> distances_defined P coords_df.
Proof.
  intros Hd i j ri rj Hi Hj Hlt. apply (Hd i j ri rj); [| |exact Hlt].
  - rewrite nth_error_app1; [exact Hi|]. apply nth_error_Some. congruence.
  - rewrite nth_error_app1; [exact Hj|]. apply nth_error_Some. congruence.
Qed.

(** X17: when the Builder returns a graph for a list of points it returns
    one for every prefix of the list, and the points added after the prefix
    keep every edge of its graph with its weight; every new edge ends in one
    of the added points. *)
Theorem build_geodesic_graph_extends (P : provider)
  (coords_df more : list (located_point R)) (G' : Graph) :
  build_geodesic_graph P (coords_df ++ more) = Ok G' ->
  exists G,
    build_geodesic_graph P coords_df = Ok G /\
    (forall e, In e (edges G) -> In e (edges G')) /\
    (forall e, In e (edges G') ->
               In e (edges G) \/ List.length coords_df <= edge_v e).
Proof.
  intro H. apply build_geodesic_graph_ok in H as [Hd ->].
  exists (geodesic_graph coords_df). split.
  - apply build_geodesic_graph_ok. split; [|reflexivity].
    exact (distances_defined_prefix P coords_df more Hd).
  - apply geodesic_graph_extends.
Qed.

Lemma build_geodesic_graph_extends_witness :
  exists G,
    build_geodesic_graph routed_provider sample_coords = Ok G /\
    (forall e, In e (edges G) ->
               In e (edges (geodesic_graph sample_coords3))) /\
    (forall e, In e (edges (geodesic_graph sample_coords3)) ->
               In e (edges G) \/ List.length sample_coords <= edge_v e).
Proof.
  apply (build_geodesic_graph_extends routed_provider sample_coords
           [mkPoint 2%R 0%R []] (geodesic_graph sample_coords3)).
  reflexivity.
Defined.

(* ================================================================== *)
(** ** The spanning tree engine on any graph *)

Lemma in_range_exists (es : list edge) : exists n, in_range n es.
Proof.
  induction es as [|e es [n Hn]].
  - exists 0. intros e [].
  - exists (Nat.max n (S (Nat.max (edge_u e) (edge_v e)))).
    intros x [<- | Hx]; [lia|]. destruct (Hn x Hx). lia.
Qed.

Lemma connected_perm (E E' : list edge) (x y : nat) :
  Permutation E E' -> connected E x y <-> connected E' x y.
Proof.
  intro Hp. split; apply connected_incl; intros e He.
  - exact (Permutation_in _ Hp He).
  - exact (Permutation_in _ (Permutation_sym Hp) He).
Qed.

Lemma kruskal_mst_edges_connects (G : Graph) (x y : nat) :
  connected (kruskal_mst_edges G) x y <-> connected (edges G) x y.
Proof.
  unfold kruskal_mst_edges.
  rewrite (connected_perm (edges G) _ x y (sorted_by_weight_perm (edges G))).
  split.
  - apply connected_incl, kruskal_loop_incl.
  - intro H. apply kruskal_connects.
    apply (connected_collapsed _ (sorted_by_weight (edges G)));
      [apply run_collapses | exact H].
Qed.

Lemma kruskal_mst_edges_acyclic (G : Graph) : acyclic (kruskal_mst_edges G).
Proof.
  unfold kruskal_mst_edges.
  destruct (in_range_exists (sorted_by_weight (edges G))) as [n Hn].
  now apply (kruskal_acyclic n).
Qed.

Lemma build_mst_graph_simple (G : Graph) :
  simple_graph G -> build_mst_graph G = mkGraph (nodes G) (kruskal_mst_edges G).
Proof.
  intros [Hnd [Hcan Hp]]. unfold build_mst_graph.
  now apply minimum_spanning_tree_eq.
Qed.

(** X18: on any simple graph, connected or not, the Spanning Tree Engine
    returns a spanning forest: the same nodes, edges of the graph, no cycle,
    and two nodes are connected in the result exactly when they are
    connected in the graph. *)
Theorem build_mst_graph_spanning_forest (G : Graph) :
  simple_graph G ->
  nodes (build_mst_graph G) = nodes G /\
  incl (edges (build_mst_graph G)) (edges G) /\
  acyclic (edges (build_mst_graph G)) /\
  (forall x y, connected (edges (build_mst_graph G)) x y
               <-> connected (edges G) x y).
Proof.
  intro Hs. rewrite (build_mst_graph_simple G Hs). cbn [nodes edges].
  split; [reflexivity|]. split; [apply kruskal_mst_edges_incl|].
  split; [apply kruskal_mst_edges_acyclic|].
  apply kruskal_mst_edges_connects.
Qed.

Lemma triangle_simple : simple_graph triangle.
Proof.
  unfold simple_graph, triangle. cbn [nodes edges]. split; [|split].
  - repeat constructor; simpl; intuition discriminate.
  - intros e [<- | [<- | [<- | []]]]; unfold edge_u, edge_v; simpl;
      intuition lia.
  - repeat constructor; simpl; intuition discriminate.
Defined.

Lemma build_mst_graph_spanning_forest_witness :
  nodes (build_mst_graph triangle) = nodes triangle /\
  incl (edges (build_mst_graph triangle)) (edges triangle) /\
  acyclic (edges (build_mst_graph triangle)) /\
  (forall x y, connected (edges (build_mst_graph triangle)) x y
               <-> connected (edges triangle) x y).
Proof.
  apply (build_mst_graph_spanning_forest triangle triangle_simple).
Defined.

Lemma sorted_by_weight_fixed (l : list edge) :
  StronglySorted by_weight l -> sorted_by_weight l = l.
Proof.
  induction 1 as [|x l Hs IH Hall]; [reflexivity|].
  simpl. rewrite IH. destruct l as [|y l']; [reflexivity|].
  simpl. inversion Hall as [|? ? Hxy _]; subst. unfold by_weight in Hxy.
  destruct (Rle_dec (weight x) (weight y)); [reflexivity | contradiction].
Qed.

Lemma kruskal_loop_sorted (l : list edge) (f : nat -> nat) :
  StronglySorted by_weight l -> StronglySorted by_weight (kruskal_loop f l).
Proof.
  intro Hs. revert f.
  induction Hs as [|[[u v] w] l Hs IH Hall]; intro f; [constructor|].
  simpl. destruct (f u =? f v); [apply IH|].
  constructor; [apply IH|].
  rewrite Forall_forall in *. intros e He. apply Hall.
  now apply (kruskal_loop_incl l (union f u v)).
Qed.

Lemma kruskal_loop_idem (es : list edge) (f : nat -> nat) :
  kruskal_loop f (kruskal_loop f es) = kruskal_loop f es.
Proof.
  revert f. induction es as [|[[u v] w] es IH]; intro f; [reflexivity|].
  simpl. destruct (f u =? f v) eqn:E; [apply IH|].
  simpl. rewrite E. now rewrite IH.
Qed.

(** X19: the Spanning Tree Engine changes nothing in its own result: on a
    simple graph, the tree of the tree is the tree. *)
Theorem build_mst_graph_idempotent (G : Graph) :
  simple_graph G ->
  build_mst_graph (build_mst_graph G) = build_mst_graph G.
Proof.
  intro Hs. rewrite (build_mst_graph_simple G Hs).
  destruct Hs as [Hnd [Hcan Hp]].
  rewrite build_mst_graph_simple.
  - cbn [nodes]. f_equal. unfold kruskal_mst_edges at 1. cbn [edges].
    unfold kruskal_mst_edges.
    rewrite sorted_by_weight_fixed
      by apply kruskal_loop_sorted, sorted_by_weight_sorted.
    apply kruskal_loop_idem.
  - unfold simple_graph. cbn [nodes edges]. split; [exact Hnd|]. split.
    + intros e He. apply Hcan. now apply kruskal_mst_edges_incl.
    + unfold kruskal_mst_edges. apply NoDup_pairs_kruskal.
      apply (Permutation_NoDup (l := map edge_pair (edges G))); [|exact Hp].
      apply Permutation_map, sorted_by_weight_perm.
Qed.

Lemma build_mst_graph_idempotent_witness :
  build_mst_graph (build_mst_graph triangle) = build_mst_graph triangle.
Proof.
  apply (build_mst_graph_idempotent triangle triangle_simple).
Defined.

(** X20: on any simple connected graph over the nodes [0 .. n-1] with
    weights that are never negative, the Spanning Tree Engine returns [n-1]
    edges whose total weight is minimal among the edge sets of the graph
    that connect all nodes. *)
Theorem build_mst_graph_minimal (G : Graph) (n : nat) :
  simple_graph G ->
  0 < n ->
  nodes G = seq 0 n ->
  spanning n (edges G) ->
  (forall e, In e (edges G) -> (0 <= weight e)%R) ->
  List.length (edges (build_mst_graph G)) = n - 1 /\
  (forall S, incl S (edges G) -> spanning n S ->
             (total_weight (edges (build_mst_graph G)) <= total_weight S)%R).
Proof.
  intros Hs Hn Hnodes Hsp Hpos.
  rewrite (build_mst_graph_simple G Hs). cbn [edges].
  destruct Hs as [_ [Hcan _]].
  set (L := sorted_by_weight (edges G)).
  assert (HinL : forall e, In e L <-> In e (edges G)).
  { intro e. unfold L. split; apply Permutation_in;
      [apply Permutation_sym|]; apply sorted_by_weight_perm. }
  assert (Hr : in_range n L).
  { intros e He. apply HinL in He. destruct (Hcan e He) as [_ [Hu Hv]].
    rewrite Hnodes in Hu, Hv. apply in_seq in Hu. apply in_seq in Hv. lia. }
  assert (Hso : StronglySorted by_weight L) by apply sorted_by_weight_sorted.
  assert (HspL : spanning n L).
  { intros x y Hx Hy. apply (connected_incl (edges G)); [|now apply Hsp].
    intros e He. now apply HinL. }
  unfold kruskal_mst_edges. fold L. split.
  - apply (kruskal_length n Hn L Hr L); [apply incl_refl | exact HspL].
  - intros S HS HspS. apply (kruskal_minimal n Hn L Hr Hso).
    + intros e He. apply Hpos. now apply HinL.
    + intros e He. apply HinL. now apply HS.
    + exact HspS.
Qed.

Lemma triangle_spanning : spanning 3 (edges triangle).
Proof.
  assert (c01 : connected (edges triangle) 0 1)
    by (apply (conn_edge _ 0 1 100%R); simpl; auto).
  assert (c12 : connected (edges triangle) 1 2)
    by (apply (conn_edge _ 1 2 200%R); simpl; auto).
  assert (c02 : connected (edges triangle) 0 2)
    by (apply (conn_edge _ 0 2 150%R); simpl; auto).
  intros x y Hx Hy.
  destruct x as [|[|[|x]]]; destruct y as [|[|[|y]]]; try lia;
    first [ apply conn_refl
          | assumption
          | apply conn_sym; assumption ].
Defined.

Lemma build_mst_graph_minimal_witness :
  List.length (edges (build_mst_graph triangle)) = 3 - 1 /\
  (forall S, incl S (edges triangle) -> spanning 3 S ->
             (total_weight (edges (build_mst_graph triangle))
              <= total_weight S)%R).
Proof.
  apply (build_mst_graph_minimal triangle 3 triangle_simple).
  - lia.
  - reflexivity.
  - exact triangle_spanning.
  - intros e [<- | [<- | [<- | []]]]; unfold weight; simpl; lra.
Defined.

(* ================================================================== *)
(** ** The total distance, the file system and fatal geometries *)

Lemma fold_left_Rplus (l : list R) (a : R) :
  fold_left Rplus l a = (a + fold_right Rplus 0 l)%R.
Proof.
  revert a. induction l as [|x l IH]; intro a; simpl; [lra|].
  rewrite IH. lra.
Qed.

Lemma sum_lengths_total_weight (E : list edge) :
  sum_lengths (map weight E) = total_weight E.
Proof.
  unfold sum_lengths, total_weight. rewrite fold_left_Rplus. lra.
Qed.

Lemma mst_total_weight_minimal (coords_df : list (located_point R))
  (S : list edge) :
  incl S (geodesic_edges coords_df) ->
  spanning (List.length coords_df) S ->
  (total_weight (edges (build_mst_graph (geodesic_graph coords_df)))
   <= total_weight S)%R.
Proof.
  intros HS HspS. rewrite build_mst_graph_eq. cbn [edges].
  set (L := sorted_by_weight (geodesic_edges coords_df)).
  assert (HSL : incl S L).
  { intros e He. apply in_sorted_geodesic. now apply HS. }
  destruct (Nat.eq_dec (List.length coords_df) 0) as [E0 | Hpos].
  - unfold L. rewrite (geodesic_edges_nil coords_df) by lia. simpl.
    apply total_weight_nonneg. intros e He.
    apply (sorted_geodesic_nonneg coords_df). now apply HSL.
  - apply (kruskal_minimal (List.length coords_df)); auto.
    + lia.
    + apply sorted_geodesic_range.
    + apply sorted_by_weight_sorted.
    + apply sorted_geodesic_nonneg.
Qed.

(** X21: the [total_distance] of a result with status ["ok"] is the total
    weight of its edges and is the least possible: no set of edges of the
    Builder's graph over the extracted points that connects them all weighs
    less. *)
Theorem total_distance_minimal (P : provider) (b : bbox)
  (mode cache_dir : string) (output_file : option string) (d : dict) :
  generate_logistics_mst P b mode cache_dir output_file = Ok d ->
  get d "status" = Some (VStr "ok") ->
  exists gdf coords_df G total,
    load_logistics_features P b mode (Some (cache_file cache_dir mode)) = Ok gdf /\
    extract_coordinates gdf = Ok coords_df /\
    build_geodesic_graph P coords_df = Ok G /\
    get d "total_distance" = Some (VFloat total) /\
    (forall S, incl S (edges G) ->
               spanning (List.length coords_df) S ->
               (total <= total_weight S)%R).
Proof.
  intros Hgen Hst. pose proof Hgen as Hret.
  apply generate_logistics_mst_returns in Hret
    as [[_ ->] | [gdf [coords_df [html [Hl [Hne [Hx [_ ->]]]]]]]];
    [discriminate|].
  exists gdf, coords_df, (geodesic_graph coords_df),
    (sum_lengths (map weight
       (edges (build_mst_graph (geodesic_graph coords_df))))).
  split; [exact Hl|]. split; [exact Hx|].
  split; [exact (generate_logistics_mst_built _ _ _ _ _ _ _ _ Hgen Hl Hne Hx)|].
  split; [reflexivity|].
  intros S HS HspS. rewrite sum_lengths_total_weight.
  rewrite geodesic_graph_eq in HS. cbn [edges] in HS.
  now apply mst_total_weight_minimal.
Qed.

Lemma total_distance_minimal_witness :
  exists gdf coords_df G total,
    load_logistics_features routed_provider sample_bbox "auto"
      (Some (cache_file "cache" "auto")) = Ok gdf /\
    extract_coordinates gdf = Ok coords_df /\
    build_geodesic_graph routed_provider coords_df = Ok G /\
    get sample_result "total_distance" = Some (VFloat total) /\
    (forall S, incl S (edges G) ->
               spanning (List.length coords_df) S ->
               (total <= total_weight S)%R).
Proof.
  apply (total_distance_minimal routed_provider sample_bbox "auto" "cache"
           None sample_result); reflexivity.
Defined.

Lemma cache_file_path (cache_dir mode : string) :
  cache_path_or_default (Some (cache_file cache_dir mode)) mode
  = cache_file cache_dir mode.
Proof.
  unfold cache_file, path_join.
  destruct cache_dir as [|c rest]; [reflexivity|].
  destruct (ends_with_slash (String c rest)); reflexivity.
Qed.

Lemma draw_edges_with_save (P : provider)
  (f : folium_map -> string -> result unit) (G_drive : network P)
  (df : list snapped_row) (es : list edge) :
  draw_edges (with_save P f) G_drive df es = draw_edges P G_drive df es.
Proof.
  induction es as [|e es IH]; [reflexivity|].
  simpl. rewrite IH. reflexivity.
Qed.

Lemma circle_markers_with_save (P : provider)
  (f : folium_map -> string -> result unit)
  (coords_df : list (located_point R)) :
  circle_markers (with_save P f) coords_df = circle_markers P coords_df.
Proof. unfold circle_markers. apply flat_map_ext. reflexivity. Qed.

(** X25: the file system is not guarded.  An error of [os.makedirs] on the
    cache directory, of [gdf.to_file] on the cache file of the loaded
    records, or of [m.save] on the finished map comes out of
    [generate_logistics_mst] (of [visualize_mst_map] for the last) as it
    is; with the empty string as cache directory nothing is returned. *)
Theorem file_system_errors_propagate (P : provider) (b : bbox)
  (mode cache_dir : string) (output_file : option string) (e : exn) :
  (makedirs P cache_dir = Raise e ->
   generate_logistics_mst P b mode cache_dir output_file = Raise e) /\
  (forall tags gdf,
     makedirs P cache_dir = Ok tt ->
     get_default_tags mode = Ok tags ->
     features_from_bbox P b tags = Ok gdf ->
     to_file P gdf (cache_file cache_dir mode) = Raise e ->
     generate_logistics_mst P b mode cache_dir output_file = Raise e) /\
  (forall coords_df mst out html,
     visualize_mst_map (with_save P (fun _ _ => Ok tt)) coords_df mst b mode out
     = Ok html ->
     save P (snd html) out = Raise e ->
     visualize_mst_map P coords_df mst b mode out = Raise e) /\
  ~ returns (generate_logistics_mst
               (sample_provider (Ok [facility_a; facility_b]) (Ok tt) snap_all
                                (fun u v => Ok (Some [u; v]))
                                (fun _ => Ok [5%R; 7%R]))
               b mode "" output_file).
Proof.
  split; [|split; [|split]].
  - intro Hm. unfold generate_logistics_mst. now rewrite Hm.
  - intros tags gdf Hm Ht Hf Hw. unfold generate_logistics_mst.
    rewrite Hm. cbn [bind]. unfold load_logistics_features.
    rewrite Ht. cbn [bind]. rewrite Hf. cbn [bind].
    rewrite cache_file_path, Hw. reflexivity.
  - intros coords_df mst out html. unfold visualize_mst_map.
    rewrite circle_markers_with_save.
    cbn [graph_from_bbox nearest_nodes with_save network].
    destruct (graph_from_bbox P b "drive") as [G|x]; [|discriminate].
    cbn [bind]. destruct coords_df as [|row rest]; [discriminate|].
    destruct (nearest_nodes P G _ _) as [osm|x]; [|discriminate].
    cbn [bind].
    destruct (assign_osm_node (row :: rest) osm) as [df|x]; [|discriminate].
    cbn [bind].
    rewrite (draw_edges_with_save P (fun _ _ => Ok tt) G df (edges mst)).
    destruct (draw_edges P G df (edges mst)) as [drawn|x]; [|discriminate].
    cbn [bind save]. intro H. injection H as <-. intro Hs.
    match goal with
    | |- bind ?m _ = _ =>
        replace m with (@Raise unit e) by (symmetry; exact Hs)
    end.
    reflexivity.
  - intros [d Hd]. discriminate Hd.
Qed.

Lemma file_system_errors_propagate_witness :
  generate_logistics_mst routed_provider sample_bbox "auto" "" None
  = Raise (FileNotFoundError "[Errno 2] No such file or directory: ''").
Proof.
  apply (file_system_errors_propagate routed_provider sample_bbox "auto" ""
           None (FileNotFoundError "[Errno 2] No such file or directory: ''")).
  reflexivity.
Defined.

Lemma extract_coordinates_unresolved (C : Type) (gdf : list (facility C))
  (row : facility C) :
  In row gdf ->
  is_polygonal (geom_type (fac_geometry row)) = false ->
  xy (fac_geometry row) = None ->
  exists msg, extract_coordinates gdf = Raise (AttributeError msg).
Proof.
  intros Hin Hp Hxy. induction gdf as [|r gdf IH]; [destruct Hin|].
  simpl. unfold resolve_yx at 1.
  destruct (is_polygonal (geom_type (fac_geometry r))) eqn:Ep.
  - cbn [bind]. destruct Hin as [-> | Hin]; [congruence|].
    destruct (IH Hin) as [msg ->]. now exists msg.
  - destruct (xy (fac_geometry r)) as [[x y]|] eqn:Exy.
    + cbn [bind]. destruct Hin as [-> | Hin]; [congruence|].
      destruct (IH Hin) as [msg ->]. now exists msg.
    + eexists. reflexivity.
Qed.

(** X22: once the cache directory is made and the records are loaded, one
    record whose geometry is neither a polygon, a multipolygon nor a point
    (it has no [y]) makes the whole call fail with AttributeError, whatever
    the other records and the road network are. *)
Theorem unsupported_geometry_is_fatal (P : provider) (b : bbox)
  (mode cache_dir : string) (output_file : option string)
  (gdf : list (facility R)) (row : facility R) :
  makedirs P cache_dir = Ok tt ->
  load_logistics_features P b mode (Some (cache_file cache_dir mode)) = Ok gdf ->
  In row gdf ->
  is_polygonal (geom_type (fac_geometry row)) = false ->
  xy (fac_geometry row) = None ->
  exists msg,
    generate_logistics_mst P b mode cache_dir output_file
    = Raise (AttributeError msg).
Proof.
  intros Hm Hl Hin Hp Hxy.
  destruct (extract_coordinates_unresolved R gdf row Hin Hp Hxy) as [msg Hx].
  exists msg. unfold generate_logistics_mst. rewrite Hm. cbn [bind].
  rewrite Hl. cbn [bind].
  destruct gdf as [|r gdf]; [destruct Hin|].
  now rewrite Hx.
Qed.

Lemma unsupported_geometry_is_fatal_witness :
  exists msg,
    generate_logistics_mst line_provider sample_bbox "auto" "cache" None
    = Raise (AttributeError msg).
Proof.
  apply (unsupported_geometry_is_fatal line_provider sample_bbox "auto"
           "cache" None [facility_a; line_facility] line_facility).
  - reflexivity.
  - reflexivity.
  - right. now left.
  - reflexivity.
  - reflexivity.
Defined.
